(** * An N-order Markov chain over MIDI note pairs

    Shallow embedding of [markov_melody_generation.py]: the [MarkovChain]
    class ([train], [generate]), the event pairer [extract_notes] and the
    serializer [save_melody], followed by the properties of the written
    specification that were checked against them.

    Conventions of the embedding.
    - Python integers are [Z]; list indices and slices follow Python
      (negative indices count from the end, slices clamp).
    - A Python [dict] is an association list in insertion order with
      distinct keys: [list(d.keys())] is [map fst d].
    - A method runs in the monad [M]: it threads the [MarkovChain] object
      and the state of the [random] module, and either returns a value or
      raises.
    - The [random] module is a tape of the successive values of
      [random.random()], rationals in the half-open unit interval.
    - The weights of line 80 have two readings. Read as exact rationals
      ([true_div], [generate]) they serve the properties of length,
      membership and frame, which no rounding touches. Read in binary64
      with its roundings ([Float]) they decide which successor a draw
      selects. *)

From Stdlib Require Import ZArith QArith Qround Qpower Qabs List String Bool Lia.
From Stdlib Require Import DecimalString Lqa.
Import ListNotations.
Open Scope string_scope.
Open Scope list_scope.
Open Scope Z_scope.

(* ===================================================================== *)
(** * Python values *)
(* ===================================================================== *)

Module Py.

Section Lists.
Context {A : Type}.

(** [len(l)] *)
Definition len (l : list A) : Z := Z.of_nat (List.length l).

(** [l[i]]: [None] stands for [IndexError]. *)
Definition index (l : list A) (i : Z) : option A :=
  if (0 <=? i) && (i <? len l) then nth_error l (Z.to_nat i)
  else if (- len l <=? i) && (i <? 0) then nth_error l (Z.to_nat (len l + i))
  else None.

(** Clamping of one slice bound, as [slice.indices] does for step 1. *)
Definition clamp (n : Z) (i : Z) : Z :=
  if i <? 0 then Z.max (i + n) 0 else Z.min i n.

(** [l[start:stop]]; a missing bound is [None]. *)
Definition slice (l : list A) (start stop : option Z) : list A :=
  let n := len l in
  let lo := match start with Some i => clamp n i | None => 0 end in
  let hi := match stop with Some j => clamp n j | None => n end in
  firstn (Z.to_nat (hi - lo)) (skipn (Z.to_nat lo) l).

(** [enumerate(l)] from a starting index. *)
Fixpoint enumerate_from (i : Z) (l : list A) : list (Z * A) :=
  match l with
  | [] => []
  | x :: l' => (i, x) :: enumerate_from (i + 1) l'
  end.

Definition enumerate (l : list A) : list (Z * A) := enumerate_from 0 l.
End Lists.

(** [range(n)] *)
Definition range (n : Z) : list Z := map Z.of_nat (seq 0 (Z.to_nat n)).

(** [sum(l)] on integers. *)
Definition sum (l : list Z) : Z := fold_left Z.add l 0.

(** [str(n)] for an integer, as an f-string renders it. *)
Definition str (n : Z) : string := NilZero.string_of_int (Z.to_int n).

(** Insertion-ordered dictionaries. *)
Section Dict.
Context {K V : Type}.
Variable K_eq_dec : forall a b : K, {a = b} + {a <> b}.

Definition dict := list (K * V).

(** [d.get(k)] *)
Fixpoint get (d : dict) (k : K) : option V :=
  match d with
  | [] => None
  | (k', v) :: d' => if K_eq_dec k k' then Some v else get d' k
  end.

(** [d[k] = v]: an existing key keeps its position, a new one is
    appended. *)
Fixpoint set (d : dict) (k : K) (v : V) : dict :=
  match d with
  | [] => [(k, v)]
  | (k', v') :: d' =>
      if K_eq_dec k k' then (k', v) :: d' else (k', v') :: set d' k v
  end.

(** [d.setdefault(k, v)], the dictionary afterwards. *)
Definition setdefault (d : dict) (k : K) (v : V) : dict :=
  match get d k with
  | Some _ => d
  | None => set d k v
  end.

(** [list(d.keys())] *)
Definition keys (d : dict) : list K := map fst d.

(** [d.items()] *)
Definition items (d : dict) : list (K * V) := d.
End Dict.

End Py.

(* ===================================================================== *)
(** * Data model *)
(* ===================================================================== *)

(** [(pitch, velocity, time)] *)
Definition Note : Type := Z * Z * Z.

(** [((on_pitch, on_velocity, on_time), (off_pitch, off_velocity, off_time))] *)
Definition NotePair : Type := Note * Note.

(** A context is a tuple of note pairs. *)
Definition Ctx : Type := list NotePair.

(** [Counter]: successor -> count. *)
Definition Counter : Type := list (NotePair * Z).

(** [defaultdict(Counter)]: context -> Counter. *)
Definition Model : Type := list (Ctx * Counter).

Definition Note_eq_dec (a b : Note) : {a = b} + {a <> b}.
Proof. repeat decide equality. Defined.

Definition NotePair_eq_dec (a b : NotePair) : {a = b} + {a <> b}.
Proof. repeat decide equality. Defined.

Definition Ctx_eq_dec : forall a b : Ctx, {a = b} + {a <> b} :=
  list_eq_dec NotePair_eq_dec.

(** [Counter.__getitem__]: a missing successor counts 0 and is not
    inserted. *)
Definition counter_get (c : Counter) (x : NotePair) : Z :=
  match Py.get NotePair_eq_dec c x with
  | Some n => n
  | None => 0
  end.

(** The object: [self.order], [self.model]. *)
Record MarkovChain : Type := mkMarkovChain {
  order : Z;
  model : Model
}.

(** [MarkovChain(order)] *)
Definition new_MarkovChain (order : Z) : MarkovChain :=
  {| order := order; model := [] |}.

(* ===================================================================== *)
(** * Effects *)
(* ===================================================================== *)

Inductive exn : Type :=
| ValueError (msg : string)
| IndexError
| ZeroDivisionError
| OverflowError
| struct_error.

Inductive outcome (A : Type) : Type :=
| Ok (a : A)
| Raise (e : exn).
Arguments Ok {A} a.
Arguments Raise {A} e.

(** Sequencing of two steps that may raise, outside the chain's methods. *)
Definition and_then {A B} (o : outcome A) (k : A -> outcome B) : outcome B :=
  match o with
  | Ok a => k a
  | Raise e => Raise e
  end.

(** The successive values of [random.random()]. *)
Definition Rng : Type := nat -> Q.

Record World : Type := mkWorld {
  self : MarkovChain;
  rng : Rng
}.

Definition M (A : Type) : Type := World -> outcome A * World.

Definition ret {A} (a : A) : M A := fun w => (Ok a, w).

Definition raise {A} (e : exn) : M A := fun w => (Raise e, w).

Definition bind {A B} (m : M A) (k : A -> M B) : M B :=
  fun w =>
    match m w with
    | (Ok a, w') => k a w'
    | (Raise e, w') => (Raise e, w')
    end.

Declare Scope py_scope.
Delimit Scope py_scope with py.
Notation "x <- m ;; k" := (bind m (fun x => k))
  (at level 61, m at next level, right associativity) : py_scope.
Notation "m ;;; k" := (bind m (fun _ => k))
  (at level 61, right associativity) : py_scope.
Open Scope py_scope.

(** [self.order] *)
Definition get_order : M Z := fun w => (Ok (order (self w)), w).

(** [self.model] *)
Definition get_model : M Model := fun w => (Ok (model (self w)), w).

(** Mutation of the dictionary object held in [self.model]. *)
Definition put_model (m : Model) : M unit :=
  fun w =>
    (Ok tt, {| self := {| order := order (self w); model := m |};
               rng := rng w |}).

(** [for x in l: body], with the loop's local variables in [acc]. *)
Fixpoint for_each {A B} (l : list A) (body : B -> A -> M B) (acc : B) : M B :=
  match l with
  | [] => ret acc
  | x :: l' => acc' <- body acc x ;; for_each l' body acc'
  end.

(** Lifting of an index operation. *)
Definition or_IndexError {A} (o : option A) : M A :=
  match o with
  | Some a => ret a
  | None => raise IndexError
  end.

Notation "' pat <- m ;; k" :=
  (bind m (fun x => match x with pat => k end))
  (at level 61, pat pattern, m at next level, right associativity) : py_scope.

(* ===================================================================== *)
(** * The [random] module *)
(* ===================================================================== *)

(** The tape after one draw. *)
Definition shift (r : Rng) : Rng := fun n => r (S n).

(** [random.random()]: the next value of the tape. *)
Definition random : M Q :=
  fun w => (Ok (rng w 0%nat), {| self := self w; rng := shift (rng w) |}).

(** [random._randbelow(n)]: a uniform index below [n], read off one draw. *)
Definition randbelow (n : Z) : M Z :=
  u <- random ;; ret (Qfloor (u * inject_Z n)).

(** [random.choice(seq)]: [IndexError] on an empty sequence, otherwise
    [seq[_randbelow(len(seq))]]. *)
Definition random_choice {A} (seq : list A) : M A :=
  if Py.len seq =? 0 then raise IndexError
  else i <- randbelow (Py.len seq) ;; or_IndexError (Py.index seq i).

(** [itertools.accumulate(weights)]: running sums. *)
Fixpoint accumulate_from (acc : Q) (weights : list Q) : list Q :=
  match weights with
  | [] => []
  | p :: weights' => (acc + p)%Q :: accumulate_from (acc + p)%Q weights'
  end.

Definition accumulate (weights : list Q) : list Q :=
  match weights with
  | [] => []
  | p :: weights' => p :: accumulate_from p weights'
  end.

(** [bisect.bisect(a, x, 0, hi)]: on a sorted list the library's binary
    search returns the first index below [hi] whose entry exceeds [x], and
    [hi] if there is none. *)
Fixpoint bisect (a : list Q) (x : Q) (hi : nat) : nat :=
  match hi, a with
  | S hi', c :: a' => if Qlt_le_dec x c then 0%nat else S (bisect a' x hi')
  | _, _ => 0%nat
  end.

(** [random.choices(population, weights=weights, k=1)[0]]. *)
Definition random_choices1 {A} (population : list A) (weights : list Q) : M A :=
  let cum_weights := accumulate weights in
  if negb (Py.len cum_weights =? Py.len population) then
    raise (ValueError "The number of weights does not match the population")
  else
    total <- or_IndexError (Py.index cum_weights (-1)) ;;
    if Qle_bool total 0 then
      raise (ValueError "Total of weights must be greater than zero")
    else
      let hi := (List.length population - 1)%nat in
      u <- random ;;
      or_IndexError (nth_error population (bisect cum_weights (u * total) hi)).

(** [c / total] on integers: true division, the quotient read as an
    exact rational. *)
Definition true_div (c total : Z) : M Q :=
  if total =? 0 then raise ZeroDivisionError
  else ret (inject_Z c / inject_Z total)%Q.

(* ===================================================================== *)
(** * [MarkovChain.train] *)
(* ===================================================================== *)

(** [self.model[k]]: [defaultdict.__getitem__] inserts an empty [Counter]
    under a missing key. *)
Definition model_getitem (k : Ctx) : M Counter :=
  m <- get_model ;;
  match Py.get Ctx_eq_dec m k with
  | Some c => ret c
  | None => put_model (Py.set Ctx_eq_dec m k []) ;;; ret []
  end.

(** [self.model[current_state][next_state] += 1]: the [Counter] object
    stored under [current_state] is updated in place. *)
Definition model_increment (current_state : Ctx) (next_state : NotePair) : M unit :=
  c <- model_getitem current_state ;;
  let c' := Py.set NotePair_eq_dec c next_state (counter_get c next_state + 1) in
  m <- get_model ;;
  put_model (Py.set Ctx_eq_dec m current_state c').

(** [self.model.setdefault(k, Counter())] *)
Definition model_setdefault (k : Ctx) : M unit :=
  m <- get_model ;;
  put_model (Py.setdefault Ctx_eq_dec m k []).

Definition train_error (order length : Z) : exn :=
  ValueError ("Cannot train MarkovChain(order=" ++ Py.str order
              ++ ") on sequence of length=" ++ Py.str length ++ ".")%string.

Definition train (sequence : list NotePair) : M unit :=
  order <- get_order ;;
  if Py.len sequence <=? order then
    raise (train_error order (Py.len sequence))
  else
    let sequence_length := Py.len sequence in
    order <- get_order ;;
    for_each (Py.range (sequence_length - order))
      (fun _ i =>
         order <- get_order ;;
         let current_state := Py.slice sequence (Some i) (Some (i + order)) in
         order <- get_order ;;
         next_state <- or_IndexError (Py.index sequence (i + order)) ;;
         model_increment current_state next_state) tt ;;;
    order <- get_order ;;
    let tail := Py.slice sequence (Some (- order)) None in
    model_setdefault tail.

(* ===================================================================== *)
(** * [MarkovChain.generate] *)
(* ===================================================================== *)

Definition empty_model_error : exn :=
  ValueError "The Markov model is empty. Train it first.".

Definition generate_length_error (length order : Z) : exn :=
  ValueError ("Cannot generate " ++ Py.str length ++ " notes with order="
              ++ Py.str order ++ ".")%string.

(** [choices, counts]: the items of [next_notes], unzipped. *)
Definition unzip_items (c : Counter) : list NotePair * list Z :=
  (map fst (Py.items c), map snd (Py.items c)).

(** [[c / total for c in counts]] *)
Fixpoint probabilities_of (counts : list Z) (total : Z) : M (list Q) :=
  match counts with
  | [] => ret []
  | c :: counts' =>
      p <- true_div c total ;;
      ps <- probabilities_of counts' total ;;
      ret (p :: ps)
  end.

(** The branch taken when [next_notes] is truthy. *)
Definition weighted_successor (next_notes : Counter) : M NotePair :=
  let '(choices, counts) := unzip_items next_notes in
  let total := Py.sum counts in
  probabilities <- probabilities_of counts total ;;
  random_choices1 choices probabilities.

(** One iteration of the generation loop; the locals are
    [(current_state, result)]. *)
Definition generate_step (states : list Ctx)
    (locals : Ctx * list NotePair) : M (Ctx * list NotePair) :=
  let '(current_state, result) := locals in
  m <- get_model ;;
  let next_notes := Py.get Ctx_eq_dec m current_state in
  ' (current_state, next_note) <-
    match next_notes with
    | Some (item :: items) =>
        next_note <- weighted_successor (item :: items) ;;
        ret (current_state, next_note)
    | Some [] | None =>
        current_state <- random_choice states ;;
        next_note <- random_choice current_state ;;
        ret (current_state, next_note)
    end ;;
  let result := result ++ [next_note] in
  order <- get_order ;;
  let current_state := Py.slice result (Some (- order)) None in
  ret (current_state, result).

Definition generate (length : Z) : M (list NotePair) :=
  m <- get_model ;;
  match m with
  | [] => raise empty_model_error
  | _ :: _ =>
      order <- get_order ;;
      if length <=? order then raise (generate_length_error length order)
      else
        m <- get_model ;;
        let states := Py.keys m in
        current_state <- random_choice states ;;
        let result := current_state in
        order <- get_order ;;
        ' (_, result) <-
          for_each (Py.range (length - order))
            (fun locals _ => generate_step states locals)
            (current_state, result) ;;
        ret result
  end.

(* ===================================================================== *)
(** * The generation loop in binary64 *)
(* ===================================================================== *)

(** The arithmetic of Python's floats. *)
Module Binary64.

(** A binary64 value, by its exact value when finite; the sign of zero is
    not kept, no comparison reads it. *)
Inductive binary64 : Type :=
| Finite (x : Q)
| Infinity (negative : bool)
| NaN.

Definition pow2 (e : Z) : Q := (2 ^ e)%Q.

(** The exponent of the binade of [x]: the floor of the binary logarithm
    of [|x|], for [x] other than 0. *)
Definition ilog2 (x : Q) : Z :=
  let d := Z.log2 (Z.abs (Qnum x)) - Z.log2 (Zpos (Qden x)) in
  if Qle_bool (pow2 d) (Qabs x) then d else d - 1.

(** The nearest integer, a tie going to the even one. *)
Definition rne (x : Q) : Z :=
  let f := Qfloor x in
  match (x - inject_Z f ?= 1 # 2)%Q with
  | Lt => f
  | Gt => f + 1
  | Eq => if Z.even f then f else f + 1
  end.

(** Rounding to nearest, ties to even, with 53 significant bits above
    the exponent -1022 and the spacing [2 ^ -1074] below; what reaches
    [2 ^ 1024] is infinite. *)
Definition round64 (x : Q) : binary64 :=
  if Qeq_bool x 0 then Finite 0
  else
    let e := Z.max (ilog2 x) (-1022) - 52 in
    let y := Qred (inject_Z (rne (x / pow2 e)) * pow2 e) in
    if Qle_bool (pow2 1024) (Qabs y) then Infinity (negb (Qle_bool 0 x))
    else Finite y.

(** [a + b] *)
Definition add (a b : binary64) : binary64 :=
  match a, b with
  | NaN, _ | _, NaN => NaN
  | Infinity s, Infinity s' => if Bool.eqb s s' then Infinity s else NaN
  | Infinity s, Finite _ | Finite _, Infinity s => Infinity s
  | Finite x, Finite y => round64 (x + y)
  end.

(** [a * b] *)
Definition mul (a b : binary64) : binary64 :=
  match a, b with
  | NaN, _ | _, NaN => NaN
  | Infinity s, Infinity s' => Infinity (xorb s s')
  | Infinity s, Finite x | Finite x, Infinity s =>
      if Qeq_bool x 0 then NaN else Infinity (xorb s (negb (Qle_bool 0 x)))
  | Finite x, Finite y => round64 (x * y)
  end.

(** [a < b] *)
Definition ltb (a b : binary64) : bool :=
  match a, b with
  | NaN, _ | _, NaN => false
  | Finite x, Finite y => negb (Qle_bool y x)
  | Finite _, Infinity s => negb s
  | Infinity s, Finite _ => s
  | Infinity s, Infinity s' => s && negb s'
  end.

(** [a <= b] *)
Definition leb (a b : binary64) : bool :=
  match a, b with
  | NaN, _ | _, NaN => false
  | Finite x, Finite y => Qle_bool x y
  | Finite _, Infinity s => negb s
  | Infinity s, Finite _ => s
  | Infinity s, Infinity s' => s || negb s'
  end.

(** [math.isfinite(a)] *)
Definition isfinite (a : binary64) : bool :=
  match a with
  | Finite _ => true
  | _ => false
  end.

End Binary64.

(** Lines 77 to 81 with the floats of Python: [c / total] is the quotient
    of two integers rounded once to binary64, [itertools.accumulate] adds
    in binary64, and [random.choices] bisects the running sums at
    [random() * total]. The rest of the loop is as in [generate]. *)
Module Float.
Import Binary64.

(** [c / total] on integers: the exact quotient rounded once;
    [OverflowError] when the rounded quotient is not finite. *)
Definition true_div (c total : Z) : M binary64 :=
  if total =? 0 then raise ZeroDivisionError
  else
    match round64 (inject_Z c / inject_Z total) with
    | Finite q => ret (Finite q)
    | _ => raise OverflowError
    end.

(** [random.random()] as a binary64 value; the draws of the generator,
    multiples of [2 ^ -53], are binary64 values as they are. *)
Definition random : M binary64 :=
  u <- random ;; ret (round64 u).

(** [itertools.accumulate(weights)]: running sums. *)
Fixpoint accumulate_from (acc : binary64) (weights : list binary64)
  : list binary64 :=
  match weights with
  | [] => []
  | p :: weights' => add acc p :: accumulate_from (add acc p) weights'
  end.

Definition accumulate (weights : list binary64) : list binary64 :=
  match weights with
  | [] => []
  | p :: weights' => p :: accumulate_from p weights'
  end.

(** The loop of [bisect.bisect(a, x, lo, hi)]: [while lo < hi], compare
    [x] with [a[mid]] at [mid = (lo + hi) // 2]. Each turn shrinks
    [hi - lo], so [hi - lo] turns end the loop. *)
Fixpoint bisect_loop (turns : nat) (a : list binary64) (x : binary64)
    (lo hi : nat) : option nat :=
  match turns with
  | O => Some lo
  | S turns' =>
      if (lo <? hi)%nat then
        let mid := ((lo + hi) / 2)%nat in
        match nth_error a mid with
        | None => None
        | Some a_mid =>
            if ltb x a_mid then bisect_loop turns' a x lo mid
            else bisect_loop turns' a x (S mid) hi
        end
      else Some lo
  end.

Definition bisect (a : list binary64) (x : binary64) (lo hi : nat)
  : option nat :=
  bisect_loop (hi - lo) a x lo hi.

(** [random.choices(population, weights=weights, k=1)[0]]. *)
Definition random_choices1 {A} (population : list A) (weights : list binary64)
  : M A :=
  let cum_weights := accumulate weights in
  if negb (Py.len cum_weights =? Py.len population) then
    raise (ValueError "The number of weights does not match the population")
  else
    last <- or_IndexError (Py.index cum_weights (-1)) ;;
    let total := add last (Finite 0) in
    if leb total (Finite 0) then
      raise (ValueError "Total of weights must be greater than zero")
    else if negb (isfinite total) then
      raise (ValueError "Total of weights must be finite")
    else
      let hi := (List.length population - 1)%nat in
      u <- random ;;
      i <- or_IndexError (bisect cum_weights (mul u total) 0 hi) ;;
      or_IndexError (nth_error population i).

(** [[c / total for c in counts]] *)
Fixpoint probabilities_of (counts : list Z) (total : Z) : M (list binary64) :=
  match counts with
  | [] => ret []
  | c :: counts' =>
      p <- true_div c total ;;
      ps <- probabilities_of counts' total ;;
      ret (p :: ps)
  end.

(** The branch taken when [next_notes] is truthy. *)
Definition weighted_successor (next_notes : Counter) : M NotePair :=
  let '(choices, counts) := unzip_items next_notes in
  let total := Py.sum counts in
  probabilities <- probabilities_of counts total ;;
  random_choices1 choices probabilities.

(** One iteration of the generation loop; the locals are
    [(current_state, result)]. *)
Definition generate_step (states : list Ctx)
    (locals : Ctx * list NotePair) : M (Ctx * list NotePair) :=
  let '(current_state, result) := locals in
  m <- get_model ;;
  let next_notes := Py.get Ctx_eq_dec m current_state in
  ' (current_state, next_note) <-
    match next_notes with
    | Some (item :: items) =>
        next_note <- weighted_successor (item :: items) ;;
        ret (current_state, next_note)
    | Some [] | None =>
        current_state <- random_choice states ;;
        next_note <- random_choice current_state ;;
        ret (current_state, next_note)
    end ;;
  let result := result ++ [next_note] in
  order <- get_order ;;
  let current_state := Py.slice result (Some (- order)) None in
  ret (current_state, result).

End Float.

(* ===================================================================== *)
(** * MIDI messages *)
(* ===================================================================== *)

(** The messages of the MIDI library, by [msg.type]; only the attributes
    that the program reads or writes are kept. *)
Inductive Message : Type :=
| note_on (note velocity time : Z)
| note_off (note velocity time : Z)
| set_tempo (tempo time : Z)
| other_message (type : string) (time : Z).

Record MidiFile : Type := mkMidiFile {
  ticks_per_beat : Z;
  tracks : list (list Message)
}.

(** [msg.copy(time=t)] *)
Definition copy_with_time (msg : Message) (t : Z) : Message :=
  match msg with
  | note_on n v _ => note_on n v t
  | note_off n v _ => note_off n v t
  | set_tempo tempo _ => set_tempo tempo t
  | other_message ty _ => other_message ty t
  end.

(** [bpm2tempo(bpm)]: microseconds per beat, [60e6 / bpm] rounded to the
    nearest integer (half to even), for a positive integer [bpm]. *)
Definition bpm2tempo (bpm : Z) : Z :=
  let q := 60 * 1000000 / bpm in
  let r := 60 * 1000000 mod bpm in
  if 2 * r <? bpm then q
  else if bpm <? 2 * r then q + 1
  else if Z.even q then q else q + 1.

(* ===================================================================== *)
(** * [extract_notes] *)
(* ===================================================================== *)

(** Line 117, then line 118: [msg2] closes a note of pitch [note]. *)
Definition matching_off (note : Z) (msg2 : Message) : option Note :=
  match msg2 with
  | note_off n v t => if n =? note then Some (n, v, t) else None
  | note_on n v t => if (v =? 0) && (n =? note) then Some (n, v, t) else None
  | set_tempo _ _ => None
  | other_message _ _ => None
  end.

(** The look-ahead loop with its [break]. *)
Fixpoint look_ahead (note : Z) (rest : list Message) : option Note :=
  match rest with
  | [] => None
  | msg2 :: rest' =>
      match matching_off note msg2 with
      | Some off => Some off
      | None => look_ahead note rest'
      end
  end.

(** The body of the loop over [enumerate(track)]. *)
Definition extract_step (default_off_time : Z) (track : list Message)
    (pairs : list NotePair) (i_msg : Z * Message) : list NotePair :=
  let '(i, msg) := i_msg in
  match msg with
  | note_on note velocity time =>
      if velocity >? 0 then
        let on := (note, velocity, time) in
        let off :=
          match look_ahead note (Py.slice track (Some (i + 1)) None) with
          | Some off => off
          | None => (note, 0, default_off_time)
          end in
        pairs ++ [(on, off)]
      else pairs
  | note_off _ _ _ => pairs
  | set_tempo _ _ => pairs
  | other_message _ _ => pairs
  end.

Definition extract_track (default_off_time : Z) (pairs : list NotePair)
    (track : list Message) : list NotePair :=
  fold_left (extract_step default_off_time track) (Py.enumerate track) pairs.

(** [extract_notes(midi_file_path, default_off_time=480)], on the file
    already read; [None] is the omitted keyword argument. *)
Definition extract_notes (mid : MidiFile) (default_off_time : option Z)
  : list NotePair :=
  let default_off_time :=
    match default_off_time with Some t => t | None => 480 end in
  fold_left (extract_track default_off_time) (tracks mid) [].

(* ===================================================================== *)
(** * [save_melody] *)
(* ===================================================================== *)

Definition is_set_tempo (msg : Message) : bool :=
  match msg with
  | set_tempo _ _ => true
  | _ => false
  end.

(** The [for ... else] over [original_midi.tracks[0]]: the tempo message
    appended to the new track. *)
Definition tempo_message (track0 : list Message) : Message :=
  match find is_set_tempo track0 with
  | Some msg => copy_with_time msg 0
  | None => set_tempo (bpm2tempo 120) 0
  end.

(** [msg.type] *)
Definition type_of (msg : Message) : string :=
  match msg with
  | note_on _ _ _ => "note_on"
  | note_off _ _ _ => "note_off"
  | set_tempo _ _ => "set_tempo"
  | other_message ty _ => ty
  end.

(** [msg.time] *)
Definition time_of (msg : Message) : Z :=
  match msg with
  | note_on _ _ t => t
  | note_off _ _ t => t
  | set_tempo _ t => t
  | other_message _ t => t
  end.

(** The library's check of a data byte (a note or a velocity) when a
    message is built. *)
Definition check_data_byte (value : Z) : outcome unit :=
  if (0 <=? value) && (value <=? 127) then Ok tt
  else Raise (ValueError "data byte must be in range 0..127").

(** [Message("note_on", note=note, velocity=velocity, time=time)] *)
Definition new_note_on (note velocity time : Z) : outcome Message :=
  and_then (check_data_byte note) (fun _ =>
  and_then (check_data_byte velocity) (fun _ =>
  Ok (note_on note velocity time))).

(** [Message("note_off", note=note, velocity=velocity, time=time)] *)
Definition new_note_off (note velocity time : Z) : outcome Message :=
  and_then (check_data_byte note) (fun _ =>
  and_then (check_data_byte velocity) (fun _ =>
  Ok (note_off note velocity time))).

(** The body of the loop over [pairs]. *)
Definition save_step (track : list Message) (pair : NotePair)
  : outcome (list Message) :=
  let '((note, vel_on, delta_on), (_, vel_off, delta_off)) := pair in
  and_then (new_note_on note vel_on delta_on) (fun on =>
  let track := track ++ [on] in
  and_then (new_note_off note vel_off delta_off) (fun off =>
  Ok (track ++ [off]))).

(** The loop over [pairs]; it stops at the first message that cannot be
    built. *)
Fixpoint save_loop (pairs : list NotePair) (track : list Message)
  : outcome (list Message) :=
  match pairs with
  | [] => Ok track
  | p :: pairs' => and_then (save_step track p) (save_loop pairs')
  end.

(** Lines 139 to 169 of [save_melody]: the object [mid_out] as line 172
    hands it to [save]. *)
Definition save_melody_mid_out (pairs : list NotePair) (original_midi : MidiFile)
  : outcome MidiFile :=
  match Py.index (tracks original_midi) 0 with
  | None => Raise IndexError
  | Some track0 =>
      let track := [tempo_message track0] in
      and_then (save_loop pairs track) (fun track =>
      Ok {| ticks_per_beat := ticks_per_beat original_midi;
            tracks := [track] |})
  end.

(** The meta message that closes a track. *)
Definition end_of_track (time : Z) : Message :=
  other_message "end_of_track" time.

Definition is_end_of_track (msg : Message) : bool :=
  String.eqb (type_of msg) "end_of_track".

(** The library's [fix_end_of_track]: the end-of-track messages inside
    the track are dropped, their time carried over to the next message,
    and one end-of-track message closes the track. *)
Fixpoint fix_end_of_track (accum : Z) (messages : list Message)
  : list Message :=
  match messages with
  | [] => [end_of_track accum]
  | msg :: messages' =>
      if is_end_of_track msg then
        fix_end_of_track (accum + time_of msg) messages'
      else if accum =? 0 then msg :: fix_end_of_track 0 messages'
      else copy_with_time msg (accum + time_of msg)
             :: fix_end_of_track 0 messages'
  end.

(** The library's [write_track]: the messages of the track as written,
    none with a negative time. *)
Definition write_track (track : list Message) : outcome (list Message) :=
  let messages := fix_end_of_track 0 track in
  if forallb (fun msg => 0 <=? time_of msg) messages then Ok messages
  else Raise (ValueError "message time must be non-negative in MIDI file").

Fixpoint write_tracks (ts : list (list Message))
  : outcome (list (list Message)) :=
  match ts with
  | [] => Ok []
  | track :: ts' =>
      and_then (write_track track) (fun written =>
      and_then (write_tracks ts') (fun rest => Ok (written :: rest)))
  end.

(** [mid.save(path)]: the value is the content of the file written, as
    the library reads it back. The header packs the ticks per beat in a
    signed 16-bit field. *)
Definition MidiFile_save (mid : MidiFile) : outcome MidiFile :=
  if (-32768 <=? ticks_per_beat mid) && (ticks_per_beat mid <=? 32767) then
    and_then (write_tracks (tracks mid)) (fun ts =>
    Ok {| ticks_per_beat := ticks_per_beat mid; tracks := ts |})
  else Raise struct_error.

(** [save_melody(pairs, original_midi, output_path)]: the value is the
    content of the file written to [output_path]. *)
Definition save_melody (pairs : list NotePair) (original_midi : MidiFile)
  : outcome MidiFile :=
  and_then (save_melody_mid_out pairs original_midi) MidiFile_save.

(* ===================================================================== *)
(** * [main] *)
(* ===================================================================== *)

(** [mc = MarkovChain(order=order)]: the object of the world is the new
    chain. *)
Definition construct (order : Z) : M unit :=
  fun w => (Ok tt, {| self := new_MarkovChain order; rng := rng w |}).

(** A call of a function that does not touch the chain. *)
Definition call {A} (o : outcome A) : M A := fun w => (o, w).

(** [main()], on the content of the input file; the value is the file
    written under the generated name. The messages printed are left
    out. *)
Definition main (input_midi : MidiFile) : M MidiFile :=
  let generated_notes_length := 100 in
  let chain_order := 2 in
  let original := input_midi in
  let training_notes := extract_notes input_midi None in
  construct chain_order ;;;
  train training_notes ;;;
  generated_notes <- generate generated_notes_length ;;
  call (save_melody generated_notes original).

(* ===================================================================== *)
(** * Notions of the specification *)
(* ===================================================================== *)

(** A world made of a chain of the given order and table, and a tape. *)
Definition world (order : Z) (m : Model) (r : Rng) : World :=
  {| self := {| order := order; model := m |}; rng := r |}.

(** Every draw lies in the half-open unit interval. *)
Definition tape_ok (r : Rng) : Prop :=
  forall n : nat, (0 <= r n)%Q /\ (r n < 1)%Q.

(** The count recorded for successor [x] after context [ctx]; 0 when the
    pair is absent. *)
Definition succ_count (m : Model) (ctx : Ctx) (x : NotePair) : Z :=
  match Py.get Ctx_eq_dec m ctx with
  | Some c => counter_get c x
  | None => 0
  end.

(** The table holds a successor entry for [x] under [ctx]. *)
Definition has_entry (m : Model) (ctx : Ctx) (x : NotePair) : Prop :=
  exists c, Py.get Ctx_eq_dec m ctx = Some c /\ In x (Py.keys c).

(** Window starts [0 .. len(s) - order). *)
Definition window_starts (order : Z) (s : list NotePair) : list nat :=
  seq 0 (List.length s - Z.to_nat order).

(** [s[i .. i+order)] *)
Definition window_context (order : Z) (s : list NotePair) (i : nat) : Ctx :=
  firstn (Z.to_nat order) (skipn i s).

(** [s[i+order]] *)
Definition window_successor (order : Z) (s : list NotePair) (i : nat)
  : option NotePair :=
  nth_error s (i + Z.to_nat order).

(** The window starting at [i] is [(ctx, x)]. *)
Definition is_window (order : Z) (s : list NotePair) (ctx : Ctx) (x : NotePair)
    (i : nat) : bool :=
  if Ctx_eq_dec (window_context order s i) ctx then
    match window_successor order s i with
    | Some y => if NotePair_eq_dec y x then true else false
    | None => false
    end
  else false.

(** Number of window starts of [s] whose window is [(ctx, x)]. *)
Definition occurrences (order : Z) (s : list NotePair) (ctx : Ctx)
    (x : NotePair) : Z :=
  Z.of_nat (List.length (filter (is_window order s ctx x) (window_starts order s))).

(** The contexts of the windows of [s]. *)
Definition window_contexts (order : Z) (s : list NotePair) : list Ctx :=
  map (window_context order s) (window_starts order s).

(** The final [order]-length suffix of [s]. *)
Definition tail_context (order : Z) (s : list NotePair) : Ctx :=
  skipn (List.length s - Z.to_nat order) s.

(** The trailing [order] elements of an output. *)
Definition trailing (order : Z) (result : list NotePair) : Ctx :=
  skipn (List.length result - Z.to_nat order) result.

(** The shape of a transition table of the data model: every key is a
    tuple of [order] pairs and every recorded count is positive. *)
Definition counter_ok (c : Counter) : Prop :=
  Forall (fun e : NotePair * Z => 0 < snd e) c.

Definition wf_model (order : Z) (m : Model) : Prop :=
  Forall (fun e : Ctx * Counter =>
            Py.len (fst e) = order /\ counter_ok (snd e)) m.

(** Tables reached from a fresh chain by successful [train] calls, with
    the sequences trained on, oldest first. *)
Inductive trained (order : Z) : list (list NotePair) -> Model -> Prop :=
| trained_fresh : trained order [] []
| trained_train (ss : list (list NotePair)) (m m' : Model)
    (s : list NotePair) (r r' : Rng) :
    trained order ss m ->
    train s (world order m r) = (Ok tt, world order m' r') ->
    trained order (ss ++ [s]) m'.

(** Sum of the first [i] counts of a [Counter]. *)
Definition partial_count (c : Counter) (i : nat) : Z :=
  Py.sum (map snd (firstn i c)).

(** Draw [u] selects index [i] of [l] uniformly: [u] lies in the [i]-th of
    [len l] equal parts of the unit interval. *)
Definition uniform_selects {A} (l : list A) (u : Q) (i : nat) : Prop :=
  (i < List.length l)%nat /\
  (inject_Z (Z.of_nat i) <= u * inject_Z (Py.len l))%Q /\
  (u * inject_Z (Py.len l) < inject_Z (Z.of_nat i + 1))%Q.

(** Draw [u] selects index [i] of the items of [c] in proportion to the
    counts: scaled by the total count, [u] lies in the part of width
    [count i] that follows the first [i] counts. *)
Definition proportional_selects (c : Counter) (u : Q) (i : nat) : Prop :=
  (i < List.length c)%nat /\
  (inject_Z (partial_count c i)
     <= u * inject_Z (partial_count c (List.length c)))%Q /\
  (u * inject_Z (partial_count c (List.length c))
     < inject_Z (partial_count c (S i)))%Q.






(** The slack that the roundings of binary64 leave around the parts of
    the unit interval: a bound on what the roundings of the weights, of
    their running sums and of the scaled draw can move, three times the
    number of recorded successors plus six, in units of [2 ^ -53]. *)
Definition rounding_slack (c : Counter) : Q :=
  (inject_Z (3 * Py.len c + 6) * Binary64.pow2 (-53))%Q.


(** Draw [u] lies in the part of index [i] and no nearer than the slack
    to its ends. *)
Definition surely_selects (c : Counter) (u : Q) (i : nat) : Prop :=
  (i < List.length c)%nat /\
  (inject_Z (partial_count c i)
     <= (u - rounding_slack c) * inject_Z (partial_count c (List.length c)))%Q /\
  ((u + rounding_slack c) * inject_Z (partial_count c (List.length c))
     < inject_Z (partial_count c (S i)))%Q.

(** The error kinds of the specification, read on the code: each is the
    [ValueError] of one [raise] statement. *)
Definition InsufficientDataError (order length : Z) : exn :=
  train_error order length.

Definition EmptyModelError : exn := empty_model_error.

Definition InsufficientLengthError (length order : Z) : exn :=
  generate_length_error length order.

(** The decimal rendering of [n] occurs in the message of [e]. *)
Definition names (e : exn) (n : Z) : bool :=
  match e with
  | ValueError msg =>
      match String.index 0 (Py.str n) msg with
      | Some _ => true
      | None => false
      end
  | IndexError => false
  | ZeroDivisionError => false
  | OverflowError => false
  | struct_error => false
  end.

(** The invariant of a [NotePair]: both members have the same pitch. *)
Definition pair_ok (p : NotePair) : Prop :=
  fst (fst (fst p)) = fst (fst (snd p)).

(** A pair expanded to its begin event and its end event. *)
Definition expand (p : NotePair) : list Message :=
  let '((p_on, v_on, t_on), (p_off, v_off, t_off)) := p in
  [note_on p_on v_on t_on; note_off p_off v_off t_off].

(** The tempo directive of a track: [set_tempo tempo t] stands in the
    track and no tempo directive stands before it. *)
Definition first_tempo (track0 : list Message) (tempo t : Z) : Prop :=
  exists before after : list Message,
    track0 = before ++ set_tempo tempo t :: after /\
    forall tempo' t', ~ In (set_tempo tempo' t') before.

(** The track holds no tempo directive. *)
Definition no_tempo (track0 : list Message) : Prop :=
  forall tempo t, ~ In (set_tempo tempo t) track0.

(** The ranges of a timed event: pitch and velocity from 0 to 127, a
    delta-time that is not negative. *)
Definition data_byte (v : Z) : Prop := 0 <= v <= 127.

Definition valid_note (n : Note) : Prop :=
  data_byte (fst (fst n)) /\ data_byte (snd (fst n)) /\ 0 <= snd n.

Definition valid_pair (p : NotePair) : Prop :=
  valid_note (fst p) /\ valid_note (snd p).

(** A message as a file holds it: the fields of a note in range, no
    negative delta-time. *)
Definition valid_message (msg : Message) : Prop :=
  match msg with
  | note_on n v t => valid_note (n, v, t)
  | note_off n v t => valid_note (n, v, t)
  | set_tempo _ t => 0 <= t
  | other_message _ t => 0 <= t
  end.

(** The ticks per beat fit the 16-bit field of a file header. *)
Definition valid_ticks (mid : MidiFile) : Prop :=
  -32768 <= ticks_per_beat mid <= 32767.

(** A file as the library reads it. *)
Definition valid_file (mid : MidiFile) : Prop :=
  valid_ticks mid /\ Forall (Forall valid_message) (tracks mid).

(** The fields of a tuple that the serializer hands to the library as
    data bytes, and those it hands over as delta-times; the pitch of the
    end member is among neither. *)
Definition bytes_ok (p : NotePair) : Prop :=
  data_byte (fst (fst (fst p))) /\ data_byte (snd (fst (fst p))) /\
  data_byte (snd (fst (snd p))).

Definition times_ok (p : NotePair) : Prop :=
  0 <= snd (fst p) /\ 0 <= snd (snd p).

(** A begin-kind event with positive velocity. *)
Definition is_begin (e : Message) : bool :=
  match e with
  | note_on _ v _ => 0 <? v
  | _ => false
  end.

(** An end for pitch [p]: an explicit end, or a begin with velocity 0. *)
Definition is_end_for (p : Z) (e : Message) : bool :=
  match e with
  | note_off n _ _ => n =? p
  | note_on n v _ => (v =? 0) && (n =? p)
  | _ => false
  end.

(** The stored fields of a note event. *)
Definition fields (e : Message) : Note :=
  match e with
  | note_on n v t => (n, v, t)
  | note_off n v t => (n, v, t)
  | set_tempo _ t => (0, 0, t)
  | other_message _ t => (0, 0, t)
  end.

(** The end paired with a begin of pitch [p] followed by [later]. *)
Definition paired_end (default_off_time : Z) (p : Z) (later : list Message)
  : Note :=
  match find (is_end_for p) later with
  | Some e => fields e
  | None => (p, 0, default_off_time)
  end.

(** The pairer as the specification words it. *)
Fixpoint pair_events (default_off_time : Z) (events : list Message)
  : list NotePair :=
  match events with
  | [] => []
  | e :: later =>
      if is_begin e then
        (fields e, paired_end default_off_time (fst (fst (fields e))) later)
          :: pair_events default_off_time later
      else pair_events default_off_time later
  end.





(** Hoare-style readings of a computation at a world: it returns and the
    result satisfies [Q]; or, if it returns, the result satisfies [Q]. *)
Definition returns {A} (m : M A) (w : World) (Q : A -> World -> Prop) : Prop :=
  exists a w', m w = (Ok a, w') /\ Q a w'.

Definition ensures {A} (m : M A) (w : World) (Q : A -> World -> Prop) : Prop :=
  forall a w', m w = (Ok a, w') -> Q a w'.

(** One counted transition, as a function on tables: the effect of
    [self.model[ctx][x] += 1]. *)
Definition add_transition (m : Model) (ctx : Ctx) (x : NotePair) : Model :=
  let c := match Py.get Ctx_eq_dec m ctx with Some c => c | None => [] end in
  Py.set Ctx_eq_dec m ctx (Py.set NotePair_eq_dec c x (counter_get c x + 1)).

(** The window-counting loop of [train], as a function on tables. *)
Definition count_window (order : Z) (s : list NotePair) (m : Model) (i : nat)
  : Model :=
  match window_successor order s i with
  | Some x => add_transition m (window_context order s i) x
  | None => m
  end.

Definition count_windows (order : Z) (s : list NotePair) (m : Model) : Model :=
  fold_left (count_window order s) (window_starts order s) m.

(** The table after a successful [train], as a function. *)
Definition train_model (order : Z) (s : list NotePair) (m : Model) : Model :=
  Py.setdefault Ctx_eq_dec (count_windows order s m)
    (Py.slice s (Some (- order)) None) [].

(** A computation that leaves the [MarkovChain] object as it found it,
    whether it returns or raises. *)
Definition frames_self {A} (m : M A) : Prop :=
  forall w, self (snd (m w)) = self w.

(** Every pair held by the table, in a key or as a successor, belongs to
    the data [D]. *)
Definition model_within (D : list NotePair) (m : Model) : Prop :=
  forall (k : Ctx) (c : Counter),
    In (k, c) m ->
    (forall x, In x k -> In x D) /\ (forall x n, In (x, n) c -> In x D).

(** The weight handed to the weighted choice for a count [k] out of a
    total [T]. *)
Definition weight_of (T k : Z) : Q := (inject_Z k / inject_Z T)%Q.

(** Sample data for the worked examples. *)
Definition sample_a : NotePair := ((60, 100, 0), (60, 0, 10)).
Definition sample_b : NotePair := ((64, 90, 5), (64, 0, 15)).
Definition sample_c : NotePair := ((67, 80, 5), (67, 0, 15)).

Definition sample_sequence : list NotePair :=
  [sample_a; sample_b; sample_a; sample_c].

(** A table in which [sample_a] has three successors seen once each,
    and the draw at which the running sums of the three weights, rounded,
    part from the exact thirds. *)
Definition thirds_sequence : list NotePair :=
  [sample_a; sample_a; sample_b; sample_a; sample_c].


Definition thirds_tape : Rng :=
  fun _ => (6004799503160661 # 9007199254740992)%Q.

Definition sample_tape : Rng :=
  fun n => if Nat.even n then (1 # 4)%Q else (3 # 4)%Q.

(** The table of a fresh chain of order 1 trained on the sample. *)
Definition sample_model : Model := train_model 1 sample_sequence [].

Definition thirds_model : Model := train_model 1 thirds_sequence [].




Definition sample_original : MidiFile :=
  {| ticks_per_beat := 96;
     tracks := [[other_message "track_name" 0; set_tempo 400000 12];
                [note_on 60 100 0]] |}.

(* --------------------------------------------------------------------- *)
(** ** Further notions *)

(** A context at which generation finds no successor: absent from the
    table, or present with an empty [Counter]. *)
Definition dead_end (m : Model) (ctx : Ctx) : Prop :=
  Py.get Ctx_eq_dec m ctx = None \/ Py.get Ctx_eq_dec m ctx = Some [].

(** Every element of [result] past the first [order] is a recorded
    successor of the [order] elements before it, unless these form a
    dead end. *)
Definition follows_table (order : Z) (m : Model) (result : list NotePair)
  : Prop :=
  forall (j : nat) (x : NotePair),
    (Z.to_nat order <= j)%nat -> nth_error result j = Some x ->
    0 < succ_count m (window_context order result (j - Z.to_nat order)) x
    \/ dead_end m (window_context order result (j - Z.to_nat order)).

(** A note message, of either kind. *)
Definition is_note (msg : Message) : bool :=
  match msg with
  | note_on _ _ _ => true
  | note_off _ _ _ => true
  | set_tempo _ _ => false
  | other_message _ _ => false
  end.

(** The velocity of the begin member of a pair. *)
Definition begin_velocity (p : NotePair) : Z := snd (fst (fst p)).

(** The two events that the serializer writes for one tuple, whatever its
    members. *)
Definition written (p : NotePair) : list Message :=
  [note_on (fst (fst (fst p))) (snd (fst (fst p))) (snd (fst p));
   note_off (fst (fst (fst p))) (snd (fst (snd p))) (snd (snd p))].

(** The begin events of a file, over all its tracks. *)
Definition begins (mid : MidiFile) : list Message :=
  flat_map (filter is_begin) (tracks mid).

(** A sample input file: a tempo change and three notes. *)
Definition sample_input : MidiFile :=
  {| ticks_per_beat := 96;
     tracks := [[set_tempo 400000 0;
                 note_on 60 100 0; note_off 60 0 10;
                 note_on 64 90 5; note_off 64 0 15;
                 note_on 67 80 5; note_off 67 0 15]] |}.

(** A computation that leaves the random source and the order of the
    chain as it found them, whether it returns or raises. *)
Definition keeps_random {A} (m : M A) : Prop :=
  forall w, rng (snd (m w)) = rng w /\ order (self (snd (m w))) = order (self w).

(* ===================================================================== *)
(** * Python lists and dictionaries *)
(* ===================================================================== *)

Section PyListFacts.
Context {A : Type}.
Implicit Types (l : list A) (i : Z).

Lemma len_nonneg l : 0 <= Py.len l.
Proof. unfold Py.len. lia. Qed.

Lemma len_app l l' : Py.len (l ++ l') = Py.len l + Py.len l'.
Proof. unfold Py.len. rewrite length_app. lia. Qed.

Lemma len_zero_nil l : Py.len l = 0 -> l = [].
Proof. destruct l; [reflexivity | unfold Py.len; simpl; lia]. Qed.

Lemma index_nonneg l i :
  0 <= i -> Py.index l i = nth_error l (Z.to_nat i).
Proof.
  intros Hi. unfold Py.index.
  destruct (0 <=? i) eqn:E0; [ | lia ].
  destruct (i <? Py.len l) eqn:E1; simpl; [ reflexivity | ].
  destruct (i <? 0) eqn:E2; [ lia | ].
  rewrite andb_false_r. symmetry. apply nth_error_None.
  unfold Py.len in E1. lia.
Qed.

Lemma index_In l i x : Py.index l i = Some x -> In x l.
Proof.
  unfold Py.index.
  destruct (_ && _); [ apply nth_error_In | ].
  destruct (_ && _); [ apply nth_error_In | discriminate ].
Qed.

Lemma firstn_incl n l x : In x (firstn n l) -> In x l.
Proof.
  intros H. rewrite <- (firstn_skipn n l). apply in_or_app. now left.
Qed.

Lemma skipn_incl n l x : In x (skipn n l) -> In x l.
Proof.
  intros H. rewrite <- (firstn_skipn n l). apply in_or_app. now right.
Qed.

Lemma slice_incl l start stop x : In x (Py.slice l start stop) -> In x l.
Proof.
  unfold Py.slice. intros H.
  apply firstn_incl in H. now apply skipn_incl in H.
Qed.

Lemma firstn_min_length n l :
  firstn (Nat.min n (List.length l)) l = firstn n l.
Proof.
  destruct (Nat.le_ge_cases n (List.length l)) as [H | H].
  - now rewrite Nat.min_l.
  - rewrite Nat.min_r by assumption.
    now rewrite firstn_all, firstn_all2.
Qed.

(** [l[i:i+n]] for non-negative [i] and [n]. *)
Lemma slice_window l i n :
  0 <= i -> 0 <= n ->
  Py.slice l (Some i) (Some (i + n))
  = firstn (Z.to_nat n) (skipn (Z.to_nat i) l).
Proof.
  intros Hi Hn. unfold Py.slice, Py.clamp.
  destruct (i <? 0) eqn:E1; [ lia | ].
  destruct (i + n <? 0) eqn:E2; [ lia | ].
  pose proof (len_nonneg l) as Hl. unfold Py.len in *.
  destruct (Z.le_gt_cases i (Z.of_nat (List.length l))) as [H | H].
  - rewrite (Z.min_l i) by assumption.
    rewrite <- (firstn_min_length (Z.to_nat n)).
    rewrite length_skipn. f_equal. lia.
  - rewrite (Z.min_r i) by lia.
    rewrite !skipn_all2 by lia. now rewrite !firstn_nil.
Qed.

(** [l[-n:]] for positive [n]. *)
Lemma slice_suffix l n :
  1 <= n ->
  Py.slice l (Some (- n)) None = skipn (List.length l - Z.to_nat n) l.
Proof.
  intros Hn. unfold Py.slice, Py.clamp.
  destruct (- n <? 0) eqn:E1; [ | lia ].
  unfold Py.len.
  replace (Z.to_nat (Z.max (- n + Z.of_nat (List.length l)) 0))
    with (List.length l - Z.to_nat n)%nat by lia.
  apply firstn_all2. rewrite length_skipn. lia.
Qed.

(** [l[-0:]] is the whole list. *)
Lemma slice_suffix_zero l : Py.slice l (Some (- 0)) None = l.
Proof.
  unfold Py.slice, Py.clamp. simpl.
  pose proof (len_nonneg l). rewrite Z.min_l by assumption. simpl.
  rewrite Z.sub_0_r. apply firstn_all2. unfold Py.len. lia.
Qed.

(** [l[i+1:]] for a non-negative [i]. *)
Lemma slice_from l i :
  0 <= i -> Py.slice l (Some i) None = skipn (Z.to_nat i) l.
Proof.
  intros Hi. unfold Py.slice, Py.clamp.
  destruct (i <? 0) eqn:E1; [ lia | ].
  unfold Py.len.
  destruct (Z.le_gt_cases i (Z.of_nat (List.length l))) as [H | H].
  - rewrite Z.min_l by assumption.
    apply firstn_all2. rewrite length_skipn. lia.
  - rewrite Z.min_r by lia. rewrite Z.sub_diag. simpl.
    symmetry. apply skipn_all2. lia.
Qed.

Lemma enumerate_from_app i l l' :
  Py.enumerate_from i (l ++ l')
  = Py.enumerate_from i l ++ Py.enumerate_from (i + Py.len l) l'.
Proof.
  revert i. induction l as [ | x l IH ]; intros i; simpl.
  - unfold Py.len. simpl. now rewrite Z.add_0_r.
  - rewrite IH.
    replace (i + Py.len (x :: l)) with (i + 1 + Py.len l)
      by (unfold Py.len; simpl List.length; lia).
    reflexivity.
Qed.
End PyListFacts.

Lemma map_of_nat_inj (l l' : list nat) :
map Z.of_nat l = map Z.of_nat l' -> l = l'.
Proof.
revert l'. induction l as [ | i l IH ]; intros [ | j l' ]; simpl;
  try discriminate; [ reflexivity | ].
intros [= Hij Hl]. apply Nat2Z.inj in Hij. f_equal; auto.
Qed.

Lemma range_seq n : Py.range (Z.of_nat n) = map Z.of_nat (seq 0 n).
Proof. unfold Py.range. now rewrite Nat2Z.id. Qed.

Lemma sum_from (l : list Z) (a : Z) : fold_left Z.add l a = a + Py.sum l.
Proof.
unfold Py.sum. revert a. induction l as [ | x l IH ]; intros a; simpl.
- lia.
- rewrite IH, (IH x). lia.
Qed.

Lemma sum_cons (x : Z) (l : list Z) : Py.sum (x :: l) = x + Py.sum l.
Proof. unfold Py.sum at 1. simpl. now rewrite sum_from. Qed.

Lemma sum_app (l l' : list Z) : Py.sum (l ++ l') = Py.sum l + Py.sum l'.
Proof.
induction l as [ | x l IH ]; simpl.
- reflexivity.
- rewrite !sum_cons, IH. lia.
Qed.

Section DictFacts.
Context {K V : Type}.
Variable eq_dec : forall a b : K, {a = b} + {a <> b}.
Implicit Types (d : list (K * V)) (k : K) (v : V).

Lemma get_set_same d k v : Py.get eq_dec (Py.set eq_dec d k v) k = Some v.
Proof.
  induction d as [ | [k' v'] d IH ]; simpl.
  - now destruct (eq_dec k k).
  - destruct (eq_dec k k') as [E | E]; simpl.
    + now destruct (eq_dec k k').
    + now destruct (eq_dec k k').
Qed.

Lemma get_set_other d k k' v :
  k' <> k -> Py.get eq_dec (Py.set eq_dec d k v) k' = Py.get eq_dec d k'.
Proof.
  intros Hne. induction d as [ | [k0 v0] d IH ]; simpl.
  - destruct (eq_dec k' k); [ contradiction | reflexivity ].
  - destruct (eq_dec k k0) as [E | E]; simpl.
    + subst k0. destruct (eq_dec k' k); [ contradiction | reflexivity ].
    + destruct (eq_dec k' k0); [ reflexivity | exact IH ].
Qed.

Lemma set_set d k v v' :
  Py.set eq_dec (Py.set eq_dec d k v) k v' = Py.set eq_dec d k v'.
Proof.
  induction d as [ | [k0 v0] d IH ]; simpl.
  - now destruct (eq_dec k k).
  - destruct (eq_dec k k0) as [E | E]; simpl.
    + now destruct (eq_dec k k0).
    + destruct (eq_dec k k0); [ contradiction | now rewrite IH ].
Qed.

Lemma get_Some_In d k v : Py.get eq_dec d k = Some v -> In (k, v) d.
Proof.
  induction d as [ | [k0 v0] d IH ]; simpl; [ discriminate | ].
  destruct (eq_dec k k0) as [E | E].
  - intros [= ->]. subst. now left.
  - intros H. right. now apply IH.
Qed.

Lemma get_None_keys d k : Py.get eq_dec d k = None <-> ~ In k (Py.keys d).
Proof.
  induction d as [ | [k0 v0] d IH ]; simpl.
  - tauto.
  - destruct (eq_dec k k0) as [E | E].
    + split; [ discriminate | intros H; exfalso; apply H; left; congruence ].
    + rewrite IH. intuition congruence.
Qed.

Lemma get_Some_keys d k :
  (exists v, Py.get eq_dec d k = Some v) <-> In k (Py.keys d).
Proof.
  destruct (Py.get eq_dec d k) as [v | ] eqn:E.
  - split; [ intros _ | intros _; now exists v ].
    apply get_Some_In in E. unfold Py.keys.
    change k with (fst (k, v)). now apply in_map.
  - apply get_None_keys in E. split; [ intros [v Hv]; discriminate | tauto ].
Qed.

(** Entries after [d[k] = v]: those of [d], or the new one. *)
Lemma In_set d k v e :
  In e (Py.set eq_dec d k v) -> In e d \/ e = (k, v).
Proof.
  induction d as [ | [k0 v0] d IH ]; simpl.
  - intros [H | []]. now right.
  - destruct (eq_dec k k0) as [E | E]; simpl.
    + intros [H | H]; [ right; congruence | left; now right ].
    + intros [H | H]; [ left; now left | ].
      destruct (IH H); [ left; now right | now right ].
Qed.

Lemma keys_set d k v :
  forall k', In k' (Py.keys (Py.set eq_dec d k v)) <-> In k' (Py.keys d) \/ k' = k.
Proof.
  intros k'. rewrite <- !get_Some_keys.
  destruct (eq_dec k' k) as [E | E].
  - subst. rewrite get_set_same. split; [ now right | now exists v ].
  - rewrite get_set_other by assumption. intuition.
Qed.
End DictFacts.

(* ===================================================================== *)
(** * Reasoning rules for the monad *)
(* ===================================================================== *)

Section Rules.
Context {A B : Type}.

Lemma returns_ret (a : A) w (Q : A -> World -> Prop) :
  Q a w -> returns (ret a) w Q.
Proof. intros H. now exists a, w. Qed.

Lemma returns_bind (m : M A) (k : A -> M B) w (Q : B -> World -> Prop) :
  returns m w (fun a w' => returns (k a) w' Q) -> returns (bind m k) w Q.
Proof.
  intros (a & w' & Hm & b & w'' & Hk & HQ).
  exists b, w''. unfold bind. now rewrite Hm.
Qed.

Lemma returns_weaken (m : M A) w (Q Q' : A -> World -> Prop) :
  returns m w Q -> (forall a w', Q a w' -> Q' a w') -> returns m w Q'.
Proof. intros (a & w' & Hm & HQ) H. exists a, w'. auto. Qed.

Lemma returns_or_IndexError (o : option A) (a : A) w (Q : A -> World -> Prop) :
  o = Some a -> Q a w -> returns (or_IndexError o) w Q.
Proof. intros -> H. now exists a, w. Qed.

Lemma ensures_ret (a : A) w (Q : A -> World -> Prop) :
  Q a w -> ensures (ret a) w Q.
Proof. intros H a' w' [= <- <-]. exact H. Qed.

Lemma ensures_raise (e : exn) w (Q : A -> World -> Prop) :
  ensures (raise e) w Q.
Proof. intros a' w' [=]. Qed.

Lemma ensures_bind (m : M A) (k : A -> M B) w (Q : B -> World -> Prop) :
  ensures m w (fun a w' => ensures (k a) w' Q) -> ensures (bind m k) w Q.
Proof.
  intros H b w''. unfold bind.
  destruct (m w) as [[a | e] w'] eqn:Hm; [ | discriminate ].
  intros Hk. exact (H a w' Hm b w'' Hk).
Qed.

Lemma ensures_weaken (m : M A) w (Q Q' : A -> World -> Prop) :
  ensures m w Q -> (forall a w', Q a w' -> Q' a w') -> ensures m w Q'.
Proof. intros H HQ a w' Hm. auto. Qed.

Lemma ensures_or_IndexError (o : option A) w (Q : A -> World -> Prop) :
  (forall a, o = Some a -> Q a w) -> ensures (or_IndexError o) w Q.
Proof.
  intros H a w'. destruct o as [a0 | ]; simpl; [ | discriminate ].
  intros [= <- <-]. now apply H.
Qed.

Lemma returns_ensures (m : M A) w (Q Q' : A -> World -> Prop) :
  returns m w Q -> ensures m w Q' -> returns m w (fun a w' => Q a w' /\ Q' a w').
Proof. intros (a & w' & Hm & HQ) H. exists a, w'. auto. Qed.
End Rules.

Lemma returns_get_order w (Q : Z -> World -> Prop) :
  Q (order (self w)) w -> returns get_order w Q.
Proof. intros H. now exists (order (self w)), w. Qed.

Lemma returns_get_model w (Q : Model -> World -> Prop) :
  Q (model (self w)) w -> returns get_model w Q.
Proof. intros H. now exists (model (self w)), w. Qed.

Lemma returns_put_model m w (Q : unit -> World -> Prop) :
  Q tt (world (order (self w)) m (rng w)) -> returns (put_model m) w Q.
Proof. intros H. now exists tt, (world (order (self w)) m (rng w)). Qed.

Lemma returns_random w (Q : Q -> World -> Prop) :
  Q (rng w 0%nat) {| self := self w; rng := shift (rng w) |} ->
  returns random w Q.
Proof. intros H. eexists _, _. split; [ reflexivity | exact H ]. Qed.

Lemma ensures_get_order w (Q : Z -> World -> Prop) :
  Q (order (self w)) w -> ensures get_order w Q.
Proof. intros H a w' [= <- <-]. exact H. Qed.

Lemma ensures_get_model w (Q : Model -> World -> Prop) :
  Q (model (self w)) w -> ensures get_model w Q.
Proof. intros H a w' [= <- <-]. exact H. Qed.

Lemma ensures_put_model m w (Q : unit -> World -> Prop) :
  Q tt (world (order (self w)) m (rng w)) -> ensures (put_model m) w Q.
Proof. intros H a w' [= <- <-]. exact H. Qed.

Lemma ensures_random w (Q : Q -> World -> Prop) :
  Q (rng w 0%nat) {| self := self w; rng := shift (rng w) |} ->
  ensures random w Q.
Proof. intros H a w' [= <- <-]. exact H. Qed.

(** Loop rules: an invariant over the part of the list already visited. *)
Section Loops.
Context {A B : Type}.
Variable body : B -> A -> M B.
Variable Inv : list A -> B -> World -> Prop.

Lemma for_each_returns_from (visited l : list A) acc w :
  Inv visited acc w ->
  (forall done x acc w,
      (exists rest, visited ++ l = done ++ x :: rest) ->
      Inv done acc w ->
      returns (body acc x) w (fun acc' w' => Inv (done ++ [x]) acc' w')) ->
  returns (for_each l body acc) w (fun acc' w' => Inv (visited ++ l) acc' w').
Proof.
  revert visited acc w. induction l as [ | x l IH ]; intros visited acc w H0 Hstep.
  - rewrite app_nil_r. now apply returns_ret.
  - simpl. apply returns_bind.
    eapply returns_weaken; [ apply Hstep; [ now exists l | exact H0 ] | ].
    intros acc' w' H1. simpl in H1.
    replace (visited ++ x :: l) with ((visited ++ [x]) ++ l)
      by (now rewrite <- app_assoc).
    apply IH; [ exact H1 | ].
    intros done y acc0 w0 [rest Hrest]. apply Hstep.
    exists rest. now rewrite <- Hrest, <- app_assoc.
Qed.

Lemma for_each_returns (l : list A) acc w :
  Inv [] acc w ->
  (forall done x acc w,
      (exists rest, l = done ++ x :: rest) ->
      Inv done acc w ->
      returns (body acc x) w (fun acc' w' => Inv (done ++ [x]) acc' w')) ->
  returns (for_each l body acc) w (fun acc' w' => Inv l acc' w').
Proof. intros H0 Hstep. now apply (for_each_returns_from [] l). Qed.

Lemma for_each_ensures_from (visited l : list A) acc w :
  Inv visited acc w ->
  (forall done x acc w,
      Inv done acc w ->
      ensures (body acc x) w (fun acc' w' => Inv (done ++ [x]) acc' w')) ->
  ensures (for_each l body acc) w (fun acc' w' => Inv (visited ++ l) acc' w').
Proof.
  revert visited acc w. induction l as [ | x l IH ]; intros visited acc w H0 Hstep.
  - rewrite app_nil_r. now apply ensures_ret.
  - simpl. apply ensures_bind.
    eapply ensures_weaken; [ apply Hstep; exact H0 | ].
    intros acc' w' H1. simpl in H1.
    replace (visited ++ x :: l) with ((visited ++ [x]) ++ l)
      by (now rewrite <- app_assoc).
    now apply IH.
Qed.

Lemma for_each_ensures (l : list A) acc w :
  Inv [] acc w ->
  (forall done x acc w,
      Inv done acc w ->
      ensures (body acc x) w (fun acc' w' => Inv (done ++ [x]) acc' w')) ->
  ensures (for_each l body acc) w (fun acc' w' => Inv l acc' w').
Proof. intros H0 Hstep. now apply (for_each_ensures_from [] l). Qed.
End Loops.

(** One step through the head of a computation. *)
Ltac step_returns :=
  lazymatch goal with
  | |- returns (bind _ _) _ _ => apply returns_bind
  | |- returns (ret _) _ _ => apply returns_ret
  | |- returns get_order _ _ => apply returns_get_order
  | |- returns get_model _ _ => apply returns_get_model
  | |- returns (put_model _) _ _ => apply returns_put_model
  | |- returns random _ _ => apply returns_random
  end.

Ltac step_ensures :=
  lazymatch goal with
  | |- ensures (bind _ _) _ _ => apply ensures_bind
  | |- ensures (ret _) _ _ => apply ensures_ret
  | |- ensures (raise _) _ _ => apply ensures_raise
  | |- ensures get_order _ _ => apply ensures_get_order
  | |- ensures get_model _ _ => apply ensures_get_model
  | |- ensures (put_model _) _ _ => apply ensures_put_model
  | |- ensures random _ _ => apply ensures_random
  end.

(* ===================================================================== *)
(** * [train]: the table it builds *)
(* ===================================================================== *)

Lemma model_increment_returns ctx x w (Q : unit -> World -> Prop) :
  Q tt (world (order (self w)) (add_transition (model (self w)) ctx x) (rng w)) ->
  returns (model_increment ctx x) w Q.
Proof.
  intros H. unfold model_increment, model_getitem, add_transition in *.
  destruct w as [[o m] r]. simpl in *.
  repeat step_returns. simpl.
  destruct (Py.get Ctx_eq_dec m ctx) as [c | ] eqn:E.
  - repeat step_returns. simpl. exact H.
  - repeat step_returns. simpl. unfold world. simpl.
    rewrite set_set. exact H.
Qed.

Lemma window_starts_bound order s i :
  In i (window_starts order s) -> (i + Z.to_nat order < List.length s)%nat.
Proof. unfold window_starts. rewrite in_seq. lia. Qed.

(** The loop of [train] runs to its end and counts every window. *)
Lemma train_loop_returns order s m r :
  0 <= order ->
  returns
    (for_each (Py.range (Py.len s - order))
       (fun _ i =>
          o <- get_order ;;
          let current_state := Py.slice s (Some i) (Some (i + o)) in
          o' <- get_order ;;
          next_state <- or_IndexError (Py.index s (i + o')) ;;
          model_increment current_state next_state) tt)
    (world order m r)
    (fun _ w' => w' = world order (count_windows order s m) r).
Proof.
  intros Horder.
  assert (Hrange : Py.range (Py.len s - order)
                   = map Z.of_nat (window_starts order s)).
  { unfold Py.range, window_starts, Py.len. do 2 f_equal. lia. }
  rewrite Hrange. unfold count_windows.
  generalize (window_starts_bound order s).
  generalize (window_starts order s) as starts. intros starts Hstarts.
  eapply returns_weaken.
  - apply (for_each_returns _
             (fun visited (_ : unit) w' =>
                exists done, visited = map Z.of_nat done /\
                  w' = world order (fold_left (count_window order s) done m) r)).
    + exists []. split; reflexivity.
    + intros visited x [] w [rest Hrest] (done & -> & ->).
      assert (Hx : exists i, x = Z.of_nat i /\ In i starts).
      { assert (Hin : In x (map Z.of_nat starts)).
        { rewrite Hrest. apply in_or_app. right. now left. }
        apply in_map_iff in Hin. destruct Hin as (i & <- & Hi). now exists i. }
      destruct Hx as (i & -> & Hi). apply Hstarts in Hi.
      repeat step_returns. simpl.
      destruct (nth_error s (i + Z.to_nat order)) as [y | ] eqn:Ey;
        [ | apply nth_error_None in Ey; lia ].
      eapply returns_or_IndexError.
      { rewrite index_nonneg by lia. rewrite <- Ey. f_equal. lia. }
      apply model_increment_returns. simpl.
      exists (done ++ [i]). split; [ now rewrite map_app | ].
      rewrite fold_left_app. simpl. unfold count_window at 2.
      unfold window_successor. rewrite Ey.
      rewrite slice_window by lia. rewrite Nat2Z.id. reflexivity.
  - intros [] w' (done & Hdone & ->). simpl.
    apply map_of_nat_inj in Hdone. now subst.
Qed.

(** A successful [train] call and the table it leaves. *)
Lemma train_returns order s m r :
  0 <= order -> order < Py.len s ->
  train s (world order m r) = (Ok tt, world order (train_model order s m) r).
Proof.
  intros Horder Hlen.
  assert (H : returns (train s) (world order m r)
                (fun _ w' => w' = world order (train_model order s m) r)).
  { unfold train. step_returns. step_returns. simpl.
    destruct (Py.len s <=? order) eqn:E; [ lia | ].
    step_returns. step_returns. simpl. step_returns.
    eapply returns_weaken; [ now apply train_loop_returns | ].
    intros [] w' ->. simpl.
    unfold model_setdefault. repeat step_returns. reflexivity. }
  destruct H as ([] & w' & Hrun & ->). exact Hrun.
Qed.

(** A failing [train] call: the error, and the object left as it was. *)
Lemma train_raises order s m r :
  Py.len s <= order ->
  train s (world order m r)
  = (Raise (train_error order (Py.len s)), world order m r).
Proof.
  intros Hlen. unfold train, bind, get_order. simpl.
  destruct (Py.len s <=? order) eqn:E; [ reflexivity | lia ].
Qed.

Lemma counter_get_set (c : Counter) (x : NotePair) (v : Z) (x' : NotePair) :
  counter_get (Py.set NotePair_eq_dec c x v) x'
  = if NotePair_eq_dec x' x then v else counter_get c x'.
Proof.
  unfold counter_get. destruct (NotePair_eq_dec x' x) as [-> | Hne].
  - now rewrite get_set_same.
  - now rewrite get_set_other.
Qed.

Lemma succ_count_add_transition (m : Model) (ctx : Ctx) (x : NotePair)
    (ctx' : Ctx) (x' : NotePair) :
  succ_count (add_transition m ctx x) ctx' x'
  = succ_count m ctx' x'
    + (if Ctx_eq_dec ctx' ctx then if NotePair_eq_dec x' x then 1 else 0 else 0).
Proof.
  unfold succ_count, add_transition.
  destruct (Ctx_eq_dec ctx' ctx) as [-> | Hne].
  - rewrite get_set_same, counter_get_set.
    destruct (Py.get Ctx_eq_dec m ctx) as [c | ];
      destruct (NotePair_eq_dec x' x) as [-> | Hx]; try lia.
    + reflexivity.
    + unfold counter_get. simpl. lia.
  - rewrite get_set_other by assumption. lia.
Qed.

Lemma get_setdefault (m : Model) (k k' : Ctx) :
  Py.get Ctx_eq_dec (Py.setdefault Ctx_eq_dec m k ([] : Counter)) k'
  = match Py.get Ctx_eq_dec m k' with
    | Some c => Some c
    | None => if Ctx_eq_dec k' k then Some [] else None
    end.
Proof.
  unfold Py.setdefault.
  destruct (Py.get Ctx_eq_dec m k) as [c | ] eqn:E.
  - destruct (Py.get Ctx_eq_dec m k') as [c' | ] eqn:E'; [ reflexivity | ].
    destruct (Ctx_eq_dec k' k); [ congruence | reflexivity ].
  - destruct (Ctx_eq_dec k' k) as [-> | Hne].
    + now rewrite get_set_same, E.
    + rewrite get_set_other by assumption.
      now destruct (Py.get Ctx_eq_dec m k').
Qed.

Lemma succ_count_setdefault (m : Model) (k ctx : Ctx) (x : NotePair) :
  succ_count (Py.setdefault Ctx_eq_dec m k []) ctx x = succ_count m ctx x.
Proof.
  unfold succ_count. rewrite get_setdefault.
  destruct (Py.get Ctx_eq_dec m ctx) as [c | ] eqn:E; rewrite ?E;
    [ reflexivity | ].
  now destruct (Ctx_eq_dec ctx k).
Qed.

Lemma succ_count_fold_windows order s starts m ctx x :
  (forall i, In i starts -> (i + Z.to_nat order < List.length s)%nat) ->
  succ_count (fold_left (count_window order s) starts m) ctx x
  = succ_count m ctx x
    + Z.of_nat (List.length (filter (is_window order s ctx x) starts)).
Proof.
  revert m. induction starts as [ | i starts IH ]; intros m Hb; simpl.
  - lia.
  - rewrite IH by (intros; apply Hb; now right).
    assert (Hi : (i + Z.to_nat order < List.length s)%nat) by (apply Hb; now left).
    unfold count_window, is_window, window_successor.
    destruct (nth_error s (i + Z.to_nat order)) as [y | ] eqn:Ey;
      [ | apply nth_error_None in Ey; lia ].
    rewrite succ_count_add_transition.
    destruct (Ctx_eq_dec (window_context order s i) ctx) as [E1 | E1];
      destruct (Ctx_eq_dec ctx (window_context order s i)) as [E2 | E2];
      try congruence; [ | lia ].
    destruct (NotePair_eq_dec y x) as [E3 | E3];
      destruct (NotePair_eq_dec x y) as [E4 | E4];
      try congruence; simpl List.length; lia.
Qed.

Lemma succ_count_train_model order s m ctx x :
  succ_count (train_model order s m) ctx x
  = succ_count m ctx x + occurrences order s ctx x.
Proof.
  unfold train_model, count_windows, occurrences.
  rewrite succ_count_setdefault.
  apply succ_count_fold_windows, window_starts_bound.
Qed.

Lemma succ_count_empty ctx x : succ_count [] ctx x = 0.
Proof. reflexivity. Qed.

(** C2. For every sequence [s] longer than the order, [train s] succeeds
    and raises the count of every pair [(ctx, x)] by the number of window
    starts [i] in [[0, len s - order)] with [s[i:i+order] = ctx] and
    [s[i+order] = x], one per window, a pair absent before starting from
    its first window at 1; a second [train s] adds the same amounts again,
    so that on a fresh chain every count after two calls is exactly twice
    the count after one. *)
Theorem train_counts_windows (order : Z) (s : list NotePair) (m : Model) (r : Rng) :
  0 <= order -> order < Py.len s ->
  exists m1 m2,
    train s (world order m r) = (Ok tt, world order m1 r) /\
    train s (world order m1 r) = (Ok tt, world order m2 r) /\
    (forall ctx x,
        succ_count m1 ctx x = succ_count m ctx x + occurrences order s ctx x) /\
    (forall ctx x,
        succ_count m ctx x = 0 -> occurrences order s ctx x = 1 ->
        succ_count m1 ctx x = 1) /\
    (forall ctx x,
        succ_count m2 ctx x
        = succ_count m ctx x + 2 * occurrences order s ctx x) /\
    (m = [] -> forall ctx x, succ_count m2 ctx x = 2 * succ_count m1 ctx x).
Proof.
  intros Horder Hlen.
  exists (train_model order s m), (train_model order s (train_model order s m)).
  split; [ now apply train_returns | ].
  split; [ now apply train_returns | ].
  split; [ intros; apply succ_count_train_model | ].
  split; [ intros ctx x H0 H1; rewrite succ_count_train_model; lia | ].
  split.
  - intros ctx x. rewrite !succ_count_train_model. lia.
  - intros -> ctx x. rewrite !succ_count_train_model, succ_count_empty. lia.
Qed.

(* --------------------------------------------------------------------- *)
(** ** Entries and keys of the trained table *)

Lemma has_entry_add_transition (m : Model) (ctx : Ctx) (x : NotePair)
    (ctx' : Ctx) (x' : NotePair) :
  has_entry (add_transition m ctx x) ctx' x'
  <-> has_entry m ctx' x' \/ (ctx' = ctx /\ x' = x).
Proof.
  unfold has_entry, add_transition.
  destruct (Ctx_eq_dec ctx' ctx) as [-> | Hne].
  - rewrite get_set_same. split.
    + intros (c & [= <-] & Hin).
      apply keys_set in Hin. destruct Hin as [Hin | ->]; [ left | now right ].
      destruct (Py.get Ctx_eq_dec m ctx) as [c | ]; [ now exists c | destruct Hin ].
    + intros H. eexists. split; [ reflexivity | ]. apply keys_set.
      destruct H as [(c & E & Hin) | [_ ->]]; [ left | now right ].
      now rewrite E.
  - rewrite get_set_other by assumption. intuition.
Qed.

Lemma has_entry_setdefault (m : Model) (k ctx : Ctx) (x : NotePair) :
  has_entry (Py.setdefault Ctx_eq_dec m k []) ctx x <-> has_entry m ctx x.
Proof.
  unfold has_entry. rewrite get_setdefault.
  destruct (Py.get Ctx_eq_dec m ctx) as [c | ] eqn:E; [ tauto | ].
  split.
  - intros (c & Hc & Hin). destruct (Ctx_eq_dec ctx k); [ | discriminate ].
    injection Hc as <-. destruct Hin.
  - intros (c & Hc & _). discriminate.
Qed.

Lemma is_window_true order s ctx x i :
  is_window order s ctx x i = true
  <-> window_context order s i = ctx /\ window_successor order s i = Some x.
Proof.
  unfold is_window.
  destruct (Ctx_eq_dec (window_context order s i) ctx) as [E | E];
    [ | intuition discriminate ].
  destruct (window_successor order s i) as [y | ]; [ | intuition discriminate ].
  destruct (NotePair_eq_dec y x) as [-> | Hne]; [ tauto | ].
  split; [ discriminate | intros [_ [= ?]]; contradiction ].
Qed.

Lemma has_entry_fold_windows order s starts (m : Model) ctx x :
  has_entry (fold_left (count_window order s) starts m) ctx x
  <-> has_entry m ctx x
      \/ exists i, In i starts /\ is_window order s ctx x i = true.
Proof.
  revert m. induction starts as [ | i starts IH ]; intros m; simpl.
  - split; [ now left | intros [H | (i & [] & _)]; exact H ].
  - rewrite IH. unfold count_window at 1.
    destruct (window_successor order s i) as [y | ] eqn:Ey.
    + rewrite has_entry_add_transition. split.
      * intros [[H | [-> ->]] | (j & Hj & Hw)].
        -- now left.
        -- right. exists i. split; [ now left | ].
           apply is_window_true. now split.
        -- right. exists j. split; [ now right | exact Hw ].
      * intros [H | (j & [<- | Hj] & Hw)].
        -- left. now left.
        -- apply is_window_true in Hw. destruct Hw as [<- Hs].
           left. right. split; congruence.
        -- right. exists j. now split.
    + split.
      * intros [H | (j & Hj & Hw)]; [ now left | ].
        right. exists j. split; [ now right | exact Hw ].
      * intros [H | (j & [<- | Hj] & Hw)]; [ now left | | ].
        -- apply is_window_true in Hw. destruct Hw as [_ Hs]. congruence.
        -- right. exists j. now split.
Qed.

Lemma occurrences_pos order s ctx x :
  0 < occurrences order s ctx x
  <-> exists i, In i (window_starts order s)
                /\ is_window order s ctx x i = true.
Proof.
  unfold occurrences.
  destruct (filter (is_window order s ctx x) (window_starts order s))
    as [ | i l ] eqn:E; simpl List.length.
  - split; [ lia | ]. intros (i & Hi & Hw).
    assert (Hin : In i (filter (is_window order s ctx x) (window_starts order s)))
      by (apply filter_In; now split).
    rewrite E in Hin. destruct Hin.
  - split; [ intros _ | lia ].
    assert (Hin : In i (filter (is_window order s ctx x) (window_starts order s)))
      by (rewrite E; now left).
    apply filter_In in Hin. now exists i.
Qed.

Lemma has_entry_train_model order s (m : Model) ctx x :
  has_entry (train_model order s m) ctx x
  <-> has_entry m ctx x \/ 0 < occurrences order s ctx x.
Proof.
  unfold train_model, count_windows.
  now rewrite has_entry_setdefault, has_entry_fold_windows, occurrences_pos.
Qed.

Lemma keys_add_transition (m : Model) ctx x k :
  In k (Py.keys (add_transition m ctx x)) <-> In k (Py.keys m) \/ k = ctx.
Proof. unfold add_transition. apply keys_set. Qed.

Lemma keys_fold_windows order s starts (m : Model) k :
  In k (Py.keys (fold_left (count_window order s) starts m)) ->
  In k (Py.keys m) \/ In k (map (window_context order s) starts).
Proof.
  revert m. induction starts as [ | i starts IH ]; intros m; simpl.
  - now left.
  - intros H. apply IH in H. destruct H as [H | H]; [ | right; now right ].
    unfold count_window in H.
    destruct (window_successor order s i); [ | now left ].
    apply keys_add_transition in H. destruct H as [H | ->]; [ now left | ].
    right. now left.
Qed.

Lemma keys_setdefault (m : Model) (k : Ctx) :
  In k (Py.keys (Py.setdefault Ctx_eq_dec m k [])).
Proof.
  apply (get_Some_keys Ctx_eq_dec). rewrite get_setdefault.
  destruct (Py.get Ctx_eq_dec m k) as [c | ]; [ now exists c | ].
  destruct (Ctx_eq_dec k k); [ now exists [] | contradiction ].
Qed.

Lemma tail_context_slice order s :
  1 <= order -> Py.slice s (Some (- order)) None = tail_context order s.
Proof. intros H. now apply slice_suffix. Qed.

Lemma tail_context_length order s :
  0 <= order -> order < Py.len s -> Py.len (tail_context order s) = order.
Proof.
  unfold tail_context, Py.len. intros H0 H1. rewrite length_skipn. lia.
Qed.

(** C7. After every successful [train s], the final [order]-length suffix
    of [s] is a key of the table; when the registration finds it absent
    (it was no key before the call and no window of [s] has it as its
    context) it is stored with zero successors; and the table holds a
    successor entry exactly where it held one before or a window of [s]
    put one, so the registration adds none. *)
Theorem train_registers_tail (order : Z) (s : list NotePair) (m : Model) (r : Rng) :
  1 <= order -> order < Py.len s ->
  exists m',
    train s (world order m r) = (Ok tt, world order m' r) /\
    Py.len (tail_context order s) = order /\
    In (tail_context order s) (Py.keys m') /\
    (~ In (tail_context order s) (Py.keys m) ->
     ~ In (tail_context order s) (window_contexts order s) ->
     Py.get Ctx_eq_dec m' (tail_context order s) = Some []) /\
    (forall ctx x,
        has_entry m' ctx x <-> has_entry m ctx x \/ 0 < occurrences order s ctx x).
Proof.
  intros Horder Hlen. exists (train_model order s m).
  split; [ apply train_returns; lia | ].
  split; [ apply tail_context_length; lia | ].
  split; [ | split ].
  - unfold train_model. rewrite tail_context_slice by assumption.
    apply keys_setdefault.
  - intros Hm Hw. unfold train_model.
    rewrite tail_context_slice by assumption. rewrite get_setdefault.
    destruct (Py.get Ctx_eq_dec (count_windows order s m) (tail_context order s))
      as [c | ] eqn:E.
    + exfalso.
      assert (Hk : In (tail_context order s) (Py.keys (count_windows order s m)))
        by (apply (get_Some_keys Ctx_eq_dec); now exists c).
      apply keys_fold_windows in Hk. tauto.
    + destruct (Ctx_eq_dec (tail_context order s) (tail_context order s));
        [ reflexivity | contradiction ].
  - intros ctx x. apply has_entry_train_model.
Qed.

(** The suffix is registered empty only when the windows of the call did
    not already make it a key: here it is the context of both windows. *)
Example tail_with_successors :
  train [sample_a; sample_a; sample_a] (world 1 [] sample_tape)
  = (Ok tt, world 1 [([sample_a], [(sample_a, 2)])] sample_tape).
Proof. reflexivity. Qed.

(* ===================================================================== *)
(** * The random choices *)
(* ===================================================================== *)

Lemma tape_ok_shift r : tape_ok r -> tape_ok (shift r).
Proof. intros H n. apply (H (S n)). Qed.

Lemma floor_uniform (u : Q) (n : Z) :
  (0 <= u)%Q -> (u < 1)%Q -> 0 < n ->
  0 <= Qfloor (u * inject_Z n) < n /\
  (inject_Z (Qfloor (u * inject_Z n)) <= u * inject_Z n)%Q /\
  (u * inject_Z n < inject_Z (Qfloor (u * inject_Z n) + 1))%Q.
Proof.
  intros H0 H1 Hn.
  assert (Hn' : (0 < inject_Z n)%Q).
  { change (inject_Z 0 < inject_Z n)%Q. now rewrite <- Zlt_Qlt. }
  assert (Hlo : (0 <= u * inject_Z n)%Q).
  { apply Qmult_le_0_compat; [ exact H0 | now apply Qlt_le_weak ]. }
  assert (Hhi : (u * inject_Z n < inject_Z n)%Q).
  { setoid_replace (inject_Z n) with (1 * inject_Z n)%Q at 2 by ring.
    now apply Qmult_lt_compat_r. }
  split; [ split | split; [ apply Qfloor_le | apply Qlt_floor ] ].
  - change 0 with (Qfloor (inject_Z 0)). now apply Qfloor_resp_le.
  - rewrite Zlt_Qlt. eapply Qle_lt_trans; [ apply Qfloor_le | exact Hhi ].
Qed.

Lemma random_choice_returns {A} (l : list A) w (Q : A -> World -> Prop) :
  l <> [] -> tape_ok (rng w) ->
  (forall i x,
      nth_error l i = Some x -> uniform_selects l (rng w 0%nat) i ->
      Q x {| self := self w; rng := shift (rng w) |}) ->
  returns (random_choice l) w Q.
Proof.
  intros Hl Htape HQ. unfold random_choice.
  assert (Hlen : 0 < Py.len l).
  { destruct l; [ contradiction | unfold Py.len; simpl; lia ]. }
  destruct (Py.len l =? 0) eqn:E; [ lia | ].
  unfold randbelow. repeat step_returns.
  destruct (Htape 0%nat) as [H0 H1].
  destruct (floor_uniform (rng w 0%nat) (Py.len l) H0 H1 Hlen)
    as ([Hi0 Hi1] & Hlo & Hhi).
  set (i := Qfloor (rng w 0%nat * inject_Z (Py.len l))) in *.
  assert (Hnat : (Z.to_nat i < List.length l)%nat) by (unfold Py.len in Hi1; lia).
  destruct (nth_error l (Z.to_nat i)) as [x | ] eqn:Ex;
    [ | apply nth_error_None in Ex; lia ].
  apply (returns_or_IndexError _ x).
  - now rewrite index_nonneg.
  - apply (HQ (Z.to_nat i) x Ex). unfold uniform_selects.
    rewrite Z2Nat.id by assumption. auto.
Qed.

(* --------------------------------------------------------------------- *)
(** ** The weighted choice *)

Lemma probabilities_of_returns counts total w (Q : list Q -> World -> Prop) :
  total <> 0 ->
  Q (map (weight_of total) counts) w ->
  returns (probabilities_of counts total) w Q.
Proof.
  intros HT. revert Q. induction counts as [ | k counts IH ]; intros Q HQ; simpl.
  - now apply returns_ret.
  - unfold true_div. destruct (total =? 0) eqn:E; [ lia | ].
    repeat step_returns. apply IH. repeat step_returns. exact HQ.
Qed.

Lemma accumulate_from_length acc ps :
  List.length (accumulate_from acc ps) = List.length ps.
Proof.
  revert acc. induction ps as [ | p ps IH ]; intros acc; simpl; auto.
Qed.

Lemma accumulate_length ps : List.length (accumulate ps) = List.length ps.
Proof. destruct ps; simpl; [ reflexivity | now rewrite accumulate_from_length ]. Qed.

Section Weighted.
Variable T : Z.
Hypothesis T_pos : 0 < T.

Lemma T_pos_Q : (0 < inject_Z T)%Q.
Proof. change (inject_Z 0 < inject_Z T)%Q. now rewrite <- Zlt_Qlt. Qed.

Lemma T_nonzero_Q : ~ (inject_Z T == 0)%Q.
Proof. pose proof T_pos_Q as H. intros E. rewrite E in H. now apply Qlt_irrefl in H. Qed.

Lemma prob_step (acc : Q) (accZ k : Z) :
  (acc == inject_Z accZ / inject_Z T)%Q ->
  (acc + (weight_of T) k == inject_Z (accZ + k) / inject_Z T)%Q.
Proof.
  intros H. unfold weight_of. rewrite H, inject_Z_plus.
  field. exact T_nonzero_Q.
Qed.

(** Entry [k] of the running sums is the sum of the first [k+1] counts
    over the total. *)
Lemma accumulate_from_nth counts : forall (acc : Q) (accZ : Z) (k : nat) (q : Q),
  (acc == inject_Z accZ / inject_Z T)%Q ->
  nth_error (accumulate_from acc (map (weight_of T) counts)) k = Some q ->
  (q == inject_Z (accZ + Py.sum (firstn (S k) counts)) / inject_Z T)%Q.
Proof.
  induction counts as [ | c counts IH ]; intros acc accZ k q Hacc Hq.
  - destruct k; discriminate.
  - simpl in Hq. destruct k as [ | k ].
    + injection Hq as <-. simpl firstn. rewrite sum_cons.
      change (Py.sum []) with 0. rewrite Z.add_0_r. now apply prob_step.
    + simpl in Hq. apply (IH _ (accZ + c)) in Hq; [ | now apply prob_step ].
      rewrite Hq. change (firstn (S (S k)) (c :: counts))
        with (c :: firstn (S k) counts).
      rewrite sum_cons, Z.add_assoc. reflexivity.
Qed.

Lemma scaled_lt (q x : Q) (z : Z) :
  (q == inject_Z z / inject_Z T)%Q ->
  (x < q)%Q -> (x * inject_Z T < inject_Z z)%Q.
Proof.
  intros Hq Hx.
  assert (H : (q * inject_Z T == inject_Z z)%Q).
  { rewrite Hq. field. exact T_nonzero_Q. }
  rewrite <- H. apply Qmult_lt_compat_r; [ exact T_pos_Q | exact Hx ].
Qed.

Lemma scaled_le (q x : Q) (z : Z) :
  (q == inject_Z z / inject_Z T)%Q ->
  (q <= x)%Q -> (inject_Z z <= x * inject_Z T)%Q.
Proof.
  intros Hq Hx.
  assert (H : (q * inject_Z T == inject_Z z)%Q).
  { rewrite Hq. field. exact T_nonzero_Q. }
  rewrite <- H. apply Qmult_le_compat_r; [ exact Hx | ].
  apply Qlt_le_weak, T_pos_Q.
Qed.

(** Where the scan over the running sums stops. *)
Lemma bisect_accumulate_from counts :
  forall (acc : Q) (accZ : Z) (x : Q) (hi : nat),
    (acc == inject_Z accZ / inject_Z T)%Q ->
    (inject_Z accZ <= x * inject_Z T)%Q ->
    let i := bisect (accumulate_from acc (map (weight_of T) counts)) x hi in
    (i <= hi)%nat /\ (i <= List.length counts)%nat /\
    (inject_Z (accZ + Py.sum (firstn i counts)) <= x * inject_Z T)%Q /\
    ((i < hi)%nat -> (i < List.length counts)%nat ->
     (x * inject_Z T < inject_Z (accZ + Py.sum (firstn (S i) counts)))%Q).
Proof.
  induction counts as [ | c counts IH ]; intros acc accZ x hi Hacc Hlo.
  - simpl. destruct hi; simpl; change (Py.sum []) with 0;
      rewrite Z.add_0_r; repeat split; auto with arith; try lia.
  - destruct hi as [ | hi ].
    + simpl. change (Py.sum []) with 0. rewrite Z.add_0_r.
      repeat split; auto with arith; lia.
    + simpl bisect.
      pose proof (prob_step acc accZ c Hacc) as Hstep.
      destruct (Qlt_le_dec x (acc + (weight_of T) c)) as [Hlt | Hge].
      * simpl. change (Py.sum []) with 0. rewrite Z.add_0_r.
        repeat split; auto with arith.
        intros _ _. rewrite sum_cons. change (Py.sum []) with 0.
        rewrite Z.add_0_r. now apply (scaled_lt (acc + (weight_of T) c)%Q).
      * specialize (IH (acc + (weight_of T) c)%Q (accZ + c) x hi Hstep
                       (scaled_le _ _ _ Hstep Hge)).
        cbv zeta in IH. destruct IH as (H1 & H2 & H3 & H4).
        set (i := bisect (accumulate_from (acc + (weight_of T) c) (map (weight_of T) counts)) x hi) in *.
        cbv zeta. simpl List.length.
        change (firstn (S i) (c :: counts)) with (c :: firstn i counts).
        change (firstn (S (S i)) (c :: counts)) with (c :: firstn (S i) counts).
        rewrite !sum_cons, !Z.add_assoc.
        repeat split; auto with arith; try lia.
        all: try (intros Hi Hl; apply H4; lia).
Qed.

Lemma accumulate_nth counts (k : nat) (q : Q) :
  nth_error (accumulate (map (weight_of T) counts)) k = Some q ->
  (q == inject_Z (Py.sum (firstn (S k) counts)) / inject_Z T)%Q.
Proof.
  destruct counts as [ | c counts ]; simpl; [ destruct k; discriminate | ].
  destruct k as [ | k ]; simpl.
  - intros [= <-]. rewrite sum_cons. change (Py.sum []) with 0.
    now rewrite Z.add_0_r.
  - intros Hq. apply (accumulate_from_nth _ _ c) in Hq; [ | reflexivity ].
    rewrite Hq. now rewrite sum_cons.
Qed.

Lemma bisect_accumulate counts (x : Q) (hi : nat) :
  (0 <= x * inject_Z T)%Q ->
  let i := bisect (accumulate (map (weight_of T) counts)) x hi in
  (i <= hi)%nat /\ (i <= List.length counts)%nat /\
  (inject_Z (Py.sum (firstn i counts)) <= x * inject_Z T)%Q /\
  ((i < hi)%nat -> (i < List.length counts)%nat ->
   (x * inject_Z T < inject_Z (Py.sum (firstn (S i) counts)))%Q).
Proof.
  intros Hx. destruct counts as [ | c counts ].
  - simpl. destruct hi; simpl; repeat split; auto with arith; lia.
  - destruct hi as [ | hi ].
    + simpl. repeat split; auto with arith; lia.
    + simpl accumulate. simpl bisect.
      destruct (Qlt_le_dec x ((weight_of T) c)) as [Hlt | Hge].
      * simpl. repeat split; auto with arith.
        intros _ _. rewrite sum_cons. change (Py.sum []) with 0.
        rewrite Z.add_0_r. apply (scaled_lt ((weight_of T) c)); [ | exact Hlt ].
        reflexivity.
      * assert (Hc : ((weight_of T) c == inject_Z c / inject_Z T)%Q) by reflexivity.
        pose proof (bisect_accumulate_from counts ((weight_of T) c) c x hi Hc
                      (scaled_le _ _ _ Hc Hge)) as IH.
        cbv zeta in IH. destruct IH as (H1 & H2 & H3 & H4).
        set (i := bisect (accumulate_from ((weight_of T) c) (map (weight_of T) counts)) x hi) in *.
        cbv zeta. simpl List.length.
        change (firstn (S i) (c :: counts)) with (c :: firstn i counts).
        change (firstn (S (S i)) (c :: counts)) with (c :: firstn (S i) counts).
        rewrite !sum_cons.
        repeat split; auto with arith; try lia.
        all: try (intros Hi Hl; apply H4; lia).
Qed.
End Weighted.

Lemma counter_total_pos (c : Counter) :
  c <> [] -> counter_ok c -> 0 < Py.sum (map snd c).
Proof.
  intros Hne Hok. destruct c as [ | [x k] c ]; [ contradiction | ].
  clear Hne. inversion Hok as [ | ? ? Hk Hc ]; subst. simpl in Hk.
  simpl map. rewrite sum_cons.
  assert (H : 0 <= Py.sum (map snd c)).
  { clear Hok Hk. induction Hc as [ | [y n] c Hn Hc IH ]; simpl.
    - unfold Py.sum. simpl. lia.
    - rewrite sum_cons. simpl in Hn. lia. }
  lia.
Qed.

Lemma partial_count_all (c : Counter) :
  partial_count c (List.length c) = Py.sum (map snd c).
Proof. unfold partial_count. now rewrite firstn_all. Qed.

Lemma partial_count_map (c : Counter) (i : nat) :
  Py.sum (firstn i (map snd c)) = partial_count c i.
Proof. unfold partial_count. now rewrite firstn_map. Qed.

(** The weighted branch: the successor at the index that the draw selects
    in proportion to the counts; one draw is consumed. *)
Lemma weighted_successor_returns (c : Counter) w (Q : NotePair -> World -> Prop) :
  c <> [] -> counter_ok c -> tape_ok (rng w) ->
  (forall i x n,
      nth_error c i = Some (x, n) -> proportional_selects c (rng w 0%nat) i ->
      Q x {| self := self w; rng := shift (rng w) |}) ->
  returns (weighted_successor c) w Q.
Proof.
  intros Hne Hok Htape HQ.
  pose proof (counter_total_pos c Hne Hok) as HT.
  set (T := Py.sum (map snd c)) in *.
  unfold weighted_successor, unzip_items, Py.items. fold T.
  step_returns. apply probabilities_of_returns; [ lia | ].
  unfold random_choices1.
  set (probs := map (weight_of T) (map snd c)).
  assert (Hlen : List.length (accumulate probs) = List.length c).
  { unfold probs. now rewrite accumulate_length, !length_map. }
  assert (Hc : (0 < List.length c)%nat).
  { destruct c; [ contradiction | simpl; lia ]. }
  unfold Py.len at 1 2. rewrite Hlen, length_map, Z.eqb_refl. simpl negb. cbv iota.
  step_returns.
  destruct (nth_error (accumulate probs) (List.length c - 1)) as [t | ] eqn:Et;
    [ | apply nth_error_None in Et; lia ].
  assert (Ht : (t == 1)%Q).
  { apply (accumulate_nth T HT) in Et. rewrite Et.
    replace (S (List.length c - 1)) with (List.length (map snd c))
      by (rewrite length_map; lia).
    rewrite firstn_all. fold T. field. now apply T_nonzero_Q. }
  apply (returns_or_IndexError _ t).
  { unfold Py.index, Py.len. rewrite Hlen.
    destruct (0 <=? -1) eqn:E0; [ lia | ]. simpl andb.
    destruct (- Z.of_nat (List.length c) <=? -1) eqn:E1; [ | lia ].
    destruct (-1 <? 0) eqn:E2; [ | lia ]. simpl andb. cbv iota.
    rewrite <- Et. f_equal. lia. }
  destruct (Qle_bool t 0) eqn:Ele.
  { apply Qle_bool_iff in Ele. rewrite Ht in Ele. apply Qle_not_lt in Ele.
    exfalso. apply Ele. reflexivity. }
  step_returns. step_returns. simpl rng.
  destruct (Htape 0%nat) as [Hu0 Hu1]. set (u := rng w 0%nat) in *.
  assert (HxT : (u * t * inject_Z T == u * inject_Z T)%Q) by (rewrite Ht; ring).
  assert (Hx0 : (0 <= u * t * inject_Z T)%Q).
  { rewrite HxT. apply Qmult_le_0_compat; [ exact Hu0 | ].
    apply Qlt_le_weak. now apply T_pos_Q. }
  pose proof (bisect_accumulate T HT (map snd c) (u * t)
                (List.length (map fst c) - 1) Hx0) as Hb.
  cbv zeta in Hb. fold probs in Hb. rewrite !length_map in Hb.
  cbv zeta. rewrite ?length_map.
  set (i := bisect (accumulate probs) (u * t) (List.length c - 1)) in *.
  destruct Hb as (Hi & _ & Hlo & Hhi).
  destruct (nth_error c i) as [[x n] | ] eqn:Ex;
    [ | apply nth_error_None in Ex; lia ].
  apply (returns_or_IndexError _ x).
  { rewrite nth_error_map, Ex. reflexivity. }
  apply (HQ i x n Ex). unfold proportional_selects.
  rewrite partial_count_all. fold T.
  rewrite partial_count_map in Hlo. rewrite partial_count_map in Hhi.
  rewrite HxT in Hlo. split; [ lia | ]. split; [ exact Hlo | ].
  destruct (Nat.eq_dec i (List.length c - 1)) as [Elast | Hmid].
  - replace (S i) with (List.length c) by lia.
    rewrite partial_count_all. fold T.
    setoid_replace (inject_Z T) with (1 * inject_Z T)%Q at 2 by ring.
    apply Qmult_lt_compat_r; [ now apply T_pos_Q | exact Hu1 ].
  - rewrite <- HxT. apply Hhi; lia.
Qed.

(* --------------------------------------------------------------------- *)
(** ** The parts of the unit interval do not overlap *)

Lemma uniform_selects_unique {A} (l : list A) (u : Q) (i j : nat) :
  uniform_selects l u i -> uniform_selects l u j -> i = j.
Proof.
  intros (_ & Hi0 & Hi1) (_ & Hj0 & Hj1).
  assert (H1 : Z.of_nat i < Z.of_nat j + 1).
  { rewrite Zlt_Qlt. eapply Qle_lt_trans; [ exact Hi0 | exact Hj1 ]. }
  assert (H2 : Z.of_nat j < Z.of_nat i + 1).
  { rewrite Zlt_Qlt. eapply Qle_lt_trans; [ exact Hj0 | exact Hi1 ]. }
  lia.
Qed.

Lemma partial_count_cons (e : NotePair * Z) (c : Counter) (i : nat) :
  partial_count (e :: c) (S i) = snd e + partial_count c i.
Proof. unfold partial_count. cbn [firstn map]. now rewrite sum_cons. Qed.

Lemma partial_count_nonneg (c : Counter) (i : nat) :
  counter_ok c -> 0 <= partial_count c i.
Proof.
  intros Hok. revert i. induction Hok as [ | e c He Hok IH ]; intros i.
  - unfold partial_count. rewrite firstn_nil. reflexivity.
  - destruct i as [ | i ]; [ reflexivity | ].
    rewrite partial_count_cons. specialize (IH i). lia.
Qed.

Lemma partial_count_mono (c : Counter) (i j : nat) :
  counter_ok c -> (i <= j)%nat -> partial_count c i <= partial_count c j.
Proof.
  intros Hok. revert i j. induction Hok as [ | e c He Hok IH ]; intros i j Hij.
  - unfold partial_count. rewrite !firstn_nil. reflexivity.
  - destruct i as [ | i ].
    + change (partial_count (e :: c) 0) with 0.
      apply partial_count_nonneg. now constructor.
    + destruct j as [ | j ]; [ lia | ].
      rewrite !partial_count_cons. specialize (IH i j). lia.
Qed.

Lemma proportional_selects_unique (c : Counter) (u : Q) (i j : nat) :
  counter_ok c ->
  proportional_selects c u i -> proportional_selects c u j -> i = j.
Proof.
  intros Hok (_ & Hi0 & Hi1) (_ & Hj0 & Hj1).
  assert (H1 : partial_count c i < partial_count c (S j)).
  { rewrite Zlt_Qlt. eapply Qle_lt_trans; [ exact Hi0 | exact Hj1 ]. }
  assert (H2 : partial_count c j < partial_count c (S i)).
  { rewrite Zlt_Qlt. eapply Qle_lt_trans; [ exact Hj0 | exact Hi1 ]. }
  destruct (Nat.lt_trichotomy i j) as [H | [H | H]]; [ | exact H | ].
  - pose proof (partial_count_mono c (S i) j Hok H). lia.
  - pose proof (partial_count_mono c (S j) i Hok H). lia.
Qed.

(* ===================================================================== *)
(** * [generate]: one iteration *)
(* ===================================================================== *)

Lemma trailing_slice order (result : list NotePair) :
  1 <= order -> Py.slice result (Some (- order)) None = trailing order result.
Proof. intros H. now apply slice_suffix. Qed.

(** A context with recorded successors: the weighted branch. *)
Lemma generate_step_live order (m : Model) r states cur result (c : Counter)
    (Q : Ctx * list NotePair -> World -> Prop) :
  1 <= order -> tape_ok r ->
  Py.get Ctx_eq_dec m cur = Some c -> c <> [] -> counter_ok c ->
  (forall i x n,
      nth_error c i = Some (x, n) -> proportional_selects c (r 0%nat) i ->
      Q (trailing order (result ++ [x]), result ++ [x])
        (world order m (shift r))) ->
  returns (generate_step states (cur, result)) (world order m r) Q.
Proof.
  intros Horder Htape Hget Hne Hok HQ. unfold generate_step.
  step_returns. step_returns. simpl model. rewrite Hget.
  destruct c as [ | item items ]; [ contradiction | ].
  step_returns. step_returns.
  apply weighted_successor_returns; try assumption.
  intros i x n Hi Hsel. simpl. repeat step_returns. simpl.
  rewrite trailing_slice by assumption. now apply (HQ i x n).
Qed.

(** A dead end: a context that is absent or has no successor. *)
Lemma generate_step_dead order (m : Model) r states cur result
    (Q : Ctx * list NotePair -> World -> Prop) :
  1 <= order -> tape_ok r ->
  states <> [] -> (forall k, In k states -> k <> []) ->
  Py.get Ctx_eq_dec m cur = None \/ Py.get Ctx_eq_dec m cur = Some [] ->
  (forall i j ctx x,
      nth_error states i = Some ctx -> uniform_selects states (r 0%nat) i ->
      nth_error ctx j = Some x -> uniform_selects ctx (r 1%nat) j ->
      Q (trailing order (result ++ [x]), result ++ [x])
        (world order m (shift (shift r)))) ->
  returns (generate_step states (cur, result)) (world order m r) Q.
Proof.
  intros Horder Htape Hstates Hkeys Hget HQ. unfold generate_step.
  step_returns. step_returns. simpl model.
  assert (Hdead :
    returns (current_state <- random_choice states ;;
             next_note <- random_choice current_state ;;
             ret (current_state, next_note)) (world order m r)
      (fun cn w' =>
         exists i j, nth_error states i = Some (fst cn) /\
           uniform_selects states (r 0%nat) i /\
           nth_error (fst cn) j = Some (snd cn) /\
           uniform_selects (fst cn) (r 1%nat) j /\
           w' = world order m (shift (shift r)))).
  { step_returns. apply random_choice_returns; [ assumption | assumption | ].
    intros i ctx Hi Hsel. simpl. step_returns.
    apply random_choice_returns.
    - apply Hkeys. eapply nth_error_In. exact Hi.
    - simpl. now apply tape_ok_shift.
    - intros j x Hj Hsel'. simpl. step_returns. simpl.
      exists i, j. auto. }
  assert (Hrest : forall cn w',
    (exists i j, nth_error states i = Some (fst cn) /\
       uniform_selects states (r 0%nat) i /\
       nth_error (fst cn) j = Some (snd cn) /\
       uniform_selects (fst cn) (r 1%nat) j /\
       w' = world order m (shift (shift r))) ->
    returns (let (_, next_note) := cn in
             let result0 := result ++ [next_note] in
             o <- get_order ;;
             let current_state := Py.slice result0 (Some (- o)) None in
             ret (current_state, result0)) w' Q).
  { intros [ctx x] w' (i & j & Hi & Hsel & Hj & Hsel' & ->). simpl in *.
    repeat step_returns. simpl. rewrite trailing_slice by assumption.
    now apply (HQ i j ctx x). }
  destruct Hget as [-> | ->];
    (step_returns; eapply returns_weaken; [ exact Hdead | exact Hrest ]).
Qed.

Lemma wf_model_get order (m : Model) (k : Ctx) (c : Counter) :
  wf_model order m -> Py.get Ctx_eq_dec m k = Some c ->
  Py.len k = order /\ counter_ok c.
Proof.
  intros Hwf Hget. apply get_Some_In in Hget.
  unfold wf_model in Hwf. rewrite Forall_forall in Hwf.
  exact (Hwf _ Hget).
Qed.

Lemma wf_model_keys order (m : Model) (k : Ctx) :
  wf_model order m -> In k (Py.keys m) -> Py.len k = order.
Proof.
  intros Hwf Hin. apply (get_Some_keys Ctx_eq_dec) in Hin.
  destruct Hin as [c Hc]. now apply (wf_model_get order m k c).
Qed.

Lemma wf_model_keys_nonempty order (m : Model) (k : Ctx) :
  1 <= order -> wf_model order m -> In k (Py.keys m) -> k <> [].
Proof.
  intros Horder Hwf Hin E. apply (wf_model_keys order) in Hin; [ | assumption ].
  subst k. unfold Py.len in Hin. simpl in Hin. lia.
Qed.

Lemma keys_nonempty (m : Model) : m <> [] -> Py.keys m <> [].
Proof. destruct m; [ contradiction | discriminate ]. Qed.



Lemma returns_run {A} (m : M A) w (Q : A -> World -> Prop) :
  returns m w Q -> exists a w', m w = (Ok a, w') /\ Q a w'.
Proof. exact (fun H => H). Qed.


(* ===================================================================== *)
(** * [generate]: the whole call *)
(* ===================================================================== *)

(** On a non-empty table of the data model, [generate] returns the seed
    context followed by one element per iteration. *)
Lemma generate_returns order (m : Model) r length
    (Q : list NotePair -> World -> Prop) :
  1 <= order -> wf_model order m -> m <> [] -> order < length -> tape_ok r ->
  (forall i seed appended r',
      nth_error (Py.keys m) i = Some seed ->
      uniform_selects (Py.keys m) (r 0%nat) i ->
      List.length appended = Z.to_nat (length - order) ->
      Q (seed ++ appended) (world order m r')) ->
  returns (generate length) (world order m r) Q.
Proof.
  intros Horder Hwf Hm Hlen Htape HQ. unfold generate.
  step_returns. step_returns. simpl model.
  destruct m as [ | e m' ] eqn:Em; [ contradiction | ]. rewrite <- Em in *.
  clear e m' Em.
  step_returns. step_returns. simpl.
  destruct (length <=? order) eqn:E; [ lia | ].
  step_returns. step_returns. simpl model.
  step_returns. apply random_choice_returns;
    [ now apply keys_nonempty | exact Htape | ].
  intros i seed Hi Hsel. simpl self. simpl rng.
  step_returns. step_returns. simpl. step_returns.
  eapply returns_weaken.
  - apply (for_each_returns _
      (fun visited (locals : Ctx * list NotePair) w =>
         exists appended r',
           snd locals = seed ++ appended /\
           List.length appended = List.length visited /\
           tape_ok r' /\ w = world order m r')).
    + exists [], (shift r). rewrite app_nil_r.
      split; [ reflexivity | split; [ reflexivity | split; [ | reflexivity ] ] ].
      now apply tape_ok_shift.
    + intros visited x [cur result] w _ (appended & r' & Hres & Happ & Hr' & ->).
      simpl in Hres. subst result.
      destruct (Py.get Ctx_eq_dec m cur) as [[ | item items] | ] eqn:Hget.
      * apply (generate_step_dead order m r'); try assumption.
        -- now apply keys_nonempty.
        -- intros k Hk. now apply (wf_model_keys_nonempty order m).
        -- now right.
        -- intros i0 j ctx y _ _ _ _. exists (appended ++ [y]), (shift (shift r')).
           simpl. rewrite app_assoc, !length_app, Happ. simpl List.length.
           split; [ reflexivity | split; [ lia | split; [ | reflexivity ] ] ].
           now apply tape_ok_shift, tape_ok_shift.
      * apply (generate_step_live order m r' _ _ _ (item :: items));
          try assumption; [ discriminate | | ].
        -- now apply (wf_model_get order m cur).
        -- intros i0 y n _ _. exists (appended ++ [y]), (shift r').
           simpl. rewrite app_assoc, !length_app, Happ. simpl List.length.
           split; [ reflexivity | split; [ lia | split; [ | reflexivity ] ] ].
           now apply tape_ok_shift.
      * apply (generate_step_dead order m r'); try assumption.
        -- now apply keys_nonempty.
        -- intros k Hk. now apply (wf_model_keys_nonempty order m).
        -- now left.
        -- intros i0 j ctx y _ _ _ _. exists (appended ++ [y]), (shift (shift r')).
           simpl. rewrite app_assoc, !length_app, Happ. simpl List.length.
           split; [ reflexivity | split; [ lia | split; [ | reflexivity ] ] ].
           now apply tape_ok_shift, tape_ok_shift.
  - intros [cur result] w' (appended & r' & Hres & Happ & _ & ->).
    simpl in Hres. subst result. step_returns.
    apply (HQ i seed appended r' Hi Hsel).
    rewrite Happ. unfold Py.range. now rewrite length_map, length_seq.
Qed.

(** C1. For every non-empty table of the data model and every length
    above the order, [generate] returns a sequence of exactly [length]
    pairs: the [order] pairs of the seed context that the first draw
    selects uniformly among the keys, followed by the [length - order]
    appended elements, in the order of insertion. *)
Theorem generate_exact_length (order length : Z) (m : Model) (r : Rng) :
  1 <= order -> wf_model order m -> m <> [] -> order < length -> tape_ok r ->
  exists result w' i seed appended,
    generate length (world order m r) = (Ok result, w') /\
    Py.len result = length /\
    nth_error (Py.keys m) i = Some seed /\
    uniform_selects (Py.keys m) (r 0%nat) i /\
    Py.len seed = order /\
    Py.len appended = length - order /\
    result = seed ++ appended.
Proof.
  intros Horder Hwf Hm Hlen Htape.
  pose proof (generate_returns order m r length
    (fun result w' => exists i seed appended,
       nth_error (Py.keys m) i = Some seed /\
       uniform_selects (Py.keys m) (r 0%nat) i /\
       List.length appended = Z.to_nat (length - order) /\
       result = seed ++ appended)
    Horder Hwf Hm Hlen Htape) as H.
  destruct H as (result & w' & Hrun & i & seed & appended & Hi & Hsel & Happ & ->).
  { intros i seed appended r' Hi Hsel Happ. exists i, seed, appended. auto. }
  assert (Hseed : Py.len seed = order).
  { apply (wf_model_keys order m); [ assumption | ].
    eapply nth_error_In. exact Hi. }
  exists (seed ++ appended), w', i, seed, appended.
  repeat split; try assumption; try apply Hsel.
  - rewrite len_app, Hseed. unfold Py.len. rewrite Happ. lia.
  - unfold Py.len. rewrite Happ. lia.
Qed.
(* ===================================================================== *)
(** * Binary64: one rounding *)
(* ===================================================================== *)

Section Binary64Facts.
Import Binary64.




Lemma pow2_lt (a b : Z) : a < b -> (pow2 a < pow2 b)%Q.
Proof. intros H. unfold pow2. now apply Qpower_lt_compat_l. Qed.












(* ===================================================================== *)
(** * Binary64: chains of roundings *)
(* ===================================================================== *)






















(* ===================================================================== *)
(** * The weights and their running sums in binary64 *)
(* ===================================================================== *)




















End Binary64Facts.

(* ===================================================================== *)
(** * [generate] in binary64: one iteration *)
(* ===================================================================== *)






(* ===================================================================== *)
(** * [generate] reads the table only *)
(* ===================================================================== *)

Section Frames.
Context {A B : Type}.

Lemma frames_ret (a : A) : frames_self (ret a).
Proof. intros w. reflexivity. Qed.

Lemma frames_raise (e : exn) : frames_self (@raise A e).
Proof. intros w. reflexivity. Qed.

Lemma frames_bind (m : M A) (k : A -> M B) :
  frames_self m -> (forall a, frames_self (k a)) -> frames_self (bind m k).
Proof.
  intros Hm Hk w. unfold bind. specialize (Hm w).
  destruct (m w) as [[a | e] w']; simpl in *.
  - now rewrite Hk.
  - exact Hm.
Qed.

Lemma frames_or_IndexError (o : option A) : frames_self (or_IndexError o).
Proof. destruct o; [ apply frames_ret | apply frames_raise ]. Qed.

Lemma frames_for_each (l : list A) (body : B -> A -> M B) (acc : B) :
  (forall acc x, frames_self (body acc x)) -> frames_self (for_each l body acc).
Proof.
  intros Hbody. revert acc. induction l as [ | x l IH ]; intros acc; simpl.
  - intros w. reflexivity.
  - intros w. unfold bind. specialize (Hbody acc x w).
    destruct (body acc x w) as [[acc' | e] w']; simpl in *.
    + now rewrite IH.
    + exact Hbody.
Qed.
End Frames.

Lemma frames_get_order : frames_self get_order.
Proof. intros w. reflexivity. Qed.

Lemma frames_get_model : frames_self get_model.
Proof. intros w. reflexivity. Qed.

Lemma frames_random : frames_self random.
Proof. intros w. reflexivity. Qed.

Create HintDb frames.

#[local] Hint Resolve frames_ret frames_raise frames_or_IndexError
  frames_get_order frames_get_model frames_random : frames.

Ltac frames :=
  repeat first
    [ apply frames_bind; [ | intro ]
    | solve [ auto with frames ] ].

Lemma frames_random_choice {A} (l : list A) : frames_self (random_choice l).
Proof.
  unfold random_choice, randbelow.
  destruct (Py.len l =? 0); frames.
Qed.

Lemma frames_probabilities_of counts total :
  frames_self (probabilities_of counts total).
Proof.
  induction counts as [ | c counts IH ]; simpl; [ frames | ].
  apply frames_bind; [ | intro ].
  - unfold true_div. destruct (total =? 0); frames.
  - apply frames_bind; [ exact IH | intro; frames ].
Qed.

Lemma frames_random_choices1 {A} (population : list A) weights :
  frames_self (random_choices1 population weights).
Proof.
  unfold random_choices1.
  destruct (negb _); [ frames | ].
  apply frames_bind; [ frames | intro t ].
  destruct (Qle_bool t 0); frames.
Qed.

Lemma frames_weighted_successor c : frames_self (weighted_successor c).
Proof.
  unfold weighted_successor, unzip_items.
  apply frames_bind; [ apply frames_probabilities_of | intro ].
  apply frames_random_choices1.
Qed.

Lemma frames_generate_step states locals :
  frames_self (generate_step states locals).
Proof.
  unfold generate_step. destruct locals as [cur result].
  apply frames_bind; [ frames | intro m ].
  apply frames_bind.
  - destruct (Py.get Ctx_eq_dec m cur) as [[ | item items] | ].
    + apply frames_bind; [ apply frames_random_choice | intro ].
      apply frames_bind; [ apply frames_random_choice | intro; frames ].
    + apply frames_bind; [ apply frames_weighted_successor | intro; frames ].
    + apply frames_bind; [ apply frames_random_choice | intro ].
      apply frames_bind; [ apply frames_random_choice | intro; frames ].
  - intros [cur' x]. frames.
Qed.

Lemma frames_generate length : frames_self (generate length).
Proof.
  unfold generate.
  apply frames_bind; [ frames | intro m ].
  destruct m as [ | e m ]; [ frames | ].
  apply frames_bind; [ frames | intro o ].
  destruct (length <=? o); [ frames | ].
  apply frames_bind; [ frames | intro m' ].
  apply frames_bind; [ apply frames_random_choice | intro seed ].
  apply frames_bind; [ frames | intro o' ].
  apply frames_bind.
  - apply frames_for_each. intros acc x. apply frames_generate_step.
  - intros [cur result]. frames.
Qed.

(** The subscript [self.model[k]], by contrast, writes to the table when
    the key is absent. *)
Lemma model_getitem_inserts (k : Ctx) w :
  Py.get Ctx_eq_dec (model (self w)) k = None ->
  model (self (snd (model_getitem k w)))
  = Py.set Ctx_eq_dec (model (self w)) k [].
Proof.
  intros H. unfold model_getitem, bind, get_model, put_model. simpl.
  now rewrite H.
Qed.

(** C9. For every state of the chain and of the random source and every
    call of [generate], returning or raising, the object is the same
    afterwards: the transition table has the same entries in the same
    order, and the order is unchanged. *)
Theorem generate_leaves_table (length : Z) (w : World) :
  self (snd (generate length w)) = self w /\
  model (self (snd (generate length w))) = model (self w).
Proof.
  pose proof (frames_generate length w) as H.
  split; [ exact H | now rewrite H ].
Qed.

(* ===================================================================== *)
(** * The errors *)
(* ===================================================================== *)

Lemma generate_raises_empty order r length :
  generate length (world order [] r) = (Raise empty_model_error, world order [] r).
Proof. reflexivity. Qed.

Lemma generate_raises_length order (m : Model) r length :
  m <> [] -> length <= order ->
  generate length (world order m r)
  = (Raise (generate_length_error length order), world order m r).
Proof.
  intros Hm Hlen. destruct m as [ | e m ]; [ contradiction | ].
  unfold generate, bind, get_model, get_order. simpl.
  destruct (length <=? order) eqn:E; [ reflexivity | lia ].
Qed.

Lemma empty_model_error_not_length length order :
  empty_model_error <> generate_length_error length order.
Proof. unfold empty_model_error, generate_length_error. simpl. discriminate. Qed.

Lemma outcome_empty_not_length {A} length order :
  @Raise A empty_model_error <> Raise (generate_length_error length order).
Proof.
  intros H. injection H as H.
  now apply (empty_model_error_not_length length order).
Qed.

(** C6, as the code has it. For a chain of positive order on a table of
    the data model: [train s] raises if and only if [len s <= order], and
    the error is the [ValueError] whose message spells the order and the
    length of the sequence; [generate] raises the empty-model error if and
    only if the table is empty, raises the length error if and only if
    the table is non-empty and [length <= order], and returns otherwise;
    a raising call leaves the object and the random source untouched. *)
Theorem errors_raised (order length : Z) (s : list NotePair) (m : Model) (r : Rng) :
  1 <= order -> wf_model order m -> tape_ok r ->
  let w := world order m r in
  (fst (train s w) = Raise (InsufficientDataError order (Py.len s))
   <-> Py.len s <= order) /\
  (fst (train s w) = Ok tt <-> order < Py.len s) /\
  InsufficientDataError order (Py.len s)
  = ValueError ("Cannot train MarkovChain(order=" ++ Py.str order
                ++ ") on sequence of length=" ++ Py.str (Py.len s) ++ ".")%string /\
  (fst (generate length w) = Raise EmptyModelError <-> m = []) /\
  (fst (generate length w) = Raise (InsufficientLengthError length order)
   <-> m <> [] /\ length <= order) /\
  ((exists result, fst (generate length w) = Ok result)
   <-> m <> [] /\ order < length) /\
  (Py.len s <= order -> snd (train s w) = w) /\
  (m = [] \/ length <= order -> snd (generate length w) = w).
Proof.
  intros Horder Hwf Htape w. subst w.
  assert (Htrain : forall (P : outcome unit * World -> Prop),
    (Py.len s <= order ->
     P (Raise (train_error order (Py.len s)), world order m r)) ->
    (order < Py.len s ->
     P (Ok tt, world order (train_model order s m) r)) ->
    P (train s (world order m r))).
  { intros P H1 H2. destruct (Z.le_gt_cases (Py.len s) order) as [H | H].
    - rewrite train_raises by assumption. auto.
    - rewrite train_returns by lia. apply H2. lia. }
  assert (Hgen : forall (P : outcome (list NotePair) * World -> Prop),
    (m = [] -> P (Raise empty_model_error, world order m r)) ->
    (m <> [] -> length <= order ->
     P (Raise (generate_length_error length order), world order m r)) ->
    (m <> [] -> order < length -> forall result w', P (Ok result, w')) ->
    P (generate length (world order m r))).
  { intros P H1 H2 H3. destruct m as [ | e m' ] eqn:Em.
    - rewrite generate_raises_empty. now apply H1.
    - rewrite <- Em in *. assert (Hm : m <> []) by (rewrite Em; discriminate).
      destruct (Z.le_gt_cases length order) as [H | H].
      + rewrite generate_raises_length by assumption. now apply H2.
      + assert (Hlt : order < length) by lia.
        destruct (generate_returns order m r length (fun _ _ => True)
                    Horder Hwf Hm Hlt Htape (fun _ _ _ _ _ _ _ => I))
          as (result & w' & -> & _).
        now apply H3. }
  unfold InsufficientDataError, EmptyModelError, InsufficientLengthError.
  split; [ | split; [ | split; [ reflexivity | ] ] ].
  - apply Htrain; simpl; intros H; split; intros H'; auto; try discriminate; lia.
  - apply Htrain; simpl; intros H; split; intros H'; auto; try discriminate; lia.
  - split; [ | split; [ | split; [ | split ] ] ].
    + apply Hgen; simpl.
      * intros ->. tauto.
      * intros Hm _. split; [ intros H | contradiction ].
        symmetry in H. now apply outcome_empty_not_length in H.
      * intros Hm _ result w'. split; [ discriminate | contradiction ].
    + apply Hgen; simpl.
      * intros ->. split; [ intros H | intros [Hm _]; contradiction ].
        now apply outcome_empty_not_length in H.
      * intros Hm H. tauto.
      * intros Hm H result w'. split; [ discriminate | lia ].
    + apply Hgen; simpl.
      * intros ->. split; [ intros [result [=]] | intros [Hm _]; contradiction ].
      * intros Hm H. split; [ intros [result [=]] | lia ].
      * intros Hm H result w'. split; [ tauto | intros _; now exists result ].
    + apply Htrain; simpl; intros H; [ reflexivity | lia ].
    + apply Hgen; simpl.
      * reflexivity.
      * reflexivity.
      * intros Hm H result w' [E | H']; [ contradiction | lia ].
Qed.

(* ===================================================================== *)
(** * Training keeps the table within the data model *)
(* ===================================================================== *)

Lemma counter_get_nonneg (c : Counter) (x : NotePair) :
  counter_ok c -> 0 <= counter_get c x.
Proof.
  intros Hok. unfold counter_get.
  destruct (Py.get NotePair_eq_dec c x) as [n | ] eqn:E; [ | lia ].
  apply get_Some_In in E. unfold counter_ok in Hok.
  rewrite Forall_forall in Hok. specialize (Hok _ E). simpl in Hok. lia.
Qed.

Lemma counter_ok_increment (c : Counter) (x : NotePair) :
  counter_ok c ->
  counter_ok (Py.set NotePair_eq_dec c x (counter_get c x + 1)).
Proof.
  intros Hok. pose proof (counter_get_nonneg c x Hok) as Hx.
  unfold counter_ok in *. rewrite Forall_forall in *.
  intros e He. apply In_set in He. destruct He as [He | ->].
  - now apply Hok.
  - simpl. lia.
Qed.

Lemma wf_add_transition order (m : Model) (ctx : Ctx) (x : NotePair) :
  wf_model order m -> Py.len ctx = order ->
  wf_model order (add_transition m ctx x).
Proof.
  intros Hwf Hctx. unfold add_transition.
  assert (Hc : counter_ok
                 match Py.get Ctx_eq_dec m ctx with Some c => c | None => [] end).
  { destruct (Py.get Ctx_eq_dec m ctx) as [c | ] eqn:E.
    - now apply (wf_model_get order m ctx c).
    - constructor. }
  unfold wf_model in *. rewrite Forall_forall in *.
  intros e He. apply In_set in He. destruct He as [He | ->].
  - now apply Hwf.
  - simpl. split; [ exact Hctx | now apply counter_ok_increment ].
Qed.

Lemma window_context_length order s i :
  0 <= order -> (i + Z.to_nat order < List.length s)%nat ->
  Py.len (window_context order s i) = order.
Proof.
  intros H0 Hi. unfold window_context, Py.len.
  rewrite length_firstn, length_skipn. lia.
Qed.

Lemma wf_train_model order s (m : Model) :
  1 <= order -> order < Py.len s ->
  wf_model order m -> wf_model order (train_model order s m).
Proof.
  intros Horder Hlen Hwf. unfold train_model, count_windows.
  assert (Hloop : wf_model order
            (fold_left (count_window order s) (window_starts order s) m)).
  { generalize (window_starts_bound order s).
    generalize (window_starts order s) as starts.
    intros starts. revert m Hwf.
    induction starts as [ | i starts IH ]; intros m Hwf Hb; simpl.
    - exact Hwf.
    - apply IH; [ | intros; apply Hb; now right ].
      unfold count_window. destruct (window_successor order s i); [ | exact Hwf ].
      apply wf_add_transition; [ exact Hwf | ].
      apply window_context_length; [ lia | apply Hb; now left ]. }
  unfold Py.setdefault.
  destruct (Py.get Ctx_eq_dec _ _) as [c | ]; [ exact Hloop | ].
  unfold wf_model in *. rewrite Forall_forall in *.
  intros e He. apply In_set in He. destruct He as [He | ->].
  - now apply Hloop.
  - simpl. split; [ | constructor ].
    rewrite tail_context_slice by assumption.
    apply tail_context_length; lia.
Qed.

Lemma train_Ok_inv order s (m m' : Model) r r' :
  0 <= order ->
  train s (world order m r) = (Ok tt, world order m' r') ->
  order < Py.len s /\ m' = train_model order s m.
Proof.
  intros Horder Hrun. destruct (Z.le_gt_cases (Py.len s) order) as [H | H].
  - rewrite train_raises in Hrun by assumption. discriminate.
  - rewrite train_returns in Hrun by lia. injection Hrun as <- _.
    split; [ lia | reflexivity ].
Qed.

(** The tables of a chain of positive order are tables of the data
    model. *)
Lemma trained_wf order ss (m : Model) :
  1 <= order -> trained order ss m -> wf_model order m.
Proof.
  intros Horder Ht. induction Ht as [ | ss m m' s r r' Ht IH Hrun ].
  - constructor.
  - apply train_Ok_inv in Hrun; [ | lia ]. destruct Hrun as [Hlen ->].
    now apply wf_train_model.
Qed.

(* ===================================================================== *)
(** * Generated pairs come from the training data *)
(* ===================================================================== *)

Lemma model_within_incl (D D' : list NotePair) (m : Model) :
  incl D D' -> model_within D m -> model_within D' m.
Proof.
  intros Hincl Hm k c Hin. destruct (Hm k c Hin) as [Hk Hc].
  split; intros; apply Hincl; eauto.
Qed.

Lemma model_within_set (D : list NotePair) (m : Model) (k : Ctx) (c : Counter) :
  model_within D m ->
  (forall x, In x k -> In x D) -> (forall x n, In (x, n) c -> In x D) ->
  model_within D (Py.set Ctx_eq_dec m k c).
Proof.
  intros Hm Hk Hc k' c' Hin. apply In_set in Hin.
  destruct Hin as [Hin | [= -> ->]]; [ now apply Hm | now split ].
Qed.

Lemma model_within_get (D : list NotePair) (m : Model) (k : Ctx) (c : Counter) :
  model_within D m -> Py.get Ctx_eq_dec m k = Some c ->
  (forall x, In x k -> In x D) /\ (forall x n, In (x, n) c -> In x D).
Proof. intros Hm Hget. apply Hm. now apply get_Some_In in Hget. Qed.

Lemma model_increment_within (D : list NotePair) (k : Ctx) (x : NotePair) w :
  model_within D (model (self w)) ->
  (forall y, In y k -> In y D) -> In x D ->
  ensures (model_increment k x) w
    (fun _ w' => model_within D (model (self w'))).
Proof.
  intros Hm Hk Hx [] w' Hrun.
  destruct (model_increment_returns k x w (fun _ w1 => w1 = w1 /\
              w1 = world (order (self w)) (add_transition (model (self w)) k x) (rng w)))
    as ([] & w1 & Hrun1 & _ & ->); [ now split | ].
  rewrite Hrun1 in Hrun. injection Hrun as <-. simpl.
  unfold add_transition. apply model_within_set; [ assumption | assumption | ].
  intros y n Hin. apply In_set in Hin. destruct Hin as [Hin | [= -> _]]; [ | exact Hx ].
  destruct (Py.get Ctx_eq_dec (model (self w)) k) as [c | ] eqn:E; [ | destruct Hin ].
  destruct (model_within_get D _ k c Hm E) as [_ Hc]. now apply (Hc y n).
Qed.

(** [train] keeps the table within the data once [s] belongs to it. *)
Lemma train_within (D : list NotePair) (s : list NotePair) w :
  model_within D (model (self w)) -> incl s D ->
  ensures (train s) w (fun _ w' => model_within D (model (self w'))).
Proof.
  intros Hm Hs. unfold train. step_ensures. step_ensures.
  destruct (Py.len s <=? order (self w)); [ step_ensures | ].
  step_ensures. step_ensures. step_ensures.
  eapply ensures_weaken.
  - apply (for_each_ensures _
             (fun _ (_ : unit) w' => model_within D (model (self w')))).
    + exact Hm.
    + intros visited i [] w0 H0.
      step_ensures. step_ensures. step_ensures. step_ensures. step_ensures.
      apply ensures_or_IndexError. intros x Hx.
      apply model_increment_within; [ exact H0 | | ].
      * intros y Hy. apply Hs. now apply slice_incl in Hy.
      * apply Hs. now apply index_In in Hx.
  - intros [] w1 H1. simpl. step_ensures. step_ensures.
    unfold model_setdefault. step_ensures. step_ensures. step_ensures. simpl.
    unfold Py.setdefault.
    destruct (Py.get Ctx_eq_dec (model (self w1)) _); [ exact H1 | ].
    apply model_within_set; [ exact H1 | | intros y n [] ].
    intros y Hy. apply Hs. now apply slice_incl in Hy.
Qed.

Lemma trained_within order ss (m : Model) :
  trained order ss m -> model_within (List.concat ss) m.
Proof.
  intros Ht. induction Ht as [ | ss m m' s r r' Ht IH Hrun ].
  - intros k c [].
  - rewrite concat_app. simpl. rewrite app_nil_r.
    apply (train_within (List.concat ss ++ s) s (world order m r)) in Hrun.
    + exact Hrun.
    + simpl. eapply model_within_incl; [ | exact IH ]. now apply incl_appl.
    + now apply incl_appr.
Qed.

Section EnsuresMore.
Context {A : Type}.

Lemma ensures_True (m : M A) w : ensures m w (fun _ _ => True).
Proof. intros a w' _. exact I. Qed.

Lemma ensures_and (m : M A) w (Q1 Q2 : A -> World -> Prop) :
  ensures m w Q1 -> ensures m w Q2 ->
  ensures m w (fun a w' => Q1 a w' /\ Q2 a w').
Proof. intros H1 H2 a w' Hrun. split; [ now apply H1 | now apply H2 ]. Qed.

Lemma frames_ensures (m : M A) w :
  frames_self m -> ensures m w (fun _ w' => self w' = self w).
Proof. intros Hf a w' Hrun. specialize (Hf w). now rewrite Hrun in Hf. Qed.

(** Sequencing with an intermediate assertion. *)
Lemma ensures_seq {B} (m : M A) (k : A -> M B) w
    (P : A -> World -> Prop) (Q : B -> World -> Prop) :
  ensures m w P -> (forall a w', P a w' -> ensures (k a) w' Q) ->
  ensures (bind m k) w Q.
Proof.
  intros Hm Hk. apply ensures_bind. eapply ensures_weaken; [ exact Hm | exact Hk ].
Qed.
End EnsuresMore.

Lemma random_choice_In {A} (l : list A) w :
  ensures (random_choice l) w (fun x _ => In x l).
Proof.
  unfold random_choice. destruct (Py.len l =? 0); [ step_ensures | ].
  apply (ensures_seq _ _ _ (fun _ _ => True)); [ apply ensures_True | ].
  intros i w' _. apply ensures_or_IndexError. intros x Hx.
  now apply index_In in Hx.
Qed.

Lemma random_choices1_In {A} (population : list A) weights w :
  ensures (random_choices1 population weights) w (fun x _ => In x population).
Proof.
  unfold random_choices1. destruct (negb _); [ step_ensures | ].
  apply (ensures_seq _ _ _ (fun _ _ => True)); [ apply ensures_True | ].
  intros t w' _. destruct (Qle_bool t 0); [ step_ensures | ].
  apply (ensures_seq _ _ _ (fun _ _ => True)); [ apply ensures_True | ].
  intros u w'' _. apply ensures_or_IndexError. intros x Hx.
  now apply nth_error_In in Hx.
Qed.

Lemma weighted_successor_In (c : Counter) w :
  ensures (weighted_successor c) w (fun x _ => In x (map fst c)).
Proof.
  unfold weighted_successor, unzip_items, Py.items.
  apply (ensures_seq _ _ _ (fun _ _ => True)); [ apply ensures_True | ].
  intros ps w' _. apply random_choices1_In.
Qed.

Lemma generate_step_within (D : list NotePair) states cur result w :
  model_within D (model (self w)) ->
  (forall k x, In k states -> In x k -> In x D) ->
  (forall x, In x result -> In x D) ->
  ensures (generate_step states (cur, result)) w
    (fun lr _ => forall x, In x (snd lr) -> In x D).
Proof.
  intros Hm Hstates Hres. unfold generate_step.
  step_ensures. step_ensures.
  apply (ensures_seq _ _ _ (fun cn _ => In (snd cn) D)).
  - destruct (Py.get Ctx_eq_dec (model (self w)) cur) as [[ | item items] | ] eqn:E.
    + apply (ensures_seq _ _ _ (fun k _ => In k states)); [ apply random_choice_In | ].
      intros k w1 Hk.
      apply (ensures_seq _ _ _ (fun x _ => In x k)); [ apply random_choice_In | ].
      intros x w2 Hx. step_ensures. simpl. now apply (Hstates k).
    + apply (ensures_seq _ _ _ (fun x _ => In x (map fst (item :: items))));
        [ apply weighted_successor_In | ].
      intros x w1 Hx. step_ensures. simpl.
      apply in_map_iff in Hx. destruct Hx as ([y n] & <- & Hin).
      destruct (model_within_get D _ cur _ Hm E) as [_ Hc]. now apply (Hc y n).
    + apply (ensures_seq _ _ _ (fun k _ => In k states)); [ apply random_choice_In | ].
      intros k w1 Hk.
      apply (ensures_seq _ _ _ (fun x _ => In x k)); [ apply random_choice_In | ].
      intros x w2 Hx. step_ensures. simpl. now apply (Hstates k).
  - intros [cur' x] w1 Hx. simpl in Hx.
    step_ensures. step_ensures. step_ensures. simpl.
    intros y Hy. apply in_app_or in Hy. destruct Hy as [Hy | [<- | []]]; auto.
Qed.

Lemma model_within_keys (D : list NotePair) (m : Model) (k : Ctx) (x : NotePair) :
  model_within D m -> In k (Py.keys m) -> In x k -> In x D.
Proof.
  intros Hm Hk Hx. apply (get_Some_keys Ctx_eq_dec) in Hk. destruct Hk as [c Hc].
  destruct (model_within_get D m k c Hm Hc) as [H _]. now apply H.
Qed.

(** Every pair that [generate] outputs is held by the table. *)
Lemma generate_within (D : list NotePair) length w :
  model_within D (model (self w)) ->
  ensures (generate length) w (fun result _ => forall x, In x result -> In x D).
Proof.
  intros Hm. unfold generate. step_ensures. step_ensures.
  destruct (model (self w)) as [ | e m' ] eqn:Em; [ step_ensures | ].
  rewrite <- Em in *. clear e m' Em.
  step_ensures. step_ensures.
  destruct (length <=? order (self w)); [ step_ensures | ].
  step_ensures. step_ensures.
  apply (ensures_seq _ _ _
           (fun seed w' => In seed (Py.keys (model (self w))) /\ self w' = self w)).
  { apply ensures_and; [ apply random_choice_In | ].
    apply frames_ensures, frames_random_choice. }
  intros seed w1 [Hseed Hself]. step_ensures. step_ensures.
  apply (ensures_seq _ _ _
           (fun lr _ => forall x, In x (snd lr) -> In x D)).
  - eapply ensures_weaken.
    + apply (for_each_ensures _
               (fun _ (lr : Ctx * list NotePair) w' =>
                  self w' = self w /\ forall x, In x (snd lr) -> In x D)).
      * split; [ exact Hself | ]. simpl. intros x Hx.
        now apply (model_within_keys D (model (self w)) seed).
      * intros visited i [cur result] w2 [Hself2 Hres].
        apply ensures_and.
        -- eapply ensures_weaken;
             [ apply frames_ensures, frames_generate_step | ].
           intros lr w3 H3. simpl in H3. congruence.
        -- apply generate_step_within; [ now rewrite Hself2 | | exact Hres ].
           intros k x Hk Hx. now apply (model_within_keys D (model (self w)) k).
    + intros lr w2 [_ H]. exact H.
  - intros [cur result] w2 H. step_ensures. exact H.
Qed.

(** C10. For every table built by successful [train] calls and every
    output of [generate] on it, each element of the output is an element
    of one of the sequences trained on. *)
Theorem generate_from_training_data (order length : Z)
    (ss : list (list NotePair)) (m : Model) (r : Rng)
    (result : list NotePair) (w' : World) :
  trained order ss m ->
  generate length (world order m r) = (Ok result, w') ->
  forall x, In x result -> exists s, In s ss /\ In x s.
Proof.
  intros Ht Hrun x Hx.
  apply in_concat.
  apply (generate_within (List.concat ss) length (world order m r)
           (trained_within order ss m Ht) result w' Hrun x Hx).
Qed.

(* ===================================================================== *)
(** * The event pairer *)
(* ===================================================================== *)

Lemma matching_off_fields (note : Z) (msg2 : Message) :
  matching_off note msg2
  = if is_end_for note msg2 then Some (fields msg2) else None.
Proof.
  destruct msg2 as [n v t | n v t | tempo t | ty t]; simpl; try reflexivity.
Qed.

Lemma look_ahead_find (note : Z) (rest : list Message) :
  look_ahead note rest = option_map fields (find (is_end_for note) rest).
Proof.
  induction rest as [ | msg2 rest IH ]; simpl; [ reflexivity | ].
  rewrite matching_off_fields.
  destruct (is_end_for note msg2); [ reflexivity | exact IH ].
Qed.

Lemma extract_step_spec d (pre later : list Message) (e : Message) pairs :
  extract_step d (pre ++ e :: later) pairs (Py.len pre, e)
  = pairs ++ (if is_begin e
              then [(fields e, paired_end d (fst (fst (fields e))) later)]
              else []).
Proof.
  assert (Hlater : Py.slice (pre ++ e :: later) (Some (Py.len pre + 1)) None = later).
  { pose proof (len_nonneg pre). rewrite slice_from by lia.
    replace (Z.to_nat (Py.len pre + 1)) with (List.length (pre ++ [e]))
      by (rewrite length_app; unfold Py.len; simpl; lia).
    replace (pre ++ e :: later) with ((pre ++ [e]) ++ later)
      by (now rewrite <- app_assoc).
    rewrite skipn_app, skipn_all, Nat.sub_diag. reflexivity. }
  unfold extract_step.
  destruct e as [n v t | n v t | tempo t | ty t]; simpl is_begin;
    cbv iota; rewrite ?app_nil_r; try reflexivity.
  rewrite Hlater, look_ahead_find.
  replace (v >? 0) with (0 <? v) by (rewrite Z.gtb_ltb; reflexivity).
  destruct (0 <? v); [ | now rewrite app_nil_r ].
  unfold paired_end. simpl fields. simpl fst.
  now destruct (find (is_end_for n) later).
Qed.

Lemma extract_fold d (later pre : list Message) pairs :
  fold_left (extract_step d (pre ++ later))
    (Py.enumerate_from (Py.len pre) later) pairs
  = pairs ++ pair_events d later.
Proof.
  revert pre pairs. induction later as [ | e later IH ]; intros pre pairs;
    cbn [Py.enumerate_from fold_left pair_events].
  - now rewrite app_nil_r.
  - rewrite extract_step_spec.
    replace (pre ++ e :: later) with ((pre ++ [e]) ++ later)
      by (now rewrite <- app_assoc).
    replace (Py.len pre + 1) with (Py.len (pre ++ [e]))
      by (rewrite len_app; reflexivity).
    rewrite IH. rewrite <- app_assoc.
    now destruct (is_begin e).
Qed.

Lemma extract_track_spec d pairs (track : list Message) :
  extract_track d pairs track = pairs ++ pair_events d track.
Proof. unfold extract_track, Py.enumerate. apply (extract_fold d track []). Qed.

Lemma extract_tracks_spec d (ts : list (list Message)) pairs :
  fold_left (extract_track d) ts pairs
  = pairs ++ flat_map (pair_events d) ts.
Proof.
  revert pairs. induction ts as [ | track ts IH ]; intros pairs; simpl.
  - now rewrite app_nil_r.
  - now rewrite IH, extract_track_spec, <- app_assoc.
Qed.

(** A file of several tracks is paired track by track. *)
Lemma extract_notes_tracks (mid : MidiFile) (default_off_time : option Z) :
  extract_notes mid default_off_time
  = flat_map
      (pair_events match default_off_time with Some t => t | None => 480 end)
      (tracks mid).
Proof. unfold extract_notes. now rewrite extract_tracks_spec. Qed.

Lemma pair_events_begins d (events : list Message) :
  map fst (pair_events d events) = map fields (filter is_begin events).
Proof.
  induction events as [ | e later IH ]; simpl; [ reflexivity | ].
  destruct (is_begin e); simpl; now rewrite IH.
Qed.

Lemma pair_events_nth d (events : list Message) :
  forall (i : nat) (e : Message),
    nth_error events i = Some e -> is_begin e = true ->
    nth_error (pair_events d events)
      (List.length (filter is_begin (firstn i events)))
    = Some (fields e, paired_end d (fst (fst (fields e))) (skipn (S i) events)).
Proof.
  induction events as [ | e0 later IH ]; intros i e Hi He.
  - destruct i; discriminate.
  - destruct i as [ | i ].
    + injection Hi as ->. simpl. now rewrite He.
    + simpl in Hi. specialize (IH i e Hi He).
      change (firstn (S i) (e0 :: later)) with (e0 :: firstn i later).
      change (skipn (S (S i)) (e0 :: later)) with (skipn (S i) later).
      simpl. destruct (is_begin e0); simpl; exact IH.
Qed.

(** The invariant of a pair holds of every pair the pairer builds. *)
Lemma pair_events_ok d (events : list Message) :
  Forall pair_ok (pair_events d events).
Proof.
  induction events as [ | e later IH ]; simpl; [ constructor | ].
  destruct (is_begin e) eqn:He; [ | exact IH ].
  constructor; [ | exact IH ].
  unfold pair_ok, paired_end. simpl.
  destruct (find (is_end_for (fst (fst (fields e)))) later) as [e' | ] eqn:E;
    [ | reflexivity ].
  apply find_some in E. destruct E as [_ E].
  destruct e' as [n v t | n v t | tempo t | ty t]; simpl in *;
    try discriminate.
  - apply andb_true_iff in E. destruct E as [_ E]. apply Z.eqb_eq in E. now subst.
  - apply Z.eqb_eq in E. now subst.
Qed.

(** C4. For every ordered sequence of raw events handed over as a track,
    the pairer yields one pair per begin event of positive velocity, in
    the order of the begins; the begin at position [i] is paired with the
    first event after [i], in the track as given, that is an explicit end
    or a begin of velocity 0 and has its pitch, and otherwise with the
    synthesized end (same pitch, velocity 0, [default_off_time]); the
    default of [default_off_time] is 480; an empty input gives an empty
    output. *)
Theorem extract_notes_pairs (ticks d : Z) (track : list Message) :
  let mid := {| ticks_per_beat := ticks; tracks := [track] |} in
  extract_notes mid (Some d) = pair_events d track /\
  extract_notes mid None = extract_notes mid (Some 480) /\
  List.length (extract_notes mid (Some d))
  = List.length (filter is_begin track) /\
  map fst (extract_notes mid (Some d)) = map fields (filter is_begin track) /\
  (forall (i : nat) (e : Message),
      nth_error track i = Some e -> is_begin e = true ->
      nth_error (extract_notes mid (Some d))
        (List.length (filter is_begin (firstn i track)))
      = Some (fields e,
              match find (is_end_for (fst (fst (fields e)))) (skipn (S i) track) with
              | Some e' => fields e'
              | None => (fst (fst (fields e)), 0, d)
              end)) /\
  extract_notes {| ticks_per_beat := ticks; tracks := [[]] |} (Some d) = [] /\
  extract_notes {| ticks_per_beat := ticks; tracks := [] |} (Some d) = [].
Proof.
  intros mid.
  assert (H : forall d', extract_notes mid (Some d') = pair_events d' track).
  { intros d'. rewrite extract_notes_tracks. simpl. now rewrite app_nil_r. }
  split; [ apply H | ].
  split; [ reflexivity | ].
  rewrite H.
  split; [ | split; [ apply pair_events_begins | split; [ | split; reflexivity ] ] ].
  - transitivity (List.length (map fst (pair_events d track)));
      [ now rewrite length_map | ].
    rewrite pair_events_begins. apply length_map.
  - intros i e Hi He. now apply pair_events_nth.
Qed.

(** Matching is by value: two begins of one pitch are both closed by the
    one end that follows them. *)
Example extract_notes_shared_end :
  extract_notes
    {| ticks_per_beat := 480;
       tracks := [[note_on 60 100 0; note_on 60 90 5; note_off 60 0 10]] |} None
  = [((60, 100, 0), (60, 0, 10)); ((60, 90, 5), (60, 0, 10))].
Proof. reflexivity. Qed.

(** The two pairer examples of the specification. *)
Example extract_notes_matched :
  extract_notes
    {| ticks_per_beat := 480;
       tracks := [[note_on 60 100 0; note_off 60 0 10;
                   note_on 64 90 5; note_off 64 0 15]] |} None
  = [((60, 100, 0), (60, 0, 10)); ((64, 90, 5), (64, 0, 15))].
Proof. reflexivity. Qed.

Example extract_notes_fallback :
  extract_notes {| ticks_per_beat := 480; tracks := [[note_on 60 100 0]] |}
    (Some 480)
  = [((60, 100, 0), (60, 0, 480))].
Proof. reflexivity. Qed.

(* ===================================================================== *)
(** * The serializer *)
(* ===================================================================== *)

Lemma data_byte_dec (v : Z) : {data_byte v} + {~ data_byte v}.
Proof.
  unfold data_byte.
  destruct (Z_le_dec 0 v); [ destruct (Z_le_dec v 127) | ];
    (left; lia) || (right; lia).
Qed.

Lemma check_data_byte_ok (v : Z) : data_byte v -> check_data_byte v = Ok tt.
Proof.
  unfold data_byte, check_data_byte. intros [H0 H1].
  apply Z.leb_le in H0, H1. now rewrite H0, H1.
Qed.

Lemma check_data_byte_raises (v : Z) :
  ~ data_byte v ->
  check_data_byte v = Raise (ValueError "data byte must be in range 0..127").
Proof.
  unfold data_byte, check_data_byte. intros H.
  destruct (0 <=? v) eqn:E0; destruct (v <=? 127) eqn:E1; simpl;
    try reflexivity.
  apply Z.leb_le in E0, E1. lia.
Qed.

Lemma bytes_ok_dec (p : NotePair) : {bytes_ok p} + {~ bytes_ok p}.
Proof.
  unfold bytes_ok.
  destruct (data_byte_dec (fst (fst (fst p)))); [ | right; tauto ].
  destruct (data_byte_dec (snd (fst (fst p)))); [ | right; tauto ].
  destruct (data_byte_dec (snd (fst (snd p)))); [ left | right ]; tauto.
Qed.

(** One turn of the loop: with the three data bytes in range the two
    messages are appended, and otherwise the library refuses to build
    one of them. *)
Lemma save_step_written (track : list Message) (p : NotePair) :
  bytes_ok p -> save_step track p = Ok (track ++ written p).
Proof.
  destruct p as [[[n v_on] t_on] [[n' v_off] t_off]].
  unfold bytes_ok, written. cbn [fst snd]. intros (Hn & Hon & Hoff).
  unfold save_step, new_note_on, new_note_off.
  rewrite !check_data_byte_ok by assumption. cbn [and_then].
  now rewrite <- app_assoc.
Qed.

Lemma save_step_raises (track : list Message) (p : NotePair) :
  ~ bytes_ok p -> exists msg, save_step track p = Raise (ValueError msg).
Proof.
  destruct p as [[[n v_on] t_on] [[n' v_off] t_off]].
  unfold bytes_ok. cbn [fst snd]. intros H.
  unfold save_step, new_note_on, new_note_off.
  destruct (data_byte_dec n) as [Hn | Hn];
    [ rewrite (check_data_byte_ok n Hn)
    | rewrite (check_data_byte_raises n Hn); eexists; reflexivity ].
  destruct (data_byte_dec v_on) as [Hon | Hon];
    [ rewrite (check_data_byte_ok v_on Hon)
    | rewrite (check_data_byte_raises v_on Hon); eexists; reflexivity ].
  destruct (data_byte_dec v_off) as [Hoff | Hoff];
    [ tauto | rewrite (check_data_byte_raises v_off Hoff) ].
  eexists; reflexivity.
Qed.

Lemma save_loop_written (pairs : list NotePair) (track : list Message) :
  Forall bytes_ok pairs ->
  save_loop pairs track = Ok (track ++ flat_map written pairs).
Proof.
  intros Hok. revert track.
  induction Hok as [ | p pairs Hp Hok IH ]; intros track; cbn [save_loop flat_map].
  - now rewrite app_nil_r.
  - rewrite (save_step_written track p Hp). cbn [and_then].
    rewrite IH. now rewrite <- app_assoc.
Qed.

Lemma save_loop_raises (pairs : list NotePair) (track : list Message) :
  ~ Forall bytes_ok pairs ->
  exists msg, save_loop pairs track = Raise (ValueError msg).
Proof.
  revert track. induction pairs as [ | p pairs IH ]; intros track Hbad.
  - destruct Hbad. constructor.
  - cbn [save_loop]. destruct (bytes_ok_dec p) as [Hp | Hp].
    + rewrite (save_step_written track p Hp). cbn [and_then].
      apply IH. intros Hok. apply Hbad. now constructor.
    + destruct (save_step_raises track p Hp) as [msg ->].
      exists msg. reflexivity.
Qed.

Lemma written_expand (p : NotePair) : pair_ok p -> written p = expand p.
Proof.
  destruct p as [[[p_on v_on] t_on] [[p_off v_off] t_off]].
  unfold pair_ok, written. cbn [fst snd expand]. now intros <-.
Qed.

Lemma flat_map_written_expand (pairs : list NotePair) :
  Forall pair_ok pairs -> flat_map written pairs = flat_map expand pairs.
Proof.
  intros Hok. induction Hok as [ | p pairs Hp Hok IH ]; [ reflexivity | ].
  cbn [flat_map]. now rewrite IH, written_expand.
Qed.

Lemma valid_pair_bytes (p : NotePair) : valid_pair p -> bytes_ok p.
Proof. unfold valid_pair, valid_note, bytes_ok. tauto. Qed.

Lemma valid_pair_times (p : NotePair) : valid_pair p -> times_ok p.
Proof. unfold valid_pair, valid_note, times_ok. tauto. Qed.

(** The tempo message, from the position of the tempo directive in the
    first track. *)
Lemma find_set_tempo_none (track0 : list Message) :
  no_tempo track0 -> find is_set_tempo track0 = None.
Proof.
  unfold no_tempo. intros Hno.
  induction track0 as [ | msg track0 IH ]; [ reflexivity | ].
  cbn [find]. destruct msg as [n v t | n v t | tempo t | ty t]; cbn [is_set_tempo];
    try (apply IH; intros tempo' t' Hin; apply (Hno tempo' t'); now right).
  destruct (Hno tempo t). now left.
Qed.

Lemma find_set_tempo_first (track0 : list Message) (tempo t : Z) :
  first_tempo track0 tempo t ->
  find is_set_tempo track0 = Some (set_tempo tempo t).
Proof.
  intros (before & after & -> & Hno).
  induction before as [ | msg before IH ]; [ reflexivity | ].
  cbn [app find].
  destruct msg as [n v t1 | n v t1 | tempo1 t1 | ty t1]; cbn [is_set_tempo];
    try (apply IH; intros tempo' t' Hin; apply (Hno tempo' t'); now right).
  destruct (Hno tempo1 t1). now left.
Qed.

Lemma tempo_message_first (track0 : list Message) (tempo t : Z) :
  first_tempo track0 tempo t -> tempo_message track0 = set_tempo tempo 0.
Proof.
  intros H. unfold tempo_message. now rewrite (find_set_tempo_first _ _ _ H).
Qed.

Lemma tempo_message_default (track0 : list Message) :
  no_tempo track0 -> tempo_message track0 = set_tempo 500000 0.
Proof.
  intros H. unfold tempo_message. now rewrite (find_set_tempo_none _ H).
Qed.

Lemma tempo_message_set_tempo (track0 : list Message) :
  exists tempo, tempo_message track0 = set_tempo tempo 0.
Proof.
  unfold tempo_message. destruct (find is_set_tempo track0) as [msg | ] eqn:E.
  - apply find_some in E. destruct E as [_ E].
    destruct msg as [n v t | n v t | tempo t | ty t]; try discriminate.
    now exists tempo.
  - now exists 500000.
Qed.

(** Every track holds a first tempo directive or none. *)
Lemma first_tempo_or_none (track0 : list Message) :
  (exists tempo t, first_tempo track0 tempo t) \/ no_tempo track0.
Proof.
  induction track0 as [ | msg track0 IH ].
  - right. intros tempo t [].
  - destruct msg as [n v t | n v t | tempo t | ty t].
    3: { left. exists tempo, t, [], track0. split; [ reflexivity | ].
         intros tempo' t' []. }
    all: destruct IH as [(tempo1 & t1 & before & after & -> & Hno) | Hno];
      [ left; exists tempo1, t1;
        eexists (_ :: before), after; split; [ reflexivity | ];
        intros tempo' t' [Heq | Hin]; [ discriminate | now apply (Hno tempo' t') ]
      | right; intros tempo' t' [Heq | Hin];
        [ discriminate | now apply (Hno tempo' t') ] ].
Qed.

(** The object handed to [save]. *)
Lemma save_melody_mid_out_written (pairs : list NotePair) (original : MidiFile)
    (track0 : list Message) (others : list (list Message)) :
  tracks original = track0 :: others -> Forall bytes_ok pairs ->
  save_melody_mid_out pairs original
  = Ok {| ticks_per_beat := ticks_per_beat original;
          tracks := [tempo_message track0 :: flat_map written pairs] |}.
Proof.
  intros Htracks Hok. unfold save_melody_mid_out. rewrite Htracks.
  rewrite index_nonneg by lia. cbn [Z.to_nat nth_error].
  now rewrite save_loop_written.
Qed.

Lemma save_melody_mid_out_raises (pairs : list NotePair) (original : MidiFile)
    (track0 : list Message) (others : list (list Message)) :
  tracks original = track0 :: others -> ~ Forall bytes_ok pairs ->
  exists msg, save_melody_mid_out pairs original = Raise (ValueError msg).
Proof.
  intros Htracks Hbad. unfold save_melody_mid_out. rewrite Htracks.
  rewrite index_nonneg by lia. cbn [Z.to_nat nth_error].
  destruct (save_loop_raises pairs [tempo_message track0] Hbad) as [msg ->].
  now exists msg.
Qed.

(** Writing a track that holds no end-of-track message. *)
Lemma fix_end_of_track_plain (track : list Message) :
  Forall (fun msg => is_end_of_track msg = false) track ->
  fix_end_of_track 0 track = track ++ [end_of_track 0].
Proof.
  intros H. induction H as [ | msg track Hmsg H IH ]; [ reflexivity | ].
  cbn [fix_end_of_track app]. rewrite Hmsg. cbn [Z.eqb]. now rewrite IH.
Qed.

Lemma write_track_plain (track : list Message) :
  Forall (fun msg => is_end_of_track msg = false) track ->
  Forall (fun msg => 0 <= time_of msg) track ->
  write_track track = Ok (track ++ [end_of_track 0]).
Proof.
  intros Hplain Htimes. unfold write_track.
  rewrite (fix_end_of_track_plain track Hplain).
  replace (forallb (fun msg => 0 <=? time_of msg) (track ++ [end_of_track 0]))
    with true; [ reflexivity | ].
  symmetry. apply forallb_forall. intros msg Hin. apply Z.leb_le.
  apply in_app_or in Hin. destruct Hin as [Hin | [<- | []]].
  - rewrite Forall_forall in Htimes. now apply Htimes.
  - simpl. lia.
Qed.

Lemma write_track_negative (track : list Message) :
  Forall (fun msg => is_end_of_track msg = false) track ->
  ~ Forall (fun msg => 0 <= time_of msg) track ->
  exists msg, write_track track = Raise (ValueError msg).
Proof.
  intros Hplain Hneg. unfold write_track.
  rewrite (fix_end_of_track_plain track Hplain).
  destruct (forallb (fun msg => 0 <=? time_of msg) (track ++ [end_of_track 0]))
    eqn:E; [ | eexists; reflexivity ].
  destruct Hneg. apply Forall_forall. intros msg Hin. apply Z.leb_le.
  rewrite forallb_forall in E. apply E. apply in_or_app. now left.
Qed.

Lemma written_plain (pairs : list NotePair) :
  Forall (fun msg => is_end_of_track msg = false) (flat_map written pairs).
Proof.
  induction pairs as [ | p pairs IH ]; [ constructor | ].
  cbn [flat_map written app]. repeat constructor. exact IH.
Qed.

Lemma written_times (pairs : list NotePair) :
  Forall times_ok pairs <->
  Forall (fun msg => 0 <= time_of msg) (flat_map written pairs).
Proof.
  induction pairs as [ | p pairs IH ]; [ split; constructor | ].
  cbn [flat_map written app]. split.
  - intros H. inversion H as [ | ? ? [H1 H2] H3 ]; subst.
    constructor; [ exact H1 | constructor; [ exact H2 | now apply IH ] ].
  - intros H. inversion H as [ | ? ? H1 H' ]; subst.
    inversion H' as [ | ? ? H2 H3 ]; subst.
    constructor; [ split; assumption | now apply IH ].
Qed.

Lemma melody_track_plain (track0 : list Message) (pairs : list NotePair) :
  Forall (fun msg => is_end_of_track msg = false)
    (tempo_message track0 :: flat_map written pairs).
Proof.
  constructor; [ | apply written_plain ].
  destruct (tempo_message_set_tempo track0) as [tempo ->]. reflexivity.
Qed.

Lemma melody_track_times (track0 : list Message) (pairs : list NotePair) :
  Forall times_ok pairs <->
  Forall (fun msg => 0 <= time_of msg)
    (tempo_message track0 :: flat_map written pairs).
Proof.
  rewrite written_times. split.
  - intros H. constructor; [ | exact H ].
    destruct (tempo_message_set_tempo track0) as [tempo ->]. simpl. lia.
  - intros H. now inversion H.
Qed.

(** The file written. *)
Lemma save_melody_written (pairs : list NotePair) (original : MidiFile)
    (track0 : list Message) (others : list (list Message)) :
  tracks original = track0 :: others ->
  Forall bytes_ok pairs -> Forall times_ok pairs -> valid_ticks original ->
  save_melody pairs original
  = Ok {| ticks_per_beat := ticks_per_beat original;
          tracks := [tempo_message track0
                       :: flat_map written pairs ++ [end_of_track 0]] |}.
Proof.
  intros Htracks Hbytes Htimes [Hlo Hhi]. unfold save_melody.
  rewrite (save_melody_mid_out_written pairs original track0 others Htracks Hbytes).
  cbn [and_then]. unfold MidiFile_save. cbn [ticks_per_beat tracks].
  apply Z.leb_le in Hlo, Hhi. rewrite Hlo, Hhi. cbn [andb write_tracks].
  rewrite (write_track_plain _ (melody_track_plain track0 pairs))
    by now apply melody_track_times.
  reflexivity.
Qed.

Lemma save_melody_returns (pairs : list NotePair) (original : MidiFile)
    (track0 : list Message) (others : list (list Message)) :
  tracks original = track0 :: others ->
  Forall pair_ok pairs -> Forall valid_pair pairs -> valid_ticks original ->
  save_melody pairs original
  = Ok {| ticks_per_beat := ticks_per_beat original;
          tracks := [tempo_message track0
                       :: flat_map expand pairs ++ [end_of_track 0]] |}.
Proof.
  intros Htracks Hok Hvalid Hticks.
  rewrite <- (flat_map_written_expand pairs Hok).
  apply (save_melody_written pairs original track0 others Htracks);
    [ | | exact Hticks ].
  - apply (Forall_impl _ valid_pair_bytes Hvalid).
  - apply (Forall_impl _ valid_pair_times Hvalid).
Qed.

(** C3. For every sequence of note pairs, each with one pitch in both
    members and its fields in the ranges of a timed event, and every
    original file that has a first track, the serializer hands to the
    writer one track: first the tempo event, which is the first tempo
    directive of the original's first track with its delta-time set to
    zero and its tempo kept, or else, when that track holds none, the
    directive of 500000 microseconds per beat (120 beats per minute) at
    delta-time zero; then the pairs in input order, each as a begin event
    with the begin member's pitch, velocity and delta-time directly
    followed by an end event with the end member's pitch, velocity and
    delta-time. The file written holds that track closed by the
    end-of-track message. *)
Theorem save_melody_events (pairs : list NotePair) (original : MidiFile)
    (track0 : list Message) (others : list (list Message)) :
  tracks original = track0 :: others ->
  Forall pair_ok pairs -> Forall valid_pair pairs ->
  exists tempo_event,
    save_melody_mid_out pairs original
    = Ok {| ticks_per_beat := ticks_per_beat original;
            tracks := [tempo_event :: flat_map expand pairs] |} /\
    (valid_ticks original ->
     save_melody pairs original
     = Ok {| ticks_per_beat := ticks_per_beat original;
             tracks := [tempo_event :: flat_map expand pairs
                                         ++ [end_of_track 0]] |}) /\
    (forall tempo t,
        first_tempo track0 tempo t -> tempo_event = set_tempo tempo 0) /\
    (no_tempo track0 -> tempo_event = set_tempo 500000 0) /\
    ((exists tempo t, first_tempo track0 tempo t) \/ no_tempo track0).
Proof.
  intros Htracks Hok Hvalid. exists (tempo_message track0).
  split; [ | split; [ | split; [ | split ] ] ].
  - rewrite <- (flat_map_written_expand pairs Hok).
    apply (save_melody_mid_out_written pairs original track0 others Htracks).
    apply (Forall_impl _ valid_pair_bytes Hvalid).
  - intros Hticks.
    now apply (save_melody_returns pairs original track0 others).
  - apply tempo_message_first.
  - apply tempo_message_default.
  - apply first_tempo_or_none.
Qed.

(** Only the first track of the original is searched for a tempo
    directive. *)
Example tempo_of_later_track_not_used :
  save_melody []
    {| ticks_per_beat := 96; tracks := [[]; [set_tempo 400000 0]] |}
  = Ok {| ticks_per_beat := 96;
          tracks := [[set_tempo 500000 0; end_of_track 0]] |}.
Proof. reflexivity. Qed.

(* ===================================================================== *)
(** * Pairing, then serializing *)
(* ===================================================================== *)


(** The pairs of valid messages are valid, for a default off time that
    is not negative. *)
Lemma valid_message_fields (e : Message) :
  valid_message e -> is_note e = true -> valid_note (fields e).
Proof. destruct e; simpl; intros H E; (exact H || discriminate). Qed.

Lemma end_for_is_note (p : Z) (e : Message) :
  is_end_for p e = true -> is_note e = true.
Proof. destruct e; simpl; intros H; (reflexivity || discriminate). Qed.

Lemma pair_events_valid d (events : list Message) :
  0 <= d -> Forall valid_message events ->
  Forall valid_pair (pair_events d events).
Proof.
  intros Hd Hvalid.
  induction Hvalid as [ | e later He Hlater IH ]; cbn [pair_events];
    [ constructor | ].
  destruct (is_begin e) eqn:Eb; [ | exact IH ].
  constructor; [ | exact IH ].
  assert (Hn : is_note e = true) by (destruct e; simpl in *; congruence).
  pose proof (valid_message_fields e He Hn) as Hf.
  split; [ exact Hf | ]. cbn [snd]. unfold paired_end.
  destruct (find (is_end_for (fst (fst (fields e)))) later) as [e' | ] eqn:Ef.
  - apply find_some in Ef. destruct Ef as [Hin Hend].
    apply end_for_is_note in Hend.
    apply valid_message_fields; [ | exact Hend ].
    rewrite Forall_forall in Hlater. now apply Hlater.
  - unfold valid_note in *. cbn [fst snd]. unfold data_byte in *. lia.
Qed.

Lemma extract_notes_valid (mid : MidiFile) (d : option Z) :
  0 <= match d with Some t => t | None => 480 end ->
  Forall (Forall valid_message) (tracks mid) ->
  Forall valid_pair (extract_notes mid d).
Proof.
  intros Hd Hvalid. rewrite extract_notes_tracks.
  induction Hvalid as [ | track ts Ht Hts IH ]; cbn [flat_map];
    [ constructor | ].
  apply Forall_app. split; [ now apply pair_events_valid | exact IH ].
Qed.




(** Perfectly matched streams outside that shape are not reproduced: an
    end written as a begin of velocity 0 comes back as an explicit end,
    and overlapping notes come back one after the other. *)
Example zero_velocity_end_rewritten :
  save_melody
    (extract_notes {| ticks_per_beat := 480;
                      tracks := [[note_on 60 100 0; note_on 60 0 10]] |} None)
    {| ticks_per_beat := 480; tracks := [[]] |}
  = Ok {| ticks_per_beat := 480;
          tracks := [[set_tempo 500000 0; note_on 60 100 0; note_off 60 0 10;
                      end_of_track 0]] |}.
Proof. reflexivity. Qed.

Example overlapping_notes_reordered :
  save_melody
    (extract_notes
       {| ticks_per_beat := 480;
          tracks := [[note_on 60 100 0; note_on 64 90 5;
                      note_off 60 0 10; note_off 64 0 15]] |} None)
    {| ticks_per_beat := 480; tracks := [[]] |}
  = Ok {| ticks_per_beat := 480;
          tracks := [[set_tempo 500000 0; note_on 60 100 0; note_off 60 0 10;
                      note_on 64 90 5; note_off 64 0 15; end_of_track 0]] |}.
Proof. reflexivity. Qed.

(* ===================================================================== *)
(** * Worked examples *)
(* ===================================================================== *)

Lemma sample_tape_ok : tape_ok sample_tape.
Proof.
  intros n. unfold sample_tape.
  destruct (Nat.even n); split; unfold Qle, Qlt; simpl; lia.
Defined.

Lemma sample_model_trained : trained 1 [sample_sequence] sample_model.
Proof.
  apply (trained_train 1 [] [] sample_model sample_sequence
           sample_tape sample_tape); [ constructor | reflexivity ].
Defined.

Lemma sample_model_wf : wf_model 1 sample_model.
Proof. vm_compute. repeat constructor. Defined.

Example sample_model_value :
  sample_model
  = [([sample_a], [(sample_b, 1); (sample_c, 1)]);
     ([sample_b], [(sample_a, 1)]);
     ([sample_c], [])].
Proof. reflexivity. Qed.

Example sample_generate :
  fst (generate 4 (world 1 sample_model sample_tape))
  = Ok [sample_a; sample_c; sample_a; sample_b].
Proof. vm_compute. reflexivity. Qed.

Lemma generate_exact_length_witness :
  exists result w' i seed appended,
    generate 4 (world 1 sample_model sample_tape) = (Ok result, w') /\
    Py.len result = 4 /\
    nth_error (Py.keys sample_model) i = Some seed /\
    uniform_selects (Py.keys sample_model) (sample_tape 0%nat) i /\
    Py.len seed = 1 /\
    Py.len appended = 4 - 1 /\
    result = seed ++ appended.
Proof.
  apply (generate_exact_length 1 4 sample_model sample_tape).
  - lia.
  - exact sample_model_wf.
  - vm_compute. discriminate.
  - lia.
  - exact sample_tape_ok.
Defined.

Lemma train_counts_windows_witness :
  exists m1 m2,
    train sample_sequence (world 1 [] sample_tape) = (Ok tt, world 1 m1 sample_tape) /\
    train sample_sequence (world 1 m1 sample_tape) = (Ok tt, world 1 m2 sample_tape) /\
    (forall ctx x,
        succ_count m1 ctx x
        = succ_count [] ctx x + occurrences 1 sample_sequence ctx x) /\
    (forall ctx x,
        succ_count [] ctx x = 0 -> occurrences 1 sample_sequence ctx x = 1 ->
        succ_count m1 ctx x = 1) /\
    (forall ctx x,
        succ_count m2 ctx x
        = succ_count [] ctx x + 2 * occurrences 1 sample_sequence ctx x) /\
    (@nil (Ctx * Counter) = [] ->
     forall ctx x, succ_count m2 ctx x = 2 * succ_count m1 ctx x).
Proof.
  apply (train_counts_windows 1 sample_sequence [] sample_tape).
  - lia.
  - vm_compute. reflexivity.
Defined.

Lemma train_registers_tail_witness :
  exists m',
    train sample_sequence (world 1 [] sample_tape) = (Ok tt, world 1 m' sample_tape) /\
    Py.len (tail_context 1 sample_sequence) = 1 /\
    In (tail_context 1 sample_sequence) (Py.keys m') /\
    (~ In (tail_context 1 sample_sequence) (Py.keys (@nil (Ctx * Counter))) ->
     ~ In (tail_context 1 sample_sequence) (window_contexts 1 sample_sequence) ->
     Py.get Ctx_eq_dec m' (tail_context 1 sample_sequence) = Some []) /\
    (forall ctx x,
        has_entry m' ctx x
        <-> has_entry [] ctx x \/ 0 < occurrences 1 sample_sequence ctx x).
Proof.
  apply (train_registers_tail 1 sample_sequence [] sample_tape).
  - lia.
  - vm_compute. reflexivity.
Defined.




(** The roundings behind it: one tenth and one third as binary64 values,
    the running sums of three weights of one third, a tie below the
    smallest subnormal and the overflow threshold. *)
Example round64_tenth :
  Binary64.round64 (1 # 10)
  = Binary64.Finite (3602879701896397 # 36028797018963968).
Proof. vm_compute. reflexivity. Qed.

Example round64_third :
  Binary64.round64 (1 # 3)
  = Binary64.Finite (6004799503160661 # 18014398509481984).
Proof. vm_compute. reflexivity. Qed.

Example thirds_running_sums :
  Float.accumulate
    [Binary64.round64 (1 # 3); Binary64.round64 (1 # 3); Binary64.round64 (1 # 3)]
  = [Binary64.Finite (6004799503160661 # 18014398509481984);
     Binary64.Finite (6004799503160661 # 9007199254740992);
     Binary64.Finite 1].
Proof. vm_compute. reflexivity. Qed.

Example round64_half_smallest :
  Binary64.round64 (Binary64.pow2 (-1075)) = Binary64.Finite 0 /\
  Binary64.round64 (3 * Binary64.pow2 (-1075))
  = Binary64.round64 (Binary64.pow2 (-1073)).
Proof. split; vm_compute; reflexivity. Qed.

Example round64_overflow :
  Binary64.round64 (Binary64.pow2 1024 - Binary64.pow2 970)
  = Binary64.Infinity false /\
  Binary64.round64 (Binary64.pow2 1024 - Binary64.pow2 970 - Binary64.pow2 900)
  = Binary64.round64 (Binary64.pow2 1024 - Binary64.pow2 971).
Proof. split; vm_compute; reflexivity. Qed.

(** In the exact reading the same draw appends the second successor. *)
Example thirds_exact_reading :
  fst (generate_step (Py.keys thirds_model) ([sample_a], [sample_a])
         (world 1 thirds_model thirds_tape))
  = Ok ([sample_b], [sample_a; sample_b]).
Proof. vm_compute. reflexivity. Qed.

(** A draw in the middle of a part is further than the slack from its
    ends. *)
Example sample_draw_surely_selects :
  surely_selects [(sample_b, 1); (sample_c, 1)] (sample_tape 0%nat) 0.
Proof.
  split; [ simpl; lia | ]. split; vm_compute; [ discriminate | reflexivity ].
Qed.

Lemma errors_raised_witness :
  fst (train [sample_a] (world 1 sample_model sample_tape))
  = Raise (InsufficientDataError 1 1) /\
  fst (generate 1 (world 1 sample_model sample_tape))
  = Raise (InsufficientLengthError 1 1) /\
  fst (generate 1 (world 1 [] sample_tape)) = Raise EmptyModelError.
Proof.
  assert (H1 : 1 <= 1) by lia.
  split; [ | split ].
  - destruct (errors_raised 1 1 [sample_a] sample_model sample_tape
                H1 sample_model_wf sample_tape_ok) as (Ht & _).
    apply Ht. vm_compute. discriminate.
  - destruct (errors_raised 1 1 [sample_a] sample_model sample_tape
                H1 sample_model_wf sample_tape_ok) as (_ & _ & _ & _ & Hl & _).
    apply Hl. split; [ vm_compute; discriminate | lia ].
  - destruct (errors_raised 1 1 [sample_a] [] sample_tape
                H1 (Forall_nil _) sample_tape_ok) as (_ & _ & _ & He & _).
    apply He. reflexivity.
Defined.

(** The statement of the specification fails on the code in two places:
    on an empty table a length not above the order raises the
    empty-model error, not the length error; and the message of the
    training error spells the order, 2 here, where the specification has
    the required minimum, 3. *)
Lemma errors_as_stated_counterexample :
  0 <= 1 /\
  fst (generate 0 (world 1 [] sample_tape)) = Raise EmptyModelError /\
  fst (generate 0 (world 1 [] sample_tape)) <> Raise (InsufficientLengthError 0 1) /\
  Py.len [sample_a] <= 2 /\
  fst (train [sample_a] (world 2 [] sample_tape))
  = Raise (ValueError "Cannot train MarkovChain(order=2) on sequence of length=1.") /\
  names (InsufficientDataError 2 (Py.len [sample_a])) (2 + 1) = false /\
  names (InsufficientDataError 2 (Py.len [sample_a])) 2 = true /\
  names (InsufficientDataError 2 (Py.len [sample_a])) (Py.len [sample_a]) = true.
Proof.
  split; [ lia | ].
  split; [ reflexivity | ].
  split; [ vm_compute; discriminate | ].
  split; [ vm_compute; discriminate | ].
  repeat split; reflexivity.
Qed.

Lemma sample_pairs_valid : Forall valid_pair [sample_a; sample_b].
Proof.
  repeat (constructor;
          [ unfold valid_pair, valid_note, data_byte; simpl; lia | ]).
  constructor.
Defined.


Lemma save_melody_events_witness :
  exists tempo_event,
    save_melody_mid_out [sample_a; sample_b] sample_original
    = Ok {| ticks_per_beat := ticks_per_beat sample_original;
            tracks := [tempo_event :: flat_map expand [sample_a; sample_b]] |} /\
    (valid_ticks sample_original ->
     save_melody [sample_a; sample_b] sample_original
     = Ok {| ticks_per_beat := ticks_per_beat sample_original;
             tracks := [tempo_event :: flat_map expand [sample_a; sample_b]
                                         ++ [end_of_track 0]] |}) /\
    (forall tempo t,
        first_tempo [other_message "track_name" 0; set_tempo 400000 12] tempo t ->
        tempo_event = set_tempo tempo 0) /\
    (no_tempo [other_message "track_name" 0; set_tempo 400000 12] ->
     tempo_event = set_tempo 500000 0) /\
    ((exists tempo t,
         first_tempo [other_message "track_name" 0; set_tempo 400000 12] tempo t)
     \/ no_tempo [other_message "track_name" 0; set_tempo 400000 12]).
Proof.
  apply (save_melody_events [sample_a; sample_b] sample_original
           [other_message "track_name" 0; set_tempo 400000 12]
           [[note_on 60 100 0]]).
  - reflexivity.
  - repeat constructor.
  - exact sample_pairs_valid.
Defined.

(** The statement of the specification fails on the code in two places.
    An original file that holds its tempo directive in a later track has
    it ignored: the default directive is emitted, not a copy of the
    directive of the file. And for an original file without tracks the
    serializer raises [IndexError] and hands nothing to the writer. *)
Lemma save_melody_as_stated_counterexample :
  Forall pair_ok [sample_a] /\ Forall valid_pair [sample_a] /\
  In (set_tempo 400000 0)
    (List.concat (tracks {| ticks_per_beat := 96;
                            tracks := [[]; [set_tempo 400000 0]] |})) /\
  save_melody_mid_out [sample_a]
    {| ticks_per_beat := 96; tracks := [[]; [set_tempo 400000 0]] |}
  = Ok {| ticks_per_beat := 96;
          tracks := [[set_tempo 500000 0;
                      note_on 60 100 0; note_off 60 0 10]] |} /\
  set_tempo 500000 0 <> copy_with_time (set_tempo 400000 0) 0 /\
  save_melody_mid_out [sample_a] {| ticks_per_beat := 96; tracks := [] |}
  = Raise IndexError /\
  (forall out,
      save_melody_mid_out [sample_a] {| ticks_per_beat := 96; tracks := [] |}
      <> Ok out) /\
  save_melody [sample_a] {| ticks_per_beat := 96; tracks := [] |}
  = Raise IndexError.
Proof.
  split; [ repeat constructor | ].
  split; [ repeat (constructor;
                   [ unfold valid_pair, valid_note, data_byte; simpl; lia | ]);
           constructor | ].
  split; [ simpl; auto | ].
  split; [ reflexivity | ].
  split; [ discriminate | ].
  split; [ reflexivity | ].
  split; [ intros out; discriminate | reflexivity ].
Qed.

Example save_melody_sample :
  save_melody [sample_a; sample_b] sample_original
  = Ok {| ticks_per_beat := 96;
          tracks := [[set_tempo 400000 0;
                      note_on 60 100 0; note_off 60 0 10;
                      note_on 64 90 5; note_off 64 0 15;
                      end_of_track 0]] |}.
Proof. reflexivity. Qed.

(** What the library refuses: a data byte above 127 when the message is
    built, a negative delta-time when the track is written. *)
Example save_melody_pitch_out_of_range :
  save_melody [((128, 100, 0), (128, 0, 10))] sample_original
  = Raise (ValueError "data byte must be in range 0..127").
Proof. reflexivity. Qed.

Example save_melody_negative_time :
  save_melody_mid_out [((60, 100, -7), (60, 0, 10))] sample_original
  = Ok {| ticks_per_beat := 96;
          tracks := [[set_tempo 400000 0;
                      note_on 60 100 (-7); note_off 60 0 10]] |} /\
  save_melody [((60, 100, -7), (60, 0, 10))] sample_original
  = Raise (ValueError "message time must be non-negative in MIDI file").
Proof. split; reflexivity. Qed.



Lemma generate_from_training_data_witness :
  fst (generate 4 (world 1 sample_model sample_tape))
  = Ok [sample_a; sample_c; sample_a; sample_b] /\
  Forall (fun x => exists s, In s [sample_sequence] /\ In x s)
    [sample_a; sample_c; sample_a; sample_b].
Proof.
  split; [ vm_compute; reflexivity | ].
  apply Forall_forall.
  apply (generate_from_training_data 1 4 [sample_sequence] sample_model
           sample_tape [sample_a; sample_c; sample_a; sample_b]
           (snd (generate 4 (world 1 sample_model sample_tape)))).
  - exact sample_model_trained.
  - vm_compute. reflexivity.
Defined.

(* ===================================================================== *)
(** * More on [train] *)
(* ===================================================================== *)

Section KeyOrder.
Context {K V : Type}.
Variable eq_dec : forall a b : K, {a = b} + {a <> b}.
Implicit Types (d : list (K * V)) (k : K) (v : V).

Lemma keys_set_present d k v :
  In k (Py.keys d) -> Py.keys (Py.set eq_dec d k v) = Py.keys d.
Proof.
  induction d as [ | [k0 v0] d IH ]; simpl; [ intros [] | ].
  destruct (eq_dec k k0) as [E | E]; [ reflexivity | ].
  intros [H | H]; [ congruence | ]. simpl. f_equal. now apply IH.
Qed.

Lemma keys_set_absent d k v :
  ~ In k (Py.keys d) -> Py.keys (Py.set eq_dec d k v) = Py.keys d ++ [k].
Proof.
  induction d as [ | [k0 v0] d IH ]; simpl; [ reflexivity | ].
  intros H. destruct (eq_dec k k0) as [E | E]; [ exfalso; apply H; now left | ].
  simpl. f_equal. apply IH. intros Hin. apply H. now right.
Qed.

(** Assignment keeps the keys already there in place and adds at most the
    assigned key, at the end. *)
Lemma keys_set_extends d k v :
  exists added,
    Py.keys (Py.set eq_dec d k v) = Py.keys d ++ added /\
    (forall k', In k' added -> k' = k /\ ~ In k (Py.keys d)).
Proof.
  destruct (in_dec eq_dec k (Py.keys d)) as [H | H].
  - exists []. rewrite keys_set_present by assumption.
    split; [ now rewrite app_nil_r | intros k' [] ].
  - exists [k]. rewrite keys_set_absent by assumption.
    split; [ reflexivity | ]. intros k' [<- | []]. now split.
Qed.

Lemma NoDup_keys_set d k v :
  NoDup (Py.keys d) -> NoDup (Py.keys (Py.set eq_dec d k v)).
Proof.
  intros Hnd. destruct (in_dec eq_dec k (Py.keys d)) as [H | H].
  - now rewrite keys_set_present.
  - rewrite keys_set_absent by assumption.
    apply NoDup_app; [ exact Hnd | repeat constructor; intros [] | ].
    intros k' Hk' [<- | []]. contradiction.
Qed.
End KeyOrder.

Lemma keys_add_transition_extends (m : Model) (ctx : Ctx) (x : NotePair) :
  exists added,
    Py.keys (add_transition m ctx x) = Py.keys m ++ added /\
    (forall k, In k added -> k = ctx /\ ~ In ctx (Py.keys m)).
Proof. unfold add_transition. apply keys_set_extends. Qed.

Lemma keys_fold_windows_extends order s starts (m : Model) :
  exists added,
    Py.keys (fold_left (count_window order s) starts m) = Py.keys m ++ added /\
    (forall k, In k added ->
               In k (map (window_context order s) starts) /\ ~ In k (Py.keys m)).
Proof.
  revert m. induction starts as [ | i starts IH ]; intros m; simpl.
  - exists []. split; [ now rewrite app_nil_r | intros k [] ].
  - destruct (IH (count_window order s m i)) as (added2 & E2 & H2).
    unfold count_window in *.
    destruct (window_successor order s i) as [y | ].
    + destruct (keys_add_transition_extends m (window_context order s i) y)
        as (added1 & E1 & H1).
      exists (added1 ++ added2). rewrite E2, E1, app_assoc.
      split; [ reflexivity | ]. intros k Hk. apply in_app_or in Hk.
      destruct Hk as [Hk | Hk].
      * destruct (H1 k Hk) as [-> Hn]. split; [ now left | exact Hn ].
      * destruct (H2 k Hk) as [Hw Hn]. split; [ now right | ].
        intros Hin. apply Hn. rewrite E1. apply in_or_app. now left.
    + exists added2. split; [ exact E2 | ]. intros k Hk.
      destruct (H2 k Hk) as [Hw Hn]. split; [ now right | exact Hn ].
Qed.

Lemma keys_setdefault_extends (m : Model) (k : Ctx) :
  exists added,
    Py.keys (Py.setdefault Ctx_eq_dec m k []) = Py.keys m ++ added /\
    (forall k', In k' added -> k' = k /\ ~ In k (Py.keys m)).
Proof.
  unfold Py.setdefault. destruct (Py.get Ctx_eq_dec m k) as [c | ] eqn:E.
  - exists []. split; [ now rewrite app_nil_r | intros k' [] ].
  - apply keys_set_extends.
Qed.

Lemma NoDup_keys_fold_windows order s starts (m : Model) :
  NoDup (Py.keys m) ->
  NoDup (Py.keys (fold_left (count_window order s) starts m)).
Proof.
  revert m. induction starts as [ | i starts IH ]; intros m Hnd; simpl.
  - exact Hnd.
  - apply IH. unfold count_window.
    destruct (window_successor order s i); [ | exact Hnd ].
    unfold add_transition. now apply NoDup_keys_set.
Qed.

Lemma NoDup_keys_train_model order s (m : Model) :
  NoDup (Py.keys m) -> NoDup (Py.keys (train_model order s m)).
Proof.
  intros Hnd. unfold train_model, Py.setdefault, count_windows.
  destruct (Py.get Ctx_eq_dec _ _).
  - now apply NoDup_keys_fold_windows.
  - apply NoDup_keys_set. now apply NoDup_keys_fold_windows.
Qed.

(** X1. On a chain of positive order whose table has the shape of the
    data model (every key a tuple of [order] pairs, every count
    positive), a successful [train] leaves a table of that shape, and
    leaves the order and the random source as they were. *)
Theorem train_keeps_table_shape (o : Z) (s : list NotePair) (m : Model)
    (r : Rng) (w' : World) :
  1 <= o -> wf_model o m ->
  train s (world o m r) = (Ok tt, w') ->
  wf_model o (model (self w')) /\ order (self w') = o /\ rng w' = r.
Proof.
  intros Ho Hwf Hrun.
  destruct (Z.le_gt_cases (Py.len s) o) as [H | H].
  - rewrite train_raises in Hrun by assumption. discriminate.
  - rewrite train_returns in Hrun by lia. injection Hrun as <-. simpl.
    split; [ apply wf_train_model; [ assumption | lia | assumption ] | ].
    split; reflexivity.
Qed.

Lemma keys_train_model_extends order s (m : Model) :
  exists added,
    Py.keys (train_model order s m) = Py.keys m ++ added /\
    (forall k, In k added ->
       ~ In k (Py.keys m) /\
       (In k (window_contexts order s)
        \/ k = Py.slice s (Some (- order)) None)).
Proof.
  destruct (keys_fold_windows_extends order s (window_starts order s) m)
    as (added1 & E1 & H1).
  destruct (keys_setdefault_extends (count_windows order s m)
              (Py.slice s (Some (- order)) None)) as (added2 & E2 & H2).
  exists (added1 ++ added2). split.
  - unfold train_model. rewrite E2. unfold count_windows.
    now rewrite E1, app_assoc.
  - intros k Hk. apply in_app_or in Hk. destruct Hk as [Hk | Hk].
    + destruct (H1 k Hk) as [Hw Hn]. split; [ exact Hn | now left ].
    + destruct (H2 k Hk) as [-> Hn]. split; [ | now right ].
      intros Hin. apply Hn. unfold count_windows. rewrite E1.
      apply in_or_app. now left.
Qed.

(** X2. A successful [train] keeps every key of the table at its
    position and appends the new ones: the keys afterwards are the keys
    before followed by contexts that were absent, each a window context
    of the sequence or its final slice; keys that were distinct stay
    distinct. *)
Theorem train_appends_keys (order : Z) (s : list NotePair) (m : Model) (r : Rng) :
  0 <= order -> order < Py.len s ->
  exists m' added,
    train s (world order m r) = (Ok tt, world order m' r) /\
    Py.keys m' = Py.keys m ++ added /\
    (forall k, In k added ->
       ~ In k (Py.keys m) /\
       (In k (window_contexts order s)
        \/ k = Py.slice s (Some (- order)) None)) /\
    (NoDup (Py.keys m) -> NoDup (Py.keys m')).
Proof.
  intros Horder Hlen.
  destruct (keys_train_model_extends order s m) as (added & E & H).
  exists (train_model order s m), added.
  split; [ now apply train_returns | ].
  split; [ exact E | split; [ exact H | apply NoDup_keys_train_model ] ].
Qed.

(** X3. The order in which two sequences are trained does not change any
    count, nor which successor entries exist. *)
Theorem train_order_irrelevant (order : Z) (s1 s2 : list NotePair)
    (m : Model) (r : Rng) :
  0 <= order -> order < Py.len s1 -> order < Py.len s2 ->
  exists m1 m12 m2 m21,
    train s1 (world order m r) = (Ok tt, world order m1 r) /\
    train s2 (world order m1 r) = (Ok tt, world order m12 r) /\
    train s2 (world order m r) = (Ok tt, world order m2 r) /\
    train s1 (world order m2 r) = (Ok tt, world order m21 r) /\
    (forall ctx x, succ_count m12 ctx x = succ_count m21 ctx x) /\
    (forall ctx x, has_entry m12 ctx x <-> has_entry m21 ctx x).
Proof.
  intros Horder H1 H2.
  exists (train_model order s1 m), (train_model order s2 (train_model order s1 m)),
    (train_model order s2 m), (train_model order s1 (train_model order s2 m)).
  repeat (split; [ now apply train_returns | ]).
  split; intros ctx x.
  - rewrite !succ_count_train_model. lia.
  - rewrite !has_entry_train_model. tauto.
Qed.

(** X4. The guard of [train] lets a negative order through: when the
    order is below minus the length of the sequence, the first
    subscript [sequence[i + order]] is out of range and [train] raises
    [IndexError], the table untouched. *)
Theorem train_negative_order (o : Z) (s : list NotePair) (m : Model) (r : Rng) :
  o < - Py.len s ->
  train s (world o m r) = (Raise IndexError, world o m r).
Proof.
  intros Hneg. pose proof (len_nonneg s) as Hlen.
  assert (Hrange : exists rest, Py.range (Py.len s - o) = 0 :: rest).
  { unfold Py.range.
    destruct (Z.to_nat (Py.len s - o)) as [ | k ] eqn:Ek; [ lia | ].
    simpl. now eexists. }
  destruct Hrange as [rest Hrange].
  assert (Hidx : Py.index s (0 + o) = None).
  { unfold Py.index.
    destruct (0 <=? 0 + o) eqn:E0; [ lia | ]. simpl.
    destruct (- Py.len s <=? o) eqn:E1; [ lia | ]. reflexivity. }
  unfold train, bind, get_order, world. cbn [self order fst snd].
  destruct (Py.len s <=? o) eqn:E; [ lia | ].
  cbv zeta. cbn [self order fst snd]. rewrite Hrange. cbn [for_each]. unfold bind, get_order.
  cbn [self order fst snd]. rewrite Hidx. reflexivity.
Qed.

Lemma has_entry_key (m : Model) (ctx : Ctx) (x : NotePair) :
  has_entry m ctx x -> In ctx (Py.keys m).
Proof.
  intros (c & Hc & _). apply (get_Some_keys Ctx_eq_dec). now exists c.
Qed.

Lemma window_context_key order s (m : Model) (k : Ctx) :
  In k (window_contexts order s) -> In k (Py.keys (train_model order s m)).
Proof.
  unfold window_contexts. intros Hk. apply in_map_iff in Hk.
  destruct Hk as (i & <- & Hi).
  pose proof (window_starts_bound order s i Hi) as Hb.
  destruct (window_successor order s i) as [x | ] eqn:Ex;
    [ | apply nth_error_None in Ex; lia ].
  apply (has_entry_key _ _ x). apply has_entry_train_model. right.
  apply occurrences_pos. exists i. split; [ exact Hi | ].
  apply is_window_true. now split.
Qed.

Lemma final_slice_key order s (m : Model) :
  In (Py.slice s (Some (- order)) None) (Py.keys (train_model order s m)).
Proof. unfold train_model. apply keys_setdefault. Qed.

(** X5. Training again on a sequence already trained on adds no key and
    no successor entry: the keys of the table are the same, in the same
    order, and only counts change. *)
Theorem retrain_keeps_keys (order : Z) (s : list NotePair) (m : Model) (r : Rng) :
  0 <= order -> order < Py.len s ->
  exists m1 m2,
    train s (world order m r) = (Ok tt, world order m1 r) /\
    train s (world order m1 r) = (Ok tt, world order m2 r) /\
    Py.keys m2 = Py.keys m1 /\
    (forall ctx x, has_entry m2 ctx x <-> has_entry m1 ctx x).
Proof.
  intros Horder Hlen.
  exists (train_model order s m), (train_model order s (train_model order s m)).
  split; [ now apply train_returns | ].
  split; [ now apply train_returns | ].
  split.
  - destruct (keys_train_model_extends order s (train_model order s m))
      as (added & E & H).
    destruct added as [ | k added ]; [ now rewrite E, app_nil_r | ].
    exfalso. destruct (H k (or_introl eq_refl)) as [Hn [Hw | ->]].
    + apply Hn. now apply window_context_key.
    + apply Hn. apply final_slice_key.
  - intros ctx x. rewrite (has_entry_train_model order s (train_model order s m)).
    split; [ intros [H | H] | now left ]; [ exact H | ].
    apply has_entry_train_model. now right.
Qed.

(** X6. An order of 0 passes the guard of [train] for every non-empty
    sequence; the slice [sequence[-0:]] is then the whole sequence, which
    becomes a key of the table beside the empty context, under which
    every element of the sequence is recorded. *)
Theorem train_order_zero (s : list NotePair) (m : Model) (r : Rng) :
  s <> [] ->
  exists m',
    train s (world 0 m r) = (Ok tt, world 0 m' r) /\
    In s (Py.keys m') /\
    In [] (Py.keys m') /\
    (forall x, In x s -> has_entry m' [] x).
Proof.
  intros Hs. exists (train_model 0 s m).
  assert (Hlen : 0 < Py.len s).
  { destruct s; [ contradiction | unfold Py.len; simpl; lia ]. }
  assert (Hentry : forall x, In x s -> has_entry (train_model 0 s m) [] x).
  { intros x Hx. apply has_entry_train_model. right. apply occurrences_pos.
    apply In_nth_error in Hx. destruct Hx as [i Hi].
    exists i. split.
    - unfold window_starts. apply in_seq.
      assert (i < List.length s)%nat by (apply nth_error_Some; congruence).
      simpl. lia.
    - apply is_window_true. unfold window_context, window_successor. simpl.
      now rewrite Nat.add_0_r. }
  split; [ apply train_returns; lia | ].
  split; [ | split; [ | exact Hentry ] ].
  - pose proof (final_slice_key 0 s m) as H.
    now rewrite slice_suffix_zero in H.
  - destruct s as [ | x s' ]; [ contradiction | ].
    apply (has_entry_key _ _ x). apply Hentry. now left.
Qed.

(** With order 0, [generate] on such a table can return more elements
    than asked for, or raise [IndexError] on the empty context. *)
Example generate_order_zero_too_long :
  fst (generate 1
         (snd (train [sample_a; sample_b]
                 (world 0 [] (fun _ => (3 # 4)%Q)))))
  = Ok [sample_a; sample_b; sample_b].
Proof. vm_compute. reflexivity. Qed.

Example generate_order_zero_raises :
  fst (generate 2
         (snd (train [sample_a; sample_b]
                 (world 0 [] (fun _ => (1 # 4)%Q)))))
  = Raise IndexError.
Proof. vm_compute. reflexivity. Qed.

(* --------------------------------------------------------------------- *)
(** ** Training draws nothing *)

Lemma keeps_random_ret {A} (a : A) : keeps_random (ret a).
Proof. intros w. split; reflexivity. Qed.

Lemma keeps_random_raise {A} (e : exn) : keeps_random (@raise A e).
Proof. intros w. split; reflexivity. Qed.

Lemma keeps_random_bind {A B} (m : M A) (k : A -> M B) :
  keeps_random m -> (forall a, keeps_random (k a)) -> keeps_random (bind m k).
Proof.
  intros Hm Hk w. unfold bind. specialize (Hm w).
  destruct (m w) as [[a | e] w']; simpl in *; [ | exact Hm ].
  destruct (Hk a w') as [H1 H2]. destruct Hm as [H3 H4].
  split; congruence.
Qed.

Lemma keeps_random_for_each {A B} (l : list A) (body : B -> A -> M B) (acc : B) :
  (forall acc x, keeps_random (body acc x)) -> keeps_random (for_each l body acc).
Proof.
  intros Hbody. revert acc. induction l as [ | x l IH ]; intros acc; simpl.
  - apply keeps_random_ret.
  - apply keeps_random_bind; [ apply Hbody | exact IH ].
Qed.

Lemma keeps_random_get_order : keeps_random get_order.
Proof. intros w. split; reflexivity. Qed.

Lemma keeps_random_get_model : keeps_random get_model.
Proof. intros w. split; reflexivity. Qed.

Lemma keeps_random_put_model m : keeps_random (put_model m).
Proof. intros w. split; reflexivity. Qed.

Lemma keeps_random_or_IndexError {A} (o : option A) :
  keeps_random (or_IndexError o).
Proof. destruct o; [ apply keeps_random_ret | apply keeps_random_raise ]. Qed.

Lemma keeps_random_model_increment ctx x :
  keeps_random (model_increment ctx x).
Proof.
  unfold model_increment, model_getitem.
  apply keeps_random_bind.
  - apply keeps_random_bind; [ apply keeps_random_get_model | intros m ].
    destruct (Py.get Ctx_eq_dec m ctx).
    + apply keeps_random_ret.
    + apply keeps_random_bind; [ apply keeps_random_put_model | intros _ ].
      apply keeps_random_ret.
  - intros c. apply keeps_random_bind; [ apply keeps_random_get_model | intros m ].
    apply keeps_random_put_model.
Qed.

(** X16. [train] never draws from the random source and never changes
    the order of the chain, whether it returns or raises, and whatever
    the order and the table are. *)
Theorem train_draws_nothing (s : list NotePair) (w : World) :
  rng (snd (train s w)) = rng w /\
  order (self (snd (train s w))) = order (self w).
Proof.
  assert (H : keeps_random (train s)).
  { unfold train.
    apply keeps_random_bind; [ apply keeps_random_get_order | intros o ].
    destruct (Py.len s <=? o); [ apply keeps_random_raise | ].
    apply keeps_random_bind; [ apply keeps_random_get_order | intros o1 ].
    apply keeps_random_bind.
    - apply keeps_random_for_each. intros [] i.
      apply keeps_random_bind; [ apply keeps_random_get_order | intros o2 ].
      apply keeps_random_bind; [ apply keeps_random_get_order | intros o3 ].
      apply keeps_random_bind; [ apply keeps_random_or_IndexError | intros x ].
      apply keeps_random_model_increment.
    - intros _.
      apply keeps_random_bind; [ apply keeps_random_get_order | intros o4 ].
      unfold model_setdefault.
      apply keeps_random_bind; [ apply keeps_random_get_model | intros m ].
      apply keeps_random_put_model. }
  exact (H w).
Qed.

(* ===================================================================== *)
(** * More on [generate] *)
(* ===================================================================== *)

Lemma counter_get_pos (c : Counter) (x : NotePair) :
  counter_ok c -> In x (Py.keys c) -> 0 < counter_get c x.
Proof.
  intros Hok Hin. apply (get_Some_keys NotePair_eq_dec) in Hin.
  destruct Hin as [n Hn]. unfold counter_get. rewrite Hn.
  apply get_Some_In in Hn. unfold counter_ok in Hok.
  rewrite Forall_forall in Hok. exact (Hok _ Hn).
Qed.

Lemma window_context_snoc_inside order (result : list NotePair) (x : NotePair) (i : nat) :
  (i + Z.to_nat order <= List.length result)%nat ->
  window_context order (result ++ [x]) i = window_context order result i.
Proof.
  intros Hi. unfold window_context.
  rewrite skipn_app, firstn_app, length_skipn.
  replace (Z.to_nat order - (List.length result - i))%nat with 0%nat by lia.
  rewrite firstn_0. apply app_nil_r.
Qed.

Lemma window_context_snoc_last order (result : list NotePair) (x : NotePair) :
  (Z.to_nat order <= List.length result)%nat ->
  window_context order (result ++ [x]) (List.length result - Z.to_nat order)
  = trailing order result.
Proof.
  intros Hn. rewrite window_context_snoc_inside by lia.
  unfold window_context, trailing. apply firstn_all2.
  rewrite length_skipn. lia.
Qed.

Lemma follows_table_snoc order (m : Model) (result : list NotePair) (x : NotePair) :
  (Z.to_nat order <= List.length result)%nat ->
  follows_table order m result ->
  0 < succ_count m (trailing order result) x
  \/ dead_end m (trailing order result) ->
  follows_table order m (result ++ [x]).
Proof.
  intros Hn Hf Hx j y Hj Hy.
  destruct (Nat.lt_ge_cases j (List.length result)) as [Hlt | Hge].
  - rewrite nth_error_app1 in Hy by assumption.
    rewrite window_context_snoc_inside by lia. now apply Hf.
  - rewrite nth_error_app2 in Hy by assumption.
    destruct (j - List.length result)%nat as [ | k ] eqn:Ek;
      [ | destruct k; discriminate ].
    injection Hy as <-.
    replace j with (List.length result) by lia.
    now rewrite window_context_snoc_last.
Qed.

Lemma follows_table_seed order (m : Model) (seed : Ctx) :
  Py.len seed = order -> follows_table order m seed.
Proof.
  intros Hlen j x Hj Hx.
  assert (j < List.length seed)%nat by (apply nth_error_Some; congruence).
  unfold Py.len in Hlen. lia.
Qed.

Lemma trailing_seed order (seed : Ctx) :
  Py.len seed = order -> trailing order seed = seed.
Proof.
  intros Hlen. unfold trailing, Py.len in *.
  replace (List.length seed - Z.to_nat order)%nat with 0%nat by lia.
  reflexivity.
Qed.

Lemma nth_error_key (c : Counter) (i : nat) (x : NotePair) (n : Z) :
  nth_error c i = Some (x, n) -> In x (Py.keys c).
Proof.
  intros H. apply nth_error_In in H. unfold Py.keys.
  change x with (fst (x, n)). now apply in_map.
Qed.

(** X7. On a non-empty table of the data model, the output of
    [generate] follows the table: every element after the seed is a
    successor recorded with a positive count for the [order] elements
    that precede it, unless these form a dead end (a context absent from
    the table or without successor). *)
Theorem generate_follows_table (o length : Z) (m : Model) (r : Rng) :
  1 <= o -> wf_model o m -> m <> [] -> o < length -> tape_ok r ->
  exists result w',
    generate length (world o m r) = (Ok result, w') /\
    follows_table o m result.
Proof.
  intros Horder Hwf Hm Hlen Htape.
  assert (H : returns (generate length) (world o m r)
                (fun result _ => follows_table o m result)).
  { unfold generate. step_returns. step_returns. simpl model.
    destruct m as [ | e m' ] eqn:Em; [ contradiction | ]. rewrite <- Em in *.
    clear e m' Em.
    step_returns. step_returns. simpl.
    destruct (length <=? o) eqn:E; [ lia | ].
    step_returns. step_returns. simpl model.
    step_returns. apply random_choice_returns;
      [ now apply keys_nonempty | exact Htape | ].
    intros i seed Hi Hsel. simpl self. simpl rng.
    assert (Hseed : Py.len seed = o).
    { apply (wf_model_keys o m); [ assumption | ].
      eapply nth_error_In. exact Hi. }
    step_returns. step_returns. simpl. step_returns.
    eapply returns_weaken.
    - apply (for_each_returns _
        (fun (_ : list Z) (locals : Ctx * list NotePair) w =>
           exists r',
             tape_ok r' /\ w = world o m r' /\
             fst locals = trailing o (snd locals) /\
             (Z.to_nat o <= List.length (snd locals))%nat /\
             follows_table o m (snd locals))).
      + exists (shift r). simpl.
        split; [ now apply tape_ok_shift | ].
        split; [ reflexivity | ].
        split; [ now rewrite trailing_seed | ].
        split; [ unfold Py.len in Hseed; lia | now apply follows_table_seed ].
      + intros visited x [cur result] w _ (r' & Hr' & -> & Hcur & Hn & Hf).
        simpl in Hcur, Hn, Hf. subst cur.
        destruct (Py.get Ctx_eq_dec m (trailing o result))
          as [[ | item items] | ] eqn:Hget.
        * apply (generate_step_dead o m r'); try assumption.
          -- now apply keys_nonempty.
          -- intros k Hk. now apply (wf_model_keys_nonempty o m).
          -- now right.
          -- intros i0 j ctx y _ _ _ _. exists (shift (shift r')). simpl.
             split; [ now apply tape_ok_shift, tape_ok_shift | ].
             split; [ reflexivity | ]. split; [ reflexivity | ].
             split; [ rewrite length_app; lia | ].
             apply follows_table_snoc; [ exact Hn | exact Hf | ].
             right. now right.
        * destruct (wf_model_get o m _ _ Hwf Hget) as [_ Hok].
          apply (generate_step_live o m r' _ _ _ (item :: items));
            try assumption; [ discriminate | ].
          intros i0 y n Hy _. exists (shift r'). simpl.
          split; [ now apply tape_ok_shift | ].
          split; [ reflexivity | ]. split; [ reflexivity | ].
          split; [ rewrite length_app; lia | ].
          apply follows_table_snoc; [ exact Hn | exact Hf | ].
          left. unfold succ_count. rewrite Hget.
          apply counter_get_pos; [ exact Hok | ].
          now apply (nth_error_key _ i0 y n).
        * apply (generate_step_dead o m r'); try assumption.
          -- now apply keys_nonempty.
          -- intros k Hk. now apply (wf_model_keys_nonempty o m).
          -- now left.
          -- intros i0 j ctx y _ _ _ _. exists (shift (shift r')). simpl.
             split; [ now apply tape_ok_shift, tape_ok_shift | ].
             split; [ reflexivity | ]. split; [ reflexivity | ].
             split; [ rewrite length_app; lia | ].
             apply follows_table_snoc; [ exact Hn | exact Hf | ].
             right. now left.
    - intros [cur result] w' (r' & _ & _ & _ & _ & Hf). simpl in Hf.
      step_returns. exact Hf. }
  destruct H as (result & w' & Hrun & Hf). now exists result, w'.
Qed.

Lemma for_each_app {A B} (l1 l2 : list A) (body : B -> A -> M B) (acc : B) w :
  for_each (l1 ++ l2) body acc w
  = bind (for_each l1 body acc) (fun acc' => for_each l2 body acc') w.
Proof.
  revert acc w. induction l1 as [ | x l1 IH ]; intros acc w; simpl.
  - reflexivity.
  - unfold bind. destruct (body acc x w) as [[acc' | e] w'].
    + rewrite IH. unfold bind. reflexivity.
    + reflexivity.
Qed.

Lemma range_succ (n : Z) : 0 <= n -> Py.range (n + 1) = Py.range n ++ [n].
Proof.
  intros Hn. unfold Py.range.
  replace (Z.to_nat (n + 1)) with (S (Z.to_nat n)) by lia.
  rewrite seq_S, map_app. simpl. now rewrite Z2Nat.id.
Qed.

Lemma generate_step_appends states cur (result : list NotePair) w :
  ensures (generate_step states (cur, result)) w
    (fun lr _ => exists y, snd lr = result ++ [y]).
Proof.
  unfold generate_step. step_ensures. step_ensures.
  apply (ensures_seq _ _ _ (fun _ _ => True)); [ apply ensures_True | ].
  intros [cur' y] w1 _. step_ensures. step_ensures. step_ensures.
  simpl. now exists y.
Qed.

(** The calls of [generate] that pass both guards: the seed, then the
    loop. *)
Lemma generate_loop_form (length : Z) (w : World) :
  model (self w) <> [] -> order (self w) < length ->
  generate length w
  = match random_choice (Py.keys (model (self w))) w with
    | (Ok seed, w0) =>
        match for_each (Py.range (length - order (self w)))
                (fun locals _ => generate_step (Py.keys (model (self w))) locals)
                (seed, seed) w0 with
        | (Ok (_, result), w1) => (Ok result, w1)
        | (Raise e, w1) => (Raise e, w1)
        end
    | (Raise e, w0) => (Raise e, w0)
    end.
Proof.
  intros Hm Hlen. unfold generate, bind at 1, get_model at 1.
  destruct (model (self w)) as [ | e m' ] eqn:Em; [ contradiction | ].
  rewrite <- Em. unfold bind at 1, get_order at 1.
  destruct (length <=? order (self w)) eqn:E; [ lia | ].
  unfold bind at 1, get_model at 1. unfold bind at 1.
  pose proof (frames_random_choice (Py.keys (model (self w))) w) as Hf.
  destruct (random_choice (Py.keys (model (self w))) w) as [[seed | e0] w0];
    [ | reflexivity ].
  simpl in Hf. unfold bind at 1, get_order at 1. rewrite Hf.
  unfold bind at 1.
  destruct (for_each _ _ _ w0) as [[[cur result] | e1] w1]; reflexivity.
Qed.

(** X8. On the same table and the same random tape, asking [generate]
    for one more element only appends to the output: when both calls
    return, the longer output is the shorter one followed by one
    element. *)
Theorem generate_one_more (length : Z) (w w1 w2 : World)
    (result result2 : list NotePair) :
  order (self w) < length ->
  generate length w = (Ok result, w1) ->
  generate (length + 1) w = (Ok result2, w2) ->
  exists y, result2 = result ++ [y].
Proof.
  intros Hlen Hrun Hrun2.
  assert (Hm : model (self w) <> []).
  { intros E. unfold generate, bind, get_model in Hrun. simpl in Hrun.
    rewrite E in Hrun. discriminate. }
  rewrite generate_loop_form in Hrun by assumption.
  rewrite generate_loop_form in Hrun2 by (assumption || lia).
  destruct (random_choice (Py.keys (model (self w))) w) as [[seed | e0] w0];
    [ | discriminate ].
  replace (length + 1 - order (self w)) with (length - order (self w) + 1)
    in Hrun2 by lia.
  rewrite range_succ, for_each_app in Hrun2 by lia.
  unfold bind in Hrun2.
  match type of Hrun with
  | context [for_each ?l ?b ?a ?w'] =>
      destruct (for_each l b a w') as [[[cur res] | e1] w1'] eqn:Eloop;
        [ | discriminate ]
  end.
  injection Hrun as <- <-.
  cbn [for_each] in Hrun2. unfold bind at 1 in Hrun2.
  destruct (generate_step (Py.keys (model (self w))) (cur, res) w1')
    as [[[cur' res'] | e2] w2'] eqn:Estep; [ | discriminate ].
  cbn in Hrun2. injection Hrun2 as <- <-.
  exact (generate_step_appends _ cur res w1' (cur', res') w2' Estep).
Qed.

(* ===================================================================== *)
(** * More on the pairer and the serializer *)
(* ===================================================================== *)

Lemma extract_notes_begins (mid : MidiFile) (d : option Z) :
  map fst (extract_notes mid d) = map fields (begins mid).
Proof.
  rewrite extract_notes_tracks. unfold begins.
  induction (tracks mid) as [ | track ts IH ]; cbn [flat_map];
    [ reflexivity | ].
  rewrite !map_app, pair_events_begins. f_equal. exact IH.
Qed.

Lemma extract_notes_length (mid : MidiFile) (d : option Z) :
  List.length (extract_notes mid d) = List.length (begins mid).
Proof.
  transitivity (List.length (map fst (extract_notes mid d)));
    [ now rewrite length_map | ].
  rewrite extract_notes_begins. apply length_map.
Qed.

(** X9. The tracks of a file are paired one by one, the look-ahead never
    leaving the track of the begin event: the pairs of a file are the
    pairs of its first tracks followed by the pairs of its last tracks,
    whatever the ticks per beat; in all there is one pair per begin
    event of positive velocity, in file order. *)
Theorem extract_notes_by_track (ticks ticks1 ticks2 : Z)
    (ts1 ts2 : list (list Message)) (d : option Z) :
  extract_notes {| ticks_per_beat := ticks; tracks := ts1 ++ ts2 |} d
  = extract_notes {| ticks_per_beat := ticks1; tracks := ts1 |} d
    ++ extract_notes {| ticks_per_beat := ticks2; tracks := ts2 |} d
  /\
  map fst (extract_notes {| ticks_per_beat := ticks; tracks := ts1 ++ ts2 |} d)
  = map fields (flat_map (filter is_begin) ts1)
    ++ map fields (flat_map (filter is_begin) ts2).
Proof.
  split.
  - rewrite !extract_notes_tracks. simpl. apply flat_map_app.
  - rewrite extract_notes_begins. unfold begins. simpl.
    now rewrite flat_map_app, map_app.
Qed.

Lemma pair_events_begin_velocity d (events : list Message) :
  Forall (fun p => 0 < begin_velocity p) (pair_events d events).
Proof.
  induction events as [ | e later IH ]; simpl; [ constructor | ].
  destruct (is_begin e) eqn:He; [ | exact IH ].
  constructor; [ | exact IH ].
  destruct e as [n v t | n v t | tempo t | ty t]; try discriminate.
  unfold begin_velocity. simpl in *. now apply Z.ltb_lt.
Qed.

Lemma extract_notes_pair_ok (mid : MidiFile) (d : option Z) :
  Forall pair_ok (extract_notes mid d).
Proof.
  rewrite extract_notes_tracks.
  induction (tracks mid) as [ | track ts IH ]; cbn [flat_map];
    [ constructor | ].
  apply Forall_app. split; [ apply pair_events_ok | exact IH ].
Qed.

Lemma extract_notes_begin_velocity (mid : MidiFile) (d : option Z) :
  Forall (fun p => 0 < begin_velocity p) (extract_notes mid d).
Proof.
  rewrite extract_notes_tracks.
  induction (tracks mid) as [ | track ts IH ]; cbn [flat_map];
    [ constructor | ].
  apply Forall_app. split; [ apply pair_events_begin_velocity | exact IH ].
Qed.

(** X10. Every pair that [extract_notes] returns, for any file and any
    default, has the same pitch in both members and a positive velocity
    in its begin member. *)
Theorem extract_notes_well_formed (mid : MidiFile) (d : option Z) :
  Forall (fun p => pair_ok p /\ 0 < begin_velocity p) (extract_notes mid d).
Proof.
  pose proof (extract_notes_pair_ok mid d) as Hp.
  pose proof (extract_notes_begin_velocity mid d) as Hv.
  rewrite Forall_forall in *.
  intros p Hin. split; [ now apply Hp | now apply Hv ].
Qed.

Lemma find_filter {A} (f g : A -> bool) (l : list A) :
  (forall a, f a = true -> g a = true) -> find f (filter g l) = find f l.
Proof.
  intros Hfg. induction l as [ | a l IH ]; simpl; [ reflexivity | ].
  destruct (g a) eqn:Eg; simpl.
  - destruct (f a); [ reflexivity | exact IH ].
  - destruct (f a) eqn:Ef; [ | exact IH ].
    apply Hfg in Ef. congruence.
Qed.

Lemma is_end_for_note (p : Z) (e : Message) :
  is_end_for p e = true -> is_note e = true.
Proof. destruct e; simpl; intros H; (reflexivity || discriminate). Qed.

Lemma is_begin_note (e : Message) : is_begin e = true -> is_note e = true.
Proof. destruct e; simpl; intros H; (reflexivity || discriminate). Qed.

Lemma pair_events_filter_notes d (events : list Message) :
  pair_events d (filter is_note events) = pair_events d events.
Proof.
  induction events as [ | e later IH ]; simpl; [ reflexivity | ].
  destruct (is_note e) eqn:En; simpl.
  - rewrite IH. unfold paired_end.
    now rewrite (find_filter _ is_note later (is_end_for_note _)).
  - destruct (is_begin e) eqn:Eb; [ | exact IH ].
    apply is_begin_note in Eb. congruence.
Qed.

(** X11. Messages that are neither [note_on] nor [note_off] (tempo
    changes, other meta and control messages) never change the pairing:
    dropping them from every track gives the same pairs. *)
Theorem extract_notes_ignores_other_messages (mid : MidiFile) (d : option Z) :
  extract_notes
    {| ticks_per_beat := ticks_per_beat mid;
       tracks := map (filter is_note) (tracks mid) |} d
  = extract_notes mid d.
Proof.
  rewrite !extract_notes_tracks. simpl tracks.
  induction (tracks mid) as [ | track ts IH ]; cbn [map flat_map];
    [ reflexivity | ].
  now rewrite pair_events_filter_notes, IH.
Qed.

Lemma flat_map_written_length (pairs : list NotePair) :
  Py.len (flat_map written pairs) = 2 * Py.len pairs.
Proof.
  unfold Py.len. induction pairs as [ | p pairs IH ]; [ reflexivity | ].
  cbn [flat_map]. rewrite length_app. simpl List.length. lia.
Qed.

Lemma save_melody_no_track (pairs : list NotePair) (original : MidiFile) :
  tracks original = [] -> save_melody pairs original = Raise IndexError.
Proof.
  intros Htracks. unfold save_melody, save_melody_mid_out.
  now rewrite Htracks.
Qed.

Lemma save_melody_ticks (pairs : list NotePair) (original : MidiFile)
    (track0 : list Message) (others : list (list Message)) :
  tracks original = track0 :: others ->
  Forall bytes_ok pairs -> ~ valid_ticks original ->
  save_melody pairs original = Raise struct_error.
Proof.
  intros Htracks Hbytes Hticks. unfold save_melody.
  rewrite (save_melody_mid_out_written pairs original track0 others Htracks Hbytes).
  cbn [and_then]. unfold MidiFile_save. cbn [ticks_per_beat].
  destruct (-32768 <=? ticks_per_beat original) eqn:Elo;
    destruct (ticks_per_beat original <=? 32767) eqn:Ehi;
    try reflexivity.
  destruct Hticks. apply Z.leb_le in Elo, Ehi. split; assumption.
Qed.

Lemma save_melody_negative (pairs : list NotePair) (original : MidiFile)
    (track0 : list Message) (others : list (list Message)) :
  tracks original = track0 :: others ->
  Forall bytes_ok pairs -> valid_ticks original -> ~ Forall times_ok pairs ->
  exists msg, save_melody pairs original = Raise (ValueError msg).
Proof.
  intros Htracks Hbytes [Hlo Hhi] Htimes. unfold save_melody.
  rewrite (save_melody_mid_out_written pairs original track0 others Htracks Hbytes).
  cbn [and_then]. unfold MidiFile_save. cbn [ticks_per_beat tracks].
  apply Z.leb_le in Hlo, Hhi. rewrite Hlo, Hhi. cbn [andb write_tracks].
  destruct (write_track_negative _ (melody_track_plain track0 pairs))
    as [msg ->].
  - intros H. apply Htimes. now apply (melody_track_times track0).
  - now exists msg.
Qed.

(** X12. What [save_melody] does with any list of tuples. It raises
    [IndexError] when the original file has no track. With a first
    track: unless the begin pitch and the two velocities of every tuple
    are data bytes, from 0 to 127, it raises [ValueError] and writes
    nothing; then the ticks per beat must fit the header, and no
    delta-time may be negative, or [ValueError] is raised again. In the
    remaining case the file written has the original's ticks per beat
    and a single track of [2 + 2 * len(pairs)] messages: the tempo
    message, then for each tuple a [note_on] and a [note_off] that both
    carry the pitch of the begin member, then the end-of-track message.
    The pitch of the end member is neither checked nor written. *)
Theorem save_melody_any_tuples (pairs : list NotePair) (original : MidiFile) :
  (tracks original = [] -> save_melody pairs original = Raise IndexError) /\
  (forall track0 others,
      tracks original = track0 :: others ->
      (~ Forall bytes_ok pairs ->
       exists msg, save_melody pairs original = Raise (ValueError msg)) /\
      (Forall bytes_ok pairs -> ~ valid_ticks original ->
       save_melody pairs original = Raise struct_error) /\
      (Forall bytes_ok pairs -> valid_ticks original ->
       ~ Forall times_ok pairs ->
       exists msg, save_melody pairs original = Raise (ValueError msg)) /\
      (Forall bytes_ok pairs -> valid_ticks original -> Forall times_ok pairs ->
       exists tempo track,
         save_melody pairs original
         = Ok {| ticks_per_beat := ticks_per_beat original;
                 tracks := [track] |} /\
         track = set_tempo tempo 0 :: flat_map written pairs
                                   ++ [end_of_track 0] /\
         Py.len track = 2 + 2 * Py.len pairs)).
Proof.
  split; [ apply save_melody_no_track | ].
  intros track0 others Htracks.
  split; [ | split; [ | split ] ].
  - intros Hbad. unfold save_melody.
    destruct (save_melody_mid_out_raises pairs original track0 others
                Htracks Hbad) as [msg ->].
    now exists msg.
  - now apply (save_melody_ticks pairs original track0 others).
  - now apply (save_melody_negative pairs original track0 others).
  - intros Hbytes Hticks Htimes.
    destruct (tempo_message_set_tempo track0) as [tempo Htempo].
    exists tempo. eexists. split; [ | split; [ reflexivity | ] ].
    + rewrite <- Htempo.
      now apply (save_melody_written pairs original track0 others).
    + change (set_tempo tempo 0 :: flat_map written pairs ++ [end_of_track 0])
        with ([set_tempo tempo 0] ++ flat_map written pairs ++ [end_of_track 0]).
      rewrite !len_app, flat_map_written_length.
      unfold Py.len. simpl List.length. lia.
Qed.

Lemma tempo_message_not_note (track0 : list Message) :
  is_note (tempo_message track0) = false.
Proof.
  destruct (tempo_message_set_tempo track0) as [tempo ->]. reflexivity.
Qed.

Lemma filter_notes_expand (pairs : list NotePair) :
  filter is_note (flat_map expand pairs) = flat_map expand pairs.
Proof.
  induction pairs as [ | p pairs IH ]; [ reflexivity | ].
  destruct p as [[[p_on v_on] t_on] [[p_off v_off] t_off]].
  cbn [flat_map expand app filter is_note]. now rewrite IH.
Qed.

Lemma pair_events_expand d (pairs : list NotePair) :
  Forall (fun p => pair_ok p /\ 0 < begin_velocity p) pairs ->
  pair_events d (flat_map expand pairs) = pairs.
Proof.
  intros Hok. induction Hok as [ | p pairs [Hp Hv] Hok IH ]; [ reflexivity | ].
  destruct p as [[[p_on v_on] t_on] [[p_off v_off] t_off]].
  unfold pair_ok, begin_velocity in Hp, Hv. simpl in Hp, Hv. subst p_off.
  assert (Hb : (0 <? v_on) = true) by now apply Z.ltb_lt.
  cbn [flat_map expand app pair_events is_begin]. rewrite Hb.
  cbn [fields fst]. unfold paired_end. cbn [find is_end_for].
  rewrite Z.eqb_refl. cbn [fields]. now rewrite IH.
Qed.

(** X13. Serializing, then pairing: for tuples whose members have the
    same pitch, whose begin velocity is positive and whose fields lie in
    the ranges of a timed event, and an original file with a first track
    and ticks per beat that fit the header, [save_melody] writes a file,
    and [extract_notes] on that file gives the tuples back, for any
    default off time. *)
Theorem serialize_then_pair (pairs : list NotePair) (original : MidiFile)
    (track0 : list Message) (others : list (list Message)) (d : option Z) :
  Forall (fun p => pair_ok p /\ 0 < begin_velocity p) pairs ->
  Forall valid_pair pairs -> valid_ticks original ->
  tracks original = track0 :: others ->
  exists out,
    save_melody pairs original = Ok out /\ extract_notes out d = pairs.
Proof.
  intros Hok Hvalid Hticks Htracks. eexists. split.
  - apply (save_melody_returns pairs original track0 others Htracks);
      [ | exact Hvalid | exact Hticks ].
    apply Forall_forall. intros p Hp. rewrite Forall_forall in Hok.
    now apply Hok.
  - rewrite extract_notes_tracks. cbn [tracks flat_map]. rewrite app_nil_r.
    rewrite <- pair_events_filter_notes.
    cbn [filter]. rewrite tempo_message_not_note.
    rewrite filter_app, filter_notes_expand. cbn [filter is_note end_of_track].
    rewrite app_nil_r.
    now apply pair_events_expand.
Qed.

(* ===================================================================== *)
(** * [main]: the pipeline *)
(* ===================================================================== *)

Lemma train_model_nonempty order s (m : Model) : train_model order s m <> [].
Proof.
  intros E. pose proof (final_slice_key order s m) as H.
  rewrite E in H. destruct H.
Qed.

Lemma model_within_train_model order (s : list NotePair) :
  0 <= order -> order < Py.len s -> model_within s (train_model order s []).
Proof.
  intros Horder Hlen.
  assert (H : trained order [s] (train_model order s [])).
  { apply (trained_train order [] [] (train_model order s []) s
             (fun _ => 0%Q) (fun _ => 0%Q)); [ constructor | ].
    now apply train_returns. }
  apply trained_within in H. simpl in H. now rewrite app_nil_r in H.
Qed.

(** The chain part of [main]: build, train, generate. *)
Lemma main_chain_returns (notes : list NotePair) w
    (Q : list NotePair -> World -> Prop) :
  tape_ok (rng w) -> 2 < Py.len notes ->
  (forall generated w',
      Py.len generated = 100 ->
      (forall p, In p generated -> In p notes) ->
      Q generated w') ->
  returns (construct 2 ;;; train notes ;;; generate 100) w Q.
Proof.
  intros Htape Hlen HQ.
  apply returns_bind. exists tt, (world 2 [] (rng w)).
  split; [ reflexivity | ].
  apply returns_bind. exists tt, (world 2 (train_model 2 notes []) (rng w)).
  split; [ apply train_returns; lia | ].
  set (m := train_model 2 notes []).
  assert (Hwf : wf_model 2 m).
  { apply wf_train_model; [ lia | lia | constructor ]. }
  pose proof (generate_returns 2 m (rng w) 100
    (fun result _ => Py.len result = 100)) as Hgen.
  eapply returns_weaken.
  - apply returns_ensures.
    + apply Hgen; try assumption; try lia.
      * apply train_model_nonempty.
      * intros i seed appended r' Hi _ Happ.
        rewrite len_app. unfold Py.len at 2. rewrite Happ.
        rewrite (wf_model_keys 2 m seed Hwf); [ reflexivity | ].
        eapply nth_error_In. exact Hi.
    + apply (generate_within notes). simpl.
      apply model_within_train_model; lia.
  - intros generated w' [H100 Hin]. now apply HQ.
Qed.

Lemma extract_notes_no_track (mid : MidiFile) (d : option Z) :
  tracks mid = [] -> extract_notes mid d = [].
Proof. intros H. rewrite extract_notes_tracks, H. reflexivity. Qed.

(** X14. End to end: on a file as the library reads it (fields of note
    messages in range, no negative delta-time, ticks per beat that fit
    the header) with more than two begin events of positive velocity,
    and draws in the unit interval, [main] succeeds and writes a file
    with the ticks per beat of the input and a single track: the tempo
    message of the input's first track, then 100 pairs of a begin and an
    end event, each pair one of the pairs extracted from the input, then
    the end-of-track message. *)
Theorem main_writes_melody (input_midi : MidiFile) (w : World) :
  valid_file input_midi ->
  tape_ok (rng w) -> (2 < List.length (begins input_midi))%nat ->
  exists out w' track0 others generated,
    main input_midi w = (Ok out, w') /\
    tracks input_midi = track0 :: others /\
    ticks_per_beat out = ticks_per_beat input_midi /\
    tracks out = [tempo_message track0
                    :: flat_map expand generated ++ [end_of_track 0]] /\
    Py.len generated = 100 /\
    (forall p, In p generated -> In p (extract_notes input_midi None)).
Proof.
  intros [Hticks Hmessages] Htape Hbegins.
  set (notes := extract_notes input_midi None).
  assert (Hlen : 2 < Py.len notes).
  { unfold Py.len, notes. rewrite extract_notes_length. lia. }
  destruct (tracks input_midi) as [ | track0 others ] eqn:Htracks.
  { apply (extract_notes_no_track input_midi None) in Htracks.
    unfold notes in Hlen. rewrite Htracks in Hlen.
    unfold Py.len in Hlen. simpl in Hlen. lia. }
  pose proof (main_chain_returns notes w
    (fun generated _ =>
       Py.len generated = 100 /\ (forall p, In p generated -> In p notes))
    Htape Hlen (fun g _ H1 H2 => conj H1 H2)) as Hchain.
  destruct Hchain as (generated & w' & Hrun & H100 & Hin).
  assert (Hok : Forall pair_ok generated).
  { apply Forall_forall. intros p Hp. apply Hin in Hp.
    pose proof (extract_notes_pair_ok input_midi None) as H.
    rewrite Forall_forall in H. now apply H. }
  assert (Hvalid : Forall valid_pair generated).
  { apply Forall_forall. intros p Hp. apply Hin in Hp.
    assert (H : Forall valid_pair (extract_notes input_midi None)).
    { apply extract_notes_valid; [ lia | now rewrite Htracks ]. }
    rewrite Forall_forall in H. now apply H. }
  eexists _, w', track0, others, generated.
  split; [ | split; [ reflexivity | split; [ | split; [ | split ] ] ] ].
  - unfold main. cbv zeta. fold notes.
    unfold bind in *. 
    destruct (construct 2 w) as [[[] | e0] w0]; [ | discriminate ].
    destruct (train notes w0) as [[[] | e1] w1]; [ | discriminate ].
    rewrite Hrun. unfold call.
    rewrite (save_melody_returns generated input_midi track0 others Htracks
               Hok Hvalid Hticks).
    reflexivity.
  - reflexivity.
  - reflexivity.
  - exact H100.
  - exact Hin.
Qed.

(** X15. On a file with at most two begin events of positive velocity,
    [main] raises the error of [train] for order 2, naming the number of
    pairs extracted, before anything is generated or written. *)
Theorem main_too_few_notes (input_midi : MidiFile) (w : World) :
  (List.length (begins input_midi) <= 2)%nat ->
  main input_midi w
  = (Raise (train_error 2 (Z.of_nat (List.length (begins input_midi)))),
     world 2 [] (rng w)).
Proof.
  intros Hbegins. unfold main. cbv zeta.
  unfold bind at 1, construct.
  unfold bind at 1.
  change {| self := new_MarkovChain 2; rng := rng w |} with (world 2 [] (rng w)).
  rewrite train_raises
    by (unfold Py.len; rewrite extract_notes_length; lia).
  unfold Py.len. now rewrite extract_notes_length.
Qed.

(* ===================================================================== *)
(** * Further worked examples *)
(* ===================================================================== *)

Lemma train_keeps_table_shape_witness :
  wf_model 1
    (model (self (snd (train sample_sequence (world 1 sample_model sample_tape)))))
  /\ order (self (snd (train sample_sequence (world 1 sample_model sample_tape)))) = 1
  /\ rng (snd (train sample_sequence (world 1 sample_model sample_tape)))
     = sample_tape.
Proof.
  apply (train_keeps_table_shape 1 sample_sequence sample_model sample_tape).
  - lia.
  - exact sample_model_wf.
  - vm_compute. reflexivity.
Defined.

Lemma train_appends_keys_witness :
  exists m' added,
    train [sample_c; sample_b; sample_a] (world 1 sample_model sample_tape)
    = (Ok tt, world 1 m' sample_tape) /\
    Py.keys m' = Py.keys sample_model ++ added /\
    (forall k, In k added ->
       ~ In k (Py.keys sample_model) /\
       (In k (window_contexts 1 [sample_c; sample_b; sample_a])
        \/ k = Py.slice [sample_c; sample_b; sample_a] (Some (- 1)) None)) /\
    (NoDup (Py.keys sample_model) -> NoDup (Py.keys m')).
Proof.
  apply (train_appends_keys 1 [sample_c; sample_b; sample_a]
           sample_model sample_tape).
  - lia.
  - vm_compute. reflexivity.
Defined.

Lemma train_order_irrelevant_witness :
  exists m1 m12 m2 m21,
    train sample_sequence (world 1 [] sample_tape) = (Ok tt, world 1 m1 sample_tape) /\
    train [sample_c; sample_b] (world 1 m1 sample_tape)
    = (Ok tt, world 1 m12 sample_tape) /\
    train [sample_c; sample_b] (world 1 [] sample_tape)
    = (Ok tt, world 1 m2 sample_tape) /\
    train sample_sequence (world 1 m2 sample_tape) = (Ok tt, world 1 m21 sample_tape) /\
    (forall ctx x, succ_count m12 ctx x = succ_count m21 ctx x) /\
    (forall ctx x, has_entry m12 ctx x <-> has_entry m21 ctx x).
Proof.
  apply (train_order_irrelevant 1 sample_sequence [sample_c; sample_b]
           [] sample_tape).
  - lia.
  - vm_compute. reflexivity.
  - vm_compute. reflexivity.
Defined.

Lemma train_negative_order_witness :
  train [] (world (-1) [] sample_tape)
  = (Raise IndexError, world (-1) [] sample_tape).
Proof.
  apply (train_negative_order (-1) [] [] sample_tape).
  vm_compute. reflexivity.
Defined.

Lemma retrain_keeps_keys_witness :
  exists m1 m2,
    train sample_sequence (world 1 [] sample_tape) = (Ok tt, world 1 m1 sample_tape) /\
    train sample_sequence (world 1 m1 sample_tape) = (Ok tt, world 1 m2 sample_tape) /\
    Py.keys m2 = Py.keys m1 /\
    (forall ctx x, has_entry m2 ctx x <-> has_entry m1 ctx x).
Proof.
  apply (retrain_keeps_keys 1 sample_sequence [] sample_tape).
  - lia.
  - vm_compute. reflexivity.
Defined.

Lemma train_order_zero_witness :
  exists m',
    train sample_sequence (world 0 [] sample_tape) = (Ok tt, world 0 m' sample_tape) /\
    In sample_sequence (Py.keys m') /\
    In [] (Py.keys m') /\
    (forall x, In x sample_sequence -> has_entry m' [] x).
Proof.
  apply (train_order_zero sample_sequence [] sample_tape).
  discriminate.
Defined.

Lemma generate_follows_table_witness :
  exists result w',
    generate 4 (world 1 sample_model sample_tape) = (Ok result, w') /\
    follows_table 1 sample_model result.
Proof.
  apply (generate_follows_table 1 4 sample_model sample_tape).
  - lia.
  - exact sample_model_wf.
  - vm_compute. discriminate.
  - lia.
  - exact sample_tape_ok.
Defined.

Lemma generate_one_more_witness :
  exists y,
    [sample_a; sample_c; sample_a; sample_b]
    = [sample_a; sample_c; sample_a] ++ [y].
Proof.
  apply (generate_one_more 3 (world 1 sample_model sample_tape)
           (snd (generate 3 (world 1 sample_model sample_tape)))
           (snd (generate (3 + 1) (world 1 sample_model sample_tape)))).
  - simpl. lia.
  - vm_compute. reflexivity.
  - vm_compute. reflexivity.
Defined.

Lemma sample_original_ticks : valid_ticks sample_original.
Proof. unfold valid_ticks. simpl. lia. Defined.

Lemma save_melody_any_tuples_witness :
  exists tempo track,
    save_melody [sample_a; sample_b] sample_original
    = Ok {| ticks_per_beat := ticks_per_beat sample_original;
            tracks := [track] |} /\
    track = set_tempo tempo 0 :: flat_map written [sample_a; sample_b]
                              ++ [end_of_track 0] /\
    Py.len track = 2 + 2 * Py.len [sample_a; sample_b].
Proof.
  apply (proj2 (save_melody_any_tuples [sample_a; sample_b] sample_original)
           [other_message "track_name" 0; set_tempo 400000 12]
           [[note_on 60 100 0]]).
  - reflexivity.
  - apply (Forall_impl _ valid_pair_bytes sample_pairs_valid).
  - exact sample_original_ticks.
  - apply (Forall_impl _ valid_pair_times sample_pairs_valid).
Defined.

Lemma serialize_then_pair_witness :
  exists out,
    save_melody [sample_a; sample_b] sample_original = Ok out /\
    extract_notes out (Some 7) = [sample_a; sample_b].
Proof.
  apply (serialize_then_pair [sample_a; sample_b] sample_original
           [other_message "track_name" 0; set_tempo 400000 12]
           [[note_on 60 100 0]] (Some 7)).
  - repeat (constructor; [ split; [ reflexivity | unfold begin_velocity; simpl; lia ] | ]).
    constructor.
  - exact sample_pairs_valid.
  - exact sample_original_ticks.
  - reflexivity.
Defined.

Lemma sample_input_valid : valid_file sample_input.
Proof.
  split; [ unfold valid_ticks; simpl; lia | ].
  constructor; [ | constructor ].
  repeat (constructor;
          [ unfold valid_message, valid_note, data_byte; simpl; lia | ]).
  constructor.
Defined.

Lemma main_writes_melody_witness :
  exists out w' track0 others generated,
    main sample_input (world 0 [] sample_tape) = (Ok out, w') /\
    tracks sample_input = track0 :: others /\
    ticks_per_beat out = ticks_per_beat sample_input /\
    tracks out = [tempo_message track0
                    :: flat_map expand generated ++ [end_of_track 0]] /\
    Py.len generated = 100 /\
    (forall p, In p generated -> In p (extract_notes sample_input None)).
Proof.
  apply (main_writes_melody sample_input (world 0 [] sample_tape)).
  - exact sample_input_valid.
  - exact sample_tape_ok.
  - vm_compute. lia.
Defined.

Lemma main_too_few_notes_witness :
  main sample_original (world 0 [] sample_tape)
  = (Raise (train_error 2 (Z.of_nat (List.length (begins sample_original)))),
     world 2 [] sample_tape).
Proof.
  apply (main_too_few_notes sample_original (world 0 [] sample_tape)).
  vm_compute. lia.
Defined.

Example main_too_few_notes_message :
  fst (main sample_original (world 0 [] sample_tape))
  = Raise (ValueError "Cannot train MarkovChain(order=2) on sequence of length=1.").
Proof. vm_compute. reflexivity. Qed.
